(** * Buzzy Defender: a shallow embedding of the game logic

    The C++ sources ([Buzzy_Defender.cpp], [ECE_Buzzy.cpp], [ECE_Enemy.cpp],
    [ECE_LaserBlast.cpp]) are translated function by function.

    Numbers.  The program computes with [float]; here a [float] is an exact
    rational ([Q]): rounding, infinities and NaN are outside the model.  The
    one place where the source relies on an infinity (the running minimum of
    [updateEnemies]) is modelled with an [option].  Equalities between
    computed coordinates are therefore stated with [==] ([Qeq]) unless both
    sides are the same expression.

    SFML.  The graphics library is not part of the repository; the few of
    its operations that the game logic depends on ([sf::Transformable],
    [sf::Sprite] bounds, [sf::Rect::intersects], the window's open flag,
    size and event queue) are modelled in [Module sf] from the behaviour of
    SFML 2.
    No sprite of this program is ever rotated, so the rotation stays 0 and
    the transform of a sprite is a scaling followed by a translation. *)

From Stdlib Require Import String QArith ZArith List Bool Lia Lqa.
Import ListNotations.
Local Open Scope Q_scope.

(** ** Comparisons and the [<algorithm>] helpers *)

(** [a < b] on floats, as a boolean. *)
Definition Qltb (a b : Q) : bool :=
  match a ?= b with Lt => true | _ => false end.

(** [std::min(a, b)]: [(b < a) ? b : a]. *)
Definition std_min (a b : Q) : Q := if Qltb b a then b else a.

(** [std::max(a, b)]: [(a < b) ? b : a]. *)
Definition std_max (a b : Q) : Q := if Qltb a b then b else a.

(** [std::clamp(v, lo, hi)]: [(v < lo) ? lo : (hi < v) ? hi : v]. *)
Definition std_clamp (v lo hi : Q) : Q :=
  if Qltb v lo then lo else if Qltb hi v then hi else v.

(** ** The part of SFML the game logic uses *)

Module sf.

Record Vector2f := mkVector2f { x : Q; y : Q }.

(** [sf::Vector2u], the size of a window or of a texture. *)
Record Vector2u := mkVector2u { ux : Z; uy : Z }.

Record FloatRect := mkFloatRect { left : Q; top : Q; width : Q; height : Q }.

(** A texture is only its pixel size here; a default-constructed texture,
    and one whose [loadFromFile] failed, has size 0 x 0. *)
Record Texture := mkTexture { texSize : Vector2u }.

Definition emptyTexture : Texture := mkTexture (mkVector2u 0 0).

(** [sf::Rect<float>::intersects]: rectangles with negative dimensions are
    allowed, so both are normalised first; the rectangles intersect when
    the overlap has positive, non-zero area. *)
Definition intersects (r1 r2 : FloatRect) : bool :=
  let r1MinX := std_min (left r1) (left r1 + width r1) in
  let r1MaxX := std_max (left r1) (left r1 + width r1) in
  let r1MinY := std_min (top r1) (top r1 + height r1) in
  let r1MaxY := std_max (top r1) (top r1 + height r1) in
  let r2MinX := std_min (left r2) (left r2 + width r2) in
  let r2MaxX := std_max (left r2) (left r2 + width r2) in
  let r2MinY := std_min (top r2) (top r2 + height r2) in
  let r2MaxY := std_max (top r2) (top r2 + height r2) in
  let interLeft := std_max r1MinX r2MinX in
  let interTop := std_max r1MinY r2MinY in
  let interRight := std_min r1MaxX r2MaxX in
  let interBottom := std_min r1MaxY r2MaxY in
  Qltb interLeft interRight && Qltb interTop interBottom.

(** [sf::Sprite] seen as an [sf::Transformable] with a texture rectangle.
    [texRect] is the size of the texture rectangle (its corner is (0,0)). *)
Record Sprite := mkSprite {
  texRect : Vector2u;
  origin : Vector2f;
  position : Vector2f;
  scale : Vector2f
}.

(** [Sprite(texture)]: the whole texture, origin and position (0,0),
    scale (1,1). *)
Definition newSprite (t : Texture) : Sprite :=
  mkSprite (texSize t) (mkVector2f 0 0) (mkVector2f 0 0) (mkVector2f 1 1).

Definition setOrigin (ox oy : Q) (s : Sprite) : Sprite :=
  mkSprite (texRect s) (mkVector2f ox oy) (position s) (scale s).

Definition setScale (sx sy : Q) (s : Sprite) : Sprite :=
  mkSprite (texRect s) (origin s) (position s) (mkVector2f sx sy).

Definition setPosition (p : Vector2f) (s : Sprite) : Sprite :=
  mkSprite (texRect s) (origin s) p (scale s).

Definition getPosition (s : Sprite) : Vector2f := position s.

(** [Transformable::move(offsetX, offsetY)]:
    [setPosition(m_position.x + offsetX, m_position.y + offsetY)]. *)
Definition move (dx dy : Q) (s : Sprite) : Sprite :=
  setPosition (mkVector2f (x (position s) + dx) (y (position s) + dy)) s.

(** [Sprite::getLocalBounds]: [(0, 0, |rect.width|, |rect.height|)]. *)
Definition getLocalBounds (s : Sprite) : FloatRect :=
  mkFloatRect 0 0 (inject_Z (Z.abs (ux (texRect s))))
                  (inject_Z (Z.abs (uy (texRect s)))).

(** One axis of the loop of [Transform::transformRect]: a further corner
    lowers the minimum, or else raises the maximum. *)
Definition extentStep (acc : Q * Q) (p : Q) : Q * Q :=
  if Qltb p (fst acc) then (p, snd acc)
  else if Qltb (snd acc) p then (fst acc, p)
  else acc.

(** The loop, started from the first corner. *)
Definition extent (p0 : Q) (ps : list Q) : Q * Q :=
  fold_left extentStep ps (p0, p0).

(** [getTransform().transformRect(r)] with rotation 0: a point [(px, py)]
    goes to [(sx * px + tx, sy * py + ty)] where
    [tx = -ox * sx + posx] and [ty = -oy * sy + posy]; the result is the
    bounding box of the four transformed corners, taken in the order
    (l,t), (l,t+h), (l+w,t), (l+w,t+h). *)
Definition transformRect (s : Sprite) (r : FloatRect) : FloatRect :=
  let tx := - x (origin s) * x (scale s) + x (position s) in
  let ty := - y (origin s) * y (scale s) + y (position s) in
  let X (px : Q) := x (scale s) * px + tx in
  let Y (py : Q) := y (scale s) * py + ty in
  let ex := extent (X (left r))
              [X (left r); X (left r + width r); X (left r + width r)] in
  let ey := extent (Y (top r))
              [Y (top r + height r); Y (top r); Y (top r + height r)] in
  mkFloatRect (fst ex) (fst ey) (snd ex - fst ex) (snd ey - fst ey).

(** [Sprite::getGlobalBounds]. *)
Definition getGlobalBounds (s : Sprite) : FloatRect :=
  transformRect s (getLocalBounds s).

(** Keys and events the program looks at, and the Resized event, which
    the window handles itself when it is polled. *)
Inductive Key := Escape | Space | Enter | Left | Right | OtherKey.

Inductive Event :=
| Closed
| KeyPressed (code : Key)
| Resized (width height : Z)
| OtherEvent.

(** A window: its open flag and its size.  Once a window is closed
    [pollEvent] returns no further event. *)
Record RenderWindow := mkWindow { isOpen : bool; getSize : Vector2u }.

Definition close (w : RenderWindow) : RenderWindow :=
  mkWindow false (getSize w).

(** [Window::filterEvent], through which [pollEvent] hands every event it
    returns: a Resized event makes the window cache its new size, which
    is what [getSize] answers from then on. *)
Definition filterEvent (w : RenderWindow) (e : Event) : RenderWindow :=
  match e with
  | Resized width height => mkWindow (isOpen w) (mkVector2u width height)
  | _ => w
  end.

End sf.

(** A [Vector2u] component converted to [float]. *)
Definition to_float (z : Z) : Q := inject_Z z.

(** ** ECE_Buzzy: the player *)

Module ECE_Buzzy.

Record t := mk { sprite : sf.Sprite; m_speed : Q }.

Definition getGlobalBounds (b : t) : sf.FloatRect :=
  sf.getGlobalBounds (sprite b).
Definition getLocalBounds (b : t) : sf.FloatRect :=
  sf.getLocalBounds (sprite b).
Definition getPosition (b : t) : sf.Vector2f := sf.getPosition (sprite b).
Definition setPosition (p : sf.Vector2f) (b : t) : t :=
  mk (sf.setPosition p (sprite b)) (m_speed b).
Definition setScale (sx sy : Q) (b : t) : t :=
  mk (sf.setScale sx sy (sprite b)) (m_speed b).
Definition setOrigin (ox oy : Q) (b : t) : t :=
  mk (sf.setOrigin ox oy (sprite b)) (m_speed b).

(** The constructor: origin at the centre of the local bounds, scaled to
    about 100 x 100 pixels; [m_speed] defaults to 450. *)
Definition new (texture : sf.Texture) : t :=
  let b0 := mk (sf.newSprite texture) 450 in
  let b1 := setOrigin (sf.width (getLocalBounds b0) / 2)
                      (sf.height (getLocalBounds b0) / 2) b0 in
  let b := getLocalBounds b1 in
  let scaleX := 100 / sf.width b in
  let scaleY := 100 / sf.height b in
  setScale scaleX scaleY b1.

Definition scaleForWindow (windowSize : sf.Vector2u) (boxFracW boxFracH : Q)
    (bz : t) : t :=
  let b := getLocalBounds bz in
  let targetW := to_float (sf.ux windowSize) * boxFracW in
  let targetH := to_float (sf.uy windowSize) * boxFracH in
  let sx := targetW / sf.width b in
  let sy := targetH / sf.height b in
  let s := std_min sx sy in
  setScale s s bz.

Definition setSpeed (s : Q) (b : t) : t := mk (sprite b) s.
Definition getSpeed (b : t) : Q := m_speed b.

(** [ECE_Buzzy::update(dt, windowWidth)].  The two real-time key states
    read through [Keyboard::isKeyPressed] are arguments. *)
Definition update (leftPressed rightPressed : bool) (dt windowWidth : Q)
    (b : t) : t :=
  let dx := 0 in
  let dx := if leftPressed then dx - m_speed b * dt else dx in
  let dx := if rightPressed then dx + m_speed b * dt else dx in
  let pos := getPosition b in
  let pos :=
    sf.mkVector2f
      (std_clamp (sf.x pos + dx)
                 (sf.width (getGlobalBounds b) / 2)
                 (windowWidth - sf.width (getGlobalBounds b) / 2))
      (sf.y pos) in
  setPosition pos b.

End ECE_Buzzy.

(** ** ECE_Enemy: one sprite of the swarm *)

Module ECE_Enemy.

Record t := mk { sprite : sf.Sprite; m_alive : bool }.

Definition getGlobalBounds (e : t) : sf.FloatRect :=
  sf.getGlobalBounds (sprite e).
Definition getLocalBounds (e : t) : sf.FloatRect :=
  sf.getLocalBounds (sprite e).
Definition getPosition (e : t) : sf.Vector2f := sf.getPosition (sprite e).
Definition setPosition (p : sf.Vector2f) (e : t) : t :=
  mk (sf.setPosition p (sprite e)) (m_alive e).
Definition setScale (sx sy : Q) (e : t) : t :=
  mk (sf.setScale sx sy (sprite e)) (m_alive e).
Definition setOrigin (ox oy : Q) (e : t) : t :=
  mk (sf.setOrigin ox oy (sprite e)) (m_alive e).
Definition move (dx dy : Q) (e : t) : t :=
  mk (sf.move dx dy (sprite e)) (m_alive e).

(** The constructor: origin at the centre; [m_alive] defaults to true. *)
Definition new (texture : sf.Texture) : t :=
  let e0 := mk (sf.newSprite texture) true in
  let b := getLocalBounds e0 in
  setOrigin (sf.width b / 2) (sf.height b / 2) e0.

Definition scaleForWindow (windowSize : sf.Vector2u) (boxFracW boxFracH : Q)
    (e : t) : t :=
  let b := getLocalBounds e in
  let targetW := to_float (sf.ux windowSize) * boxFracW in
  let targetH := to_float (sf.uy windowSize) * boxFracH in
  let sx := targetW / sf.width b in
  let sy := targetH / sf.height b in
  let s := std_min sx sy in
  setScale s s e.

Definition isAlive (e : t) : bool := m_alive e.
Definition kill (e : t) : t := mk (sprite e) false.
Definition setAlive (a : bool) (e : t) : t := mk (sprite e) a.

End ECE_Enemy.

(** ** ECE_LaserBlast: one projectile *)

Module ECE_LaserBlast.

Record t := mk { sprite : sf.Sprite; m_vel : sf.Vector2f; m_fromPlayer : bool }.

Definition getGlobalBounds (l : t) : sf.FloatRect :=
  sf.getGlobalBounds (sprite l).
Definition getLocalBounds (l : t) : sf.FloatRect :=
  sf.getLocalBounds (sprite l).
Definition getPosition (l : t) : sf.Vector2f := sf.getPosition (sprite l).
Definition setPosition (p : sf.Vector2f) (l : t) : t :=
  mk (sf.setPosition p (sprite l)) (m_vel l) (m_fromPlayer l).
Definition setScale (sx sy : Q) (l : t) : t :=
  mk (sf.setScale sx sy (sprite l)) (m_vel l) (m_fromPlayer l).
Definition setOrigin (ox oy : Q) (l : t) : t :=
  mk (sf.setOrigin ox oy (sprite l)) (m_vel l) (m_fromPlayer l).
Definition move (dx dy : Q) (l : t) : t :=
  mk (sf.move dx dy (sprite l)) (m_vel l) (m_fromPlayer l).

(** The constructor: origin at the centre, scaled to a 6 x 18 bolt;
    [m_vel] defaults to (0, 0). *)
Definition new (texture : sf.Texture) (fromPlayer : bool) : t :=
  let l0 := mk (sf.newSprite texture) (sf.mkVector2f 0 0) fromPlayer in
  let b := getLocalBounds l0 in
  let l1 := setOrigin (sf.width b / 2) (sf.height b / 2) l0 in
  setScale (6 / sf.width b) (18 / sf.height b) l1.

Definition setVelocity (v : sf.Vector2f) (l : t) : t :=
  mk (sprite l) v (m_fromPlayer l).
Definition getVelocity (l : t) : sf.Vector2f := m_vel l.

(** [update(dt)]: [move(m_vel * dt)]. *)
Definition update (dt : Q) (l : t) : t :=
  move (sf.x (m_vel l) * dt) (sf.y (m_vel l) * dt) l.

Definition fromPlayer (l : t) : bool := m_fromPlayer l.

Definition isOffScreen (windowHeight : Q) (l : t) : bool :=
  let gb := getGlobalBounds l in
  Qltb (sf.top gb + sf.height gb) 0 || Qltb windowHeight (sf.top gb).

End ECE_LaserBlast.

(** ** Buzzy_Defender.cpp: helpers of the game loop *)

Inductive GameOutcome := Win | Lose | Quit.

Record allTextures := mkTextures {
  startTex : sf.Texture; endTex : sf.Texture; winTex : sf.Texture;
  bgTex : sf.Texture; buzzyTex : sf.Texture; laserTex : sf.Texture;
  enemy1Tex : sf.Texture; enemy2Tex : sf.Texture
}.

(** A C++ call either returns a value or leaves by throwing
    [std::runtime_error(what)]. *)
Inductive Outcome (A : Type) :=
| Returned (a : A)
| Thrown (what : string).
Arguments Returned {A} a.
Arguments Thrown {A} what.

(** The disk as [Texture::loadFromFile] sees it: the decoded image of a
    path, when there is a loadable file there. *)
Definition Disk := string -> option sf.Texture.

(** [Texture::loadFromFile(path)]: on success the texture holds the image
    and the call answers true; on failure the texture is left as it was
    and the call answers false. *)
Definition loadFromFile (disk : Disk) (path : string) (t : sf.Texture)
  : bool * sf.Texture :=
  match disk path with
  | Some img => (true, img)
  | None => (false, t)
  end.

(** [loadTexture(path)]: the answer of [loadFromFile] is dropped and [t] is
    returned whatever it was; the body has no [throw]. *)
Definition loadTexture (disk : Disk) (path : string) : Outcome sf.Texture :=
  let t := sf.emptyTexture in
  let t := snd (loadFromFile disk path t) in
  Returned t.

Definition makeBackground (tex : sf.Texture) (windowSize : sf.Vector2u)
  : sf.Sprite :=
  let b := sf.newSprite tex in
  let texSize := sf.texSize tex in
  let scaleX := to_float (sf.ux windowSize) / to_float (sf.ux texSize) in
  let scaleY := to_float (sf.uy windowSize) / to_float (sf.uy texSize) in
  let b := sf.setScale scaleX scaleY b in
  sf.setPosition (sf.mkVector2f 0 0) b.

(** One pass of the inner [while (window.pollEvent(e))] loop of a modal
    screen over the events queued for that pass: [Some r] when the screen
    returns [r], [None] when the queue runs dry. *)
Fixpoint modalPoll (window : sf.RenderWindow) (events : list sf.Event)
  : sf.RenderWindow * option bool :=
  match events with
  | [] => (window, None)
  | e :: rest =>
      let window := sf.filterEvent window e in
      match e with
      | sf.Closed => (sf.close window, Some false)
      | sf.KeyPressed sf.Escape => (sf.close window, Some false)
      | sf.KeyPressed sf.Enter => (window, Some true)
      | _ => modalPoll window rest
      end
  end.

(** A modal screen: [polls] holds, for each pass of the outer loop, the
    events queued at that pass.  [None] means that the screen is still
    waiting when [polls] is used up. *)
Fixpoint modalScreen (window : sf.RenderWindow) (polls : list (list sf.Event))
  : sf.RenderWindow * option bool :=
  if negb (sf.isOpen window) then (window, Some false)
  else
    match polls with
    | [] => (window, None)
    | events :: rest =>
        match modalPoll window events with
        | (window', Some r) => (window', Some r)
        | (window', None) => modalScreen window' rest
        end
    end.

(** [startScreen], [endScreen] and [winScreen] have the same body; only
    the sprite they draw differs. *)
Definition startScreen (window : sf.RenderWindow) (ss : sf.Sprite) :=
  modalScreen window.
Definition endScreen (window : sf.RenderWindow) (es : sf.Sprite) :=
  modalScreen window.
Definition winScreen (window : sf.RenderWindow) (ws : sf.Sprite) :=
  modalScreen window.

(** [createEnemies]: a grid of 4 rows and 8 columns, filled row by row. *)
Definition createEnemies (enemyTex1 enemyTex2 : sf.Texture)
    (windowSize : sf.Vector2u) : list ECE_Enemy.t :=
  let cols := 8%nat in
  let rows := 4%nat in
  let startY := to_float (sf.uy windowSize) * (65 # 100) in
  let xPadding := 120 in
  let yPadding := 120 in
  let leftMargin := 120 in
  let topMargin := startY in
  flat_map (fun r =>
    map (fun c =>
           let enemyTex := if Nat.eqb (r mod 2) 0 then enemyTex1 else enemyTex2 in
           let enemy := ECE_Enemy.new enemyTex in
           let enemy := ECE_Enemy.scaleForWindow windowSize (1 # 10) (1 # 10) enemy in
           let x := leftMargin + inject_Z (Z.of_nat c) * xPadding in
           let y := topMargin + inject_Z (Z.of_nat r) * yPadding in
           ECE_Enemy.setPosition (sf.mkVector2f x y) enemy)
        (seq 0 cols))
    (seq 0 rows).

(** The shot that [handleEvents] builds when Space is pressed. *)
Definition newPlayerShot (buzzy : ECE_Buzzy.t) (laserTex : sf.Texture)
  : ECE_LaserBlast.t :=
  let newPlayerShot := ECE_LaserBlast.new laserTex true in
  let p := ECE_Buzzy.getPosition buzzy in
  let newPlayerShot :=
    ECE_LaserBlast.setPosition
      (sf.mkVector2f (sf.x p)
         (sf.y p + sf.height (ECE_Buzzy.getGlobalBounds buzzy) * (1 # 2) + 10))
      newPlayerShot in
  ECE_LaserBlast.setVelocity (sf.mkVector2f 0 400) newPlayerShot.

(** [handleEvents]: [events] is the queue that [pollEvent] drains; a closed
    window yields no further event, and every event polled goes through
    [filterEvent] first. *)
Fixpoint handleEvents (window : sf.RenderWindow) (buzzy : ECE_Buzzy.t)
    (playerShots : list ECE_LaserBlast.t) (laserTex : sf.Texture)
    (events : list sf.Event)
  : sf.RenderWindow * list ECE_LaserBlast.t :=
  match events with
  | [] => (window, playerShots)
  | e :: rest =>
      if negb (sf.isOpen window) then (window, playerShots)
      else
        let window := sf.filterEvent window e in
        let window :=
          match e with sf.Closed => sf.close window | _ => window end in
        let window :=
          match e with
          | sf.KeyPressed sf.Escape => sf.close window
          | _ => window
          end in
        let playerShots :=
          match e with
          | sf.KeyPressed sf.Space =>
              playerShots ++ [newPlayerShot buzzy laserTex]
          | _ => playerShots
          end in
        handleEvents window buzzy playerShots laserTex rest
  end.

(** The shot that [spawnEnemyLaser] builds for the chosen shooter. *)
Definition newEnemyShot (shooter : ECE_Enemy.t) (laserTex : sf.Texture)
  : ECE_LaserBlast.t :=
  let newEnemyShot := ECE_LaserBlast.new laserTex false in
  let p := ECE_Enemy.getPosition shooter in
  let newEnemyShot :=
    ECE_LaserBlast.setPosition
      (sf.mkVector2f (sf.x p)
         (sf.y p + sf.height (ECE_Enemy.getGlobalBounds shooter) * (1 # 2) + 10))
      newEnemyShot in
  ECE_LaserBlast.setVelocity (sf.mkVector2f 0 (-300)) newEnemyShot.

(** The shooter of [spawnEnemyLaser]: [alive[rand() % alive.size()]] where
    [alive] collects the enemies whose flag is set; [rnd] is the value of
    [std::rand()]. *)
Definition pickShooter (rnd : nat) (enemies : list ECE_Enemy.t)
  : option ECE_Enemy.t :=
  let alive := filter ECE_Enemy.isAlive enemies in
  match alive with
  | [] => None
  | _ => nth_error alive (rnd mod length alive)
  end.

(** [spawnEnemyLaser]; restarting the cadence clock is the caller's
    business in this model (clock readings are inputs of a frame). *)
Definition spawnEnemyLaser (rnd : nat) (enemyShots : list ECE_LaserBlast.t)
    (enemies : list ECE_Enemy.t) (laserTex : sf.Texture)
  : list ECE_LaserBlast.t :=
  match pickShooter rnd enemies with
  | Some shooter => enemyShots ++ [newEnemyShot shooter laserTex]
  | None => enemyShots
  end.

Definition updateBuzzy (leftPressed rightPressed : bool) (buzzy : ECE_Buzzy.t)
    (dt windowWidth : Q) : ECE_Buzzy.t :=
  ECE_Buzzy.update leftPressed rightPressed dt windowWidth buzzy.

(** One of the two loops of [updateShots]: every shot is updated, and
    erased when it has left the screen. *)
Fixpoint updateShotList (shots : list ECE_LaserBlast.t) (dt windowHeight : Q)
  : list ECE_LaserBlast.t :=
  match shots with
  | [] => []
  | it :: rest =>
      let it := ECE_LaserBlast.update dt it in
      if ECE_LaserBlast.isOffScreen windowHeight it
      then updateShotList rest dt windowHeight
      else it :: updateShotList rest dt windowHeight
  end.

Definition updateShots (playerShots enemyShots : list ECE_LaserBlast.t)
    (dt windowHeight : Q) : list ECE_LaserBlast.t * list ECE_LaserBlast.t :=
  (updateShotList playerShots dt windowHeight,
   updateShotList enemyShots dt windowHeight).

(** [int] arithmetic: the result of a product brought back into the
    32-bit two's complement range. *)
Definition wrap_int (z : Z) : Z := ((z + 2 ^ 31) mod 2 ^ 32 - 2 ^ 31)%Z.
Definition int_mul (a b : Z) : Z := wrap_int (a * b).

(** The first loop of [updateEnemies].  [None] stands for the initial pair
    [(+infinity, -infinity)]: [std::min(+inf, l)] is [l] and
    [std::max(-inf, r)] is [r], so the pair is finite from the first alive
    enemy on, and [!std::isfinite(minLeft)] holds exactly for [None]. *)
Fixpoint swarmEdges (enemies : list ECE_Enemy.t) (acc : option (Q * Q))
  : option (Q * Q) :=
  match enemies with
  | [] => acc
  | enemy :: rest =>
      if negb (ECE_Enemy.isAlive enemy) then swarmEdges rest acc
      else
        let gb := ECE_Enemy.getGlobalBounds enemy in
        let acc :=
          match acc with
          | None => (sf.left gb, sf.left gb + sf.width gb)
          | Some (minLeft, maxRight) =>
              (std_min minLeft (sf.left gb),
               std_max maxRight (sf.left gb + sf.width gb))
          end in
        swarmEdges rest (Some acc)
  end.

(** The body of both moving loops of [updateEnemies]. *)
Definition moveAlive (dx dy : Q) (enemies : list ECE_Enemy.t)
  : list ECE_Enemy.t :=
  map (fun enemy =>
         if ECE_Enemy.isAlive enemy then ECE_Enemy.move dx dy enemy else enemy)
      enemies.

(** [updateEnemies]: the swarm and [dir] are passed by reference and come
    back as the result ([enemySpeedX] is passed by reference too but is
    only read). *)
Definition updateEnemies (enemies : list ECE_Enemy.t) (dt windowWidth : Q)
    (enemySpeedX : Q) (dir : Z) (stepUp : Q) : list ECE_Enemy.t * Z :=
  match enemies with
  | [] => (enemies, dir)
  | _ :: _ =>
      match swarmEdges enemies None with
      | None => (enemies, dir)
      | Some (minLeft, maxRight) =>
          let dx := enemySpeedX * to_float dir * dt in
          let nextLeft := minLeft + dx in
          let nextRight := maxRight + dx in
          if Qltb nextLeft 0 || Qltb windowWidth nextRight then
            let correctionX :=
              if Qltb nextLeft 0 then - minLeft else windowWidth - maxRight in
            (moveAlive correctionX stepUp enemies, int_mul dir (-1))
          else (moveAlive dx 0 enemies, dir)
      end
  end.

(** The inner loop of [checkPlayerShotCollisions] for one shot: the first
    alive enemy whose bounds meet the shot's is killed; [None] when the
    loop ends without a hit. *)
Fixpoint hitEnemy (playerShotBounds : sf.FloatRect) (enemies : list ECE_Enemy.t)
  : option (list ECE_Enemy.t) :=
  match enemies with
  | [] => None
  | enemy :: rest =>
      if ECE_Enemy.isAlive enemy
         && sf.intersects playerShotBounds (ECE_Enemy.getGlobalBounds enemy)
      then Some (ECE_Enemy.kill enemy :: rest)
      else option_map (cons enemy) (hitEnemy playerShotBounds rest)
  end.

(** [checkPlayerShotCollisions]: a shot that hit is erased, the others are
    kept in order. *)
Fixpoint checkPlayerShotCollisions (playerShots : list ECE_LaserBlast.t)
    (enemies : list ECE_Enemy.t)
  : list ECE_LaserBlast.t * list ECE_Enemy.t :=
  match playerShots with
  | [] => ([], enemies)
  | shotIt :: rest =>
      let playerShotBounds := ECE_LaserBlast.getGlobalBounds shotIt in
      match hitEnemy playerShotBounds enemies with
      | Some enemies' => checkPlayerShotCollisions rest enemies'
      | None =>
          let (kept, enemies') := checkPlayerShotCollisions rest enemies in
          (shotIt :: kept, enemies')
      end
  end.

Fixpoint checkPlayerEnemyCollision (buzzy : ECE_Buzzy.t)
    (enemies : list ECE_Enemy.t) : bool :=
  let buzzyBounds := ECE_Buzzy.getGlobalBounds buzzy in
  match enemies with
  | [] => false
  | enemy :: rest =>
      if ECE_Enemy.isAlive enemy
         && sf.intersects buzzyBounds (ECE_Enemy.getGlobalBounds enemy)
      then true
      else checkPlayerEnemyCollision buzzy rest
  end.

(** [checkEnemyShotCollisions]: the answer and the list of enemy shots as
    the call leaves it. *)
Fixpoint checkEnemyShotCollisions (enemyShots : list ECE_LaserBlast.t)
    (buzzy : ECE_Buzzy.t) : bool * list ECE_LaserBlast.t :=
  let buzzyBounds := ECE_Buzzy.getGlobalBounds buzzy in
  match enemyShots with
  | [] => (false, [])
  | shotIt :: rest =>
      if sf.intersects buzzyBounds (ECE_LaserBlast.getGlobalBounds shotIt)
      then (true, rest)
      else
        let (hit, rest') := checkEnemyShotCollisions rest buzzy in
        (hit, shotIt :: rest')
  end.

Fixpoint checkWin (enemies : list ECE_Enemy.t) : bool :=
  match enemies with
  | [] => true
  | enemy :: rest => if ECE_Enemy.isAlive enemy then false else checkWin rest
  end.

(** What [window.draw] is called on. *)
Inductive Drawable :=
| DrawBackground (s : sf.Sprite)
| DrawBuzzy (b : ECE_Buzzy.t)
| DrawEnemy (e : ECE_Enemy.t)
| DrawLaser (l : ECE_LaserBlast.t).

(** [drawScene]: the calls to [window.draw], in order. *)
Definition drawScene (background : sf.Sprite) (buzzy : ECE_Buzzy.t)
    (enemies : list ECE_Enemy.t)
    (playerShots enemyShots : list ECE_LaserBlast.t) : list Drawable :=
  [DrawBackground background; DrawBuzzy buzzy]
  ++ map DrawEnemy (filter ECE_Enemy.isAlive enemies)
  ++ map DrawLaser playerShots
  ++ map DrawLaser enemyShots.

(** ** playGame *)

(** What one pass of the main loop reads from outside: the queued events,
    the reading of [enemyShotsClock], the value of [std::rand()], the
    reading [dt] of [clock.restart()], and the state of the two arrow
    keys. *)
Record FrameInput := mkFrameInput {
  events : list sf.Event;
  shotsElapsed : Q;
  rnd : nat;
  dt : Q;
  leftPressed : bool;
  rightPressed : bool
}.

(** The per-run state of [playGame]. *)
Record Round := mkRound {
  window : sf.RenderWindow;
  buzzy : ECE_Buzzy.t;
  playerShots : list ECE_LaserBlast.t;
  enemyShots : list ECE_LaserBlast.t;
  enemies : list ECE_Enemy.t;
  enemySpeedX : Q;
  dir : Z;
  stepUp : Q
}.

Definition enemyShotsInterval : Q := 1 # 2.

(** The main loop's body from [handleEvents] to
    [checkPlayerShotCollisions]. *)
Definition frameUpdate (tex : allTextures) (s : Round) (f : FrameInput) : Round :=
  let (window1, playerShots1) :=
    handleEvents (window s) (buzzy s) (playerShots s) (laserTex tex) (events f) in
  let enemyShots1 :=
    if Qle_bool enemyShotsInterval (shotsElapsed f)
    then spawnEnemyLaser (rnd f) (enemyShots s) (enemies s) (laserTex tex)
    else enemyShots s in
  let buzzy1 :=
    updateBuzzy (leftPressed f) (rightPressed f) (buzzy s) (dt f)
                (to_float (sf.ux (sf.getSize window1))) in
  let (playerShots2, enemyShots2) :=
    updateShots playerShots1 enemyShots1 (dt f)
                (to_float (sf.uy (sf.getSize window1))) in
  let (enemies1, dir1) :=
    updateEnemies (enemies s) (dt f) (to_float (sf.ux (sf.getSize window1)))
                  (enemySpeedX s) (dir s) (stepUp s) in
  let (playerShots3, enemies2) :=
    checkPlayerShotCollisions playerShots2 enemies1 in
  mkRound window1 buzzy1 playerShots3 enemyShots2 enemies2 (enemySpeedX s) dir1
          (stepUp s).

(** How a pass of the main loop ends: with the lose screen, with the win
    screen, or with [drawScene] and another pass. *)
Inductive FrameResult :=
| LoseScreen (s : Round)
| WinScreen (s : Round)
| NextFrame (s : Round) (drawn : list Drawable).

(** The rest of the body: both collision tests are evaluated before the
    [if], then [checkWin], then [drawScene]. *)
Definition frameChecks (bg : sf.Sprite) (s : Round) : FrameResult :=
  let (killedByShot, enemyShots1) :=
    checkEnemyShotCollisions (enemyShots s) (buzzy s) in
  let collidedEnemy := checkPlayerEnemyCollision (buzzy s) (enemies s) in
  let s1 := mkRound (window s) (buzzy s) (playerShots s) enemyShots1 (enemies s)
                    (enemySpeedX s) (dir s) (stepUp s) in
  if killedByShot || collidedEnemy then LoseScreen s1
  else
    let winNow := checkWin (enemies s1) in
    if winNow then WinScreen s1
    else NextFrame s1 (drawScene bg (buzzy s1) (enemies s1) (playerShots s1)
                                 (enemyShots s1)).

Definition frame (tex : allTextures) (bg : sf.Sprite) (s : Round)
    (f : FrameInput) : FrameResult :=
  frameChecks bg (frameUpdate tex s f).

(** After a lost or won round the same modal screen asks for a replay. *)
Definition replay (outcome : GameOutcome) (again : option bool)
  : option GameOutcome :=
  option_map (fun again : bool => if again then outcome else Quit) again.

(** The main loop.  [frames] holds the inputs of the successive passes and
    [endPolls] the events seen by the final modal screen; [None] means the
    round is still running when the inputs are used up. *)
Fixpoint mainLoop (tex : allTextures) (endS winS bg : sf.Sprite) (s : Round)
    (frames : list FrameInput) (endPolls : list (list sf.Event))
  : option GameOutcome :=
  if negb (sf.isOpen (window s)) then Some Quit
  else
    match frames with
    | [] => None
    | f :: rest =>
        match frame tex bg s f with
        | LoseScreen s' => replay Lose (snd (endScreen (window s') endS endPolls))
        | WinScreen s' => replay Win (snd (endScreen (window s') winS endPolls))
        | NextFrame s' _ => mainLoop tex endS winS bg s' rest endPolls
        end
    end.

(** The state a round starts from. *)
Definition initRound (w : sf.RenderWindow) (tex : allTextures) : Round :=
  let buzzy0 := ECE_Buzzy.new (buzzyTex tex) in
  let buzzy1 := ECE_Buzzy.scaleForWindow (sf.getSize w) (1 # 10) (1 # 10) buzzy0 in
  let buzzy2 :=
    ECE_Buzzy.setPosition
      (sf.mkVector2f (to_float (sf.ux (sf.getSize w)) / 2)
                     (to_float (sf.uy (sf.getSize w)) * (25 # 100)))
      buzzy1 in
  let swarm := createEnemies (enemy1Tex tex) (enemy2Tex tex) (sf.getSize w) in
  mkRound w buzzy2 [] [] swarm 300 1 (-20).

(** [playGame]. *)
Definition playGame (w : sf.RenderWindow) (tex : allTextures)
    (startPolls : list (list sf.Event)) (frames : list FrameInput)
    (endPolls : list (list sf.Event)) : option GameOutcome :=
  let start := makeBackground (startTex tex) (sf.getSize w) in
  let endS := makeBackground (endTex tex) (sf.getSize w) in
  let winS := makeBackground (winTex tex) (sf.getSize w) in
  let bg := makeBackground (bgTex tex) (sf.getSize w) in
  match startScreen w start startPolls with
  | (_, None) => None
  | (_, Some false) => Some Quit
  | (w1, Some true) =>
      mainLoop tex endS winS bg (initRound w1 tex) frames endPolls
  end.

(** The states at the end of the successive passes of the main loop, as
    far as [mainLoop] gets through [frames]: it stops at a closed window
    and after the pass that ends the round. *)
Fixpoint roundStates (tex : allTextures) (bg : sf.Sprite) (s : Round)
    (frames : list FrameInput) : list Round :=
  if negb (sf.isOpen (window s)) then []
  else
    match frames with
    | [] => []
    | f :: rest =>
        match frame tex bg s f with
        | LoseScreen s' => [s']
        | WinScreen s' => [s']
        | NextFrame s' _ => s' :: roundStates tex bg s' rest
        end
    end.

(** ** Relations used to state the properties *)

(** The edges [a'] are the edges [a] translated by [c]. *)
Definition shiftedEdges (c : Q) (a a' : option (Q * Q)) : Prop :=
  match a, a' with
  | None, None => True
  | Some (l, r), Some (l', r') => l' == l + c /\ r' == r + c
  | _, _ => False
  end.

(** An enemy [e] and the same enemy [e'] later in the round, for a swarm
    whose vertical step is [step]: a dead enemy is the very same object
    (still dead, not moved), and when [step] is not positive the enemy is
    not further down than it was. *)
Definition enemyLater (step : Q) (e e' : ECE_Enemy.t) : Prop :=
  (ECE_Enemy.isAlive e = false -> e' = e)
  /\ (ECE_Enemy.isAlive e' = true -> ECE_Enemy.isAlive e = true)
  /\ (step <= 0 ->
      sf.y (ECE_Enemy.getPosition e') <= sf.y (ECE_Enemy.getPosition e)).

(** What a pass of [checkPlayerShotCollisions] can do to an enemy:
    nothing, or kill it if it was alive. *)
Definition sameOrKilled (e e' : ECE_Enemy.t) : Prop :=
  e' = e \/ (ECE_Enemy.isAlive e = true /\ e' = ECE_Enemy.kill e).

(** The origin of the sprite is the centre of its local bounds, as the
    three constructors set it. *)
Definition centred (s : sf.Sprite) : Prop :=
  sf.origin s
  = sf.mkVector2f (sf.width (sf.getLocalBounds s) / 2)
                  (sf.height (sf.getLocalBounds s) / 2).

(** The texture rectangle has a positive width and height (the texture
    was loaded). *)
Definition textured (s : sf.Sprite) : Prop :=
  (0 < sf.ux (sf.texRect s))%Z /\ (0 < sf.uy (sf.texRect s))%Z.

(** Events that close the window, and the one that fires. *)
Definition isClosing (e : sf.Event) : bool :=
  match e with
  | sf.Closed => true
  | sf.KeyPressed sf.Escape => true
  | _ => false
  end.

Definition isSpace (e : sf.Event) : bool :=
  match e with
  | sf.KeyPressed sf.Space => true
  | _ => false
  end.

Definition isResized (e : sf.Event) : bool :=
  match e with
  | sf.Resized _ _ => true
  | _ => false
  end.

(** The window after [pollEvent] has returned the given events. *)
Definition polled (events : list sf.Event) (w : sf.RenderWindow)
  : sf.RenderWindow :=
  fold_left sf.filterEvent events w.

(** The events of a queue up to the first one that satisfies [p], that one
    included. *)
Fixpoint throughFirst (p : sf.Event -> bool) (events : list sf.Event)
  : list sf.Event :=
  match events with
  | [] => []
  | e :: rest => if p e then [e] else e :: throughFirst p rest
  end.

(** Events that end a modal screen. *)
Definition isDecisive (e : sf.Event) : bool :=
  match e with
  | sf.Closed => true
  | sf.KeyPressed sf.Escape => true
  | sf.KeyPressed sf.Enter => true
  | _ => false
  end.

(** The state the main loop is in after the passes [pre], when each of
    them found the window open and ended with [drawScene]. *)
Fixpoint passes (tex : allTextures) (bg : sf.Sprite) (s : Round)
    (pre : list FrameInput) : option Round :=
  match pre with
  | [] => Some s
  | f :: rest =>
      if negb (sf.isOpen (window s)) then None
      else
        match frame tex bg s f with
        | NextFrame s' _ => passes tex bg s' rest
        | _ => None
        end
  end.

(** The state a pass of the main loop leaves behind. *)
Definition resultState (r : FrameResult) : Round :=
  match r with
  | LoseScreen s => s
  | WinScreen s => s
  | NextFrame s _ => s
  end.

(** A laser in flight: a blast built from [tex] for the given side, only
    moved since, with the vertical velocity [vy]. *)
Definition inFlight (tex : sf.Texture) (fromPlayer : bool) (vy : Q)
    (l : ECE_LaserBlast.t) : Prop :=
  ECE_LaserBlast.sprite l
  = sf.setPosition (ECE_LaserBlast.getPosition l)
      (ECE_LaserBlast.sprite (ECE_LaserBlast.new tex fromPlayer))
  /\ ECE_LaserBlast.m_vel l = sf.mkVector2f 0 vy
  /\ ECE_LaserBlast.m_fromPlayer l = fromPlayer.

(** The player is set up as [playGame] sets it up: origin at the centre,
    a scale that is not negative, and no wider than the window. *)
Definition playerFits (s : Round) : Prop :=
  centred (ECE_Buzzy.sprite (buzzy s))
  /\ 0 <= sf.x (sf.scale (ECE_Buzzy.sprite (buzzy s)))
  /\ 0 <= sf.y (sf.scale (ECE_Buzzy.sprite (buzzy s)))
  /\ sf.width (ECE_Buzzy.getGlobalBounds (buzzy s))
     <= to_float (sf.ux (sf.getSize (window s))).

(** ** Sample data for the examples *)

Definition demoTexture : sf.Texture := sf.mkTexture (sf.mkVector2u 200 100).

Definition demoWindow : sf.RenderWindow := sf.mkWindow true (sf.mkVector2u 1920 1080).

Definition demoBuzzy : ECE_Buzzy.t :=
  ECE_Buzzy.setPosition (sf.mkVector2f 960 270)
    (ECE_Buzzy.scaleForWindow (sf.getSize demoWindow) (1 # 10) (1 # 10)
       (ECE_Buzzy.new demoTexture)).

Definition demoTextures : allTextures :=
  mkTextures demoTexture demoTexture demoTexture demoTexture
             demoTexture demoTexture demoTexture demoTexture.

Definition demoFrame : FrameInput := mkFrameInput [] 0 0 10 false false.

(** A pass of a sixtieth of a second with no event and no key held. *)
Definition demoTick : FrameInput := mkFrameInput [] 0 0 (1 # 60) false false.

(** The first enemy of the grid, and its right-hand neighbour. *)
Definition demoEnemy : ECE_Enemy.t :=
  ECE_Enemy.setPosition (sf.mkVector2f 120 702)
    (ECE_Enemy.scaleForWindow (sf.getSize demoWindow) (1 # 10) (1 # 10)
       (ECE_Enemy.new demoTexture)).

Definition demoNeighbour : ECE_Enemy.t :=
  ECE_Enemy.setPosition (sf.mkVector2f 240 702) demoEnemy.

(** A player shot sitting on [demoEnemy]. *)
Definition demoShot : ECE_LaserBlast.t :=
  ECE_LaserBlast.setPosition (sf.mkVector2f 120 702)
    (newPlayerShot demoBuzzy demoTexture).

(** An enemy shot sitting on the player. *)
Definition demoIncoming : ECE_LaserBlast.t :=
  ECE_LaserBlast.setPosition (sf.mkVector2f 960 270)
    (newEnemyShot demoEnemy demoTexture).

(** One enemy left, and a player shot about to destroy it. *)
Definition demoLastStand : Round :=
  mkRound demoWindow demoBuzzy [demoShot] [] [demoEnemy] 300 1 (-20).

(** An enemy shot about to hit the player. *)
Definition demoUnderFire : Round :=
  mkRound demoWindow demoBuzzy [] [demoIncoming] [demoEnemy] 300 1 (-20).

(** A swarm whose first enemy has been destroyed. *)
Definition demoOneDead : Round :=
  mkRound demoWindow demoBuzzy [] [] [ECE_Enemy.kill demoEnemy; demoNeighbour]
          300 1 (-20).

(** * Properties *)

(** ** The model at work *)

(** The grid has 4 x 8 enemies, all alive, and a fresh round is not won. *)
Example createEnemies_grid :
  length (enemies (initRound demoWindow demoTextures)) = 32%nat
  /\ forallb ECE_Enemy.isAlive (enemies (initRound demoWindow demoTextures))
     = true
  /\ checkWin (enemies (initRound demoWindow demoTextures)) = false.
Proof. repeat split; vm_compute; reflexivity. Qed.

(** Escape on the start screen quits before a round starts; Enter starts
    one, and closing the window during the first pass ends it. *)
Example playGame_quit_at_start :
  playGame demoWindow demoTextures [[sf.OtherEvent]; [sf.KeyPressed sf.Escape]]
           [] []
  = Some Quit.
Proof. vm_compute. reflexivity. Qed.

Example playGame_close_in_round :
  playGame demoWindow demoTextures [[sf.KeyPressed sf.Enter]]
           [mkFrameInput [sf.Closed] 0 0 (1 # 60) false false; demoTick] []
  = Some Quit.
Proof. vm_compute. reflexivity. Qed.

(** A round with no input left is still running. *)
Example playGame_still_running :
  playGame demoWindow demoTextures [[sf.KeyPressed sf.Enter]] [demoTick] []
  = None.
Proof. vm_compute. reflexivity. Qed.

(** Rectangles that only share an edge do not intersect. *)
Example intersects_needs_area :
  sf.intersects (sf.mkFloatRect 0 0 10 10) (sf.mkFloatRect 10 0 5 5) = false
  /\ sf.intersects (sf.mkFloatRect 0 0 10 10) (sf.mkFloatRect 9 9 5 5) = true.
Proof. split; reflexivity. Qed.

(** ** Comparisons *)

Lemma Qltb_lt (a b : Q) : Qltb a b = true <-> a < b.
Proof.
  unfold Qltb. rewrite Qlt_alt.
  destruct (a ?= b); split; congruence.
Qed.

Lemma Qltb_ge (a b : Q) : Qltb a b = false <-> b <= a.
Proof.
  rewrite <- Bool.not_true_iff_false, Qltb_lt.
  split; [apply Qnot_lt_le | apply Qle_not_lt].
Qed.

(** Case analysis on every comparison in sight, with the outcome as a
    hypothesis that [lra] understands. *)
Ltac qcase :=
  match goal with
  | |- context [Qltb ?a ?b] =>
      let H := fresh "Hcmp" in
      destruct (Qltb a b) eqn:H;
      [apply Qltb_lt in H | apply Qltb_ge in H]
  | H0 : context [Qltb ?a ?b] |- _ =>
      let H := fresh "Hcmp" in
      destruct (Qltb a b) eqn:H;
      [apply Qltb_lt in H | apply Qltb_ge in H]
  end.

Ltac qcases := repeat (qcase; cbn [fst snd] in * ).

(** Division by 2 written as a product, for [lra]. *)
Ltac qhalf := unfold Qdiv in *; change (/ 2) with (1 # 2) in *.

Lemma std_clamp_bounds (v lo hi : Q) :
  lo <= hi -> lo <= std_clamp v lo hi <= hi.
Proof. unfold std_clamp. intros Hle. qcases; lra. Qed.

Lemma std_min_spec (a b : Q) :
  std_min a b <= a /\ std_min a b <= b
  /\ (std_min a b = a \/ std_min a b = b).
Proof. unfold std_min. qcases; repeat split; auto; lra. Qed.

Lemma std_max_spec (a b : Q) :
  a <= std_max a b /\ b <= std_max a b
  /\ (std_max a b = a \/ std_max a b = b).
Proof. unfold std_max. qcases; repeat split; auto; lra. Qed.

(** ** Bounds of a sprite under translation *)

Lemma extentStep_shift (c : Q) (acc acc' : Q * Q) (p p' : Q) :
  fst acc' == fst acc + c -> snd acc' == snd acc + c -> p' == p + c ->
  fst (sf.extentStep acc' p') == fst (sf.extentStep acc p) + c
  /\ snd (sf.extentStep acc' p') == snd (sf.extentStep acc p) + c.
Proof.
  intros Hf Hs Hp. unfold sf.extentStep.
  destruct acc as [lo hi], acc' as [lo' hi']; cbn [fst snd] in *.
  qcases; split; lra.
Qed.

Lemma extent_shift (c p0 p0' : Q) (ps ps' : list Q) :
  p0' == p0 + c ->
  Forall2 (fun p' p => p' == p + c) ps' ps ->
  fst (sf.extent p0' ps') == fst (sf.extent p0 ps) + c
  /\ snd (sf.extent p0' ps') == snd (sf.extent p0 ps) + c.
Proof.
  intros H0 Hall. unfold sf.extent.
  assert (Hacc : fst (p0', p0') == fst (p0, p0) + c
                 /\ snd (p0', p0') == snd (p0, p0) + c) by (split; exact H0).
  revert Hacc. generalize (p0, p0) (p0', p0').
  induction Hall as [|p' p ps' ps Hp Hall IH]; intros acc acc' [Hf Hs].
  - split; assumption.
  - cbn [fold_left]. apply IH. apply extentStep_shift; assumption.
Qed.

(** Two sprites that differ only in their position have bounds that
    differ by the same translation. *)
Lemma bounds_of_translated (s s' : sf.Sprite) (cx cy : Q) :
  sf.texRect s' = sf.texRect s ->
  sf.origin s' = sf.origin s ->
  sf.scale s' = sf.scale s ->
  sf.x (sf.position s') == sf.x (sf.position s) + cx ->
  sf.y (sf.position s') == sf.y (sf.position s) + cy ->
  sf.left (sf.getGlobalBounds s') == sf.left (sf.getGlobalBounds s) + cx
  /\ sf.top (sf.getGlobalBounds s') == sf.top (sf.getGlobalBounds s) + cy
  /\ sf.width (sf.getGlobalBounds s') == sf.width (sf.getGlobalBounds s)
  /\ sf.height (sf.getGlobalBounds s') == sf.height (sf.getGlobalBounds s).
Proof.
  intros Ht Ho Hs Hx Hy.
  unfold sf.getGlobalBounds, sf.transformRect, sf.getLocalBounds.
  rewrite Ht, Ho, Hs. cbn [sf.left sf.top sf.width sf.height].
  match goal with
  | |- context [fst (sf.extent ?a' ?l') == fst (sf.extent ?a ?l) + cx] =>
      destruct (extent_shift cx a a' l l') as [Hxl Hxr];
      [ lra | repeat constructor; lra | ]
  end.
  match goal with
  | |- context [fst (sf.extent ?a' ?l') == fst (sf.extent ?a ?l) + cy] =>
      destruct (extent_shift cy a a' l l') as [Hyl Hyr];
      [ lra | repeat constructor; lra | ]
  end.
  repeat split; lra.
Qed.

Lemma bounds_of_move (dx dy : Q) (s : sf.Sprite) :
  sf.left (sf.getGlobalBounds (sf.move dx dy s))
    == sf.left (sf.getGlobalBounds s) + dx
  /\ sf.top (sf.getGlobalBounds (sf.move dx dy s))
    == sf.top (sf.getGlobalBounds s) + dy
  /\ sf.width (sf.getGlobalBounds (sf.move dx dy s))
    == sf.width (sf.getGlobalBounds s)
  /\ sf.height (sf.getGlobalBounds (sf.move dx dy s))
    == sf.height (sf.getGlobalBounds s).
Proof. apply bounds_of_translated; cbn; reflexivity. Qed.

Lemma width_of_setPosition (p : sf.Vector2f) (s : sf.Sprite) :
  sf.width (sf.getGlobalBounds (sf.setPosition p s))
    == sf.width (sf.getGlobalBounds s).
Proof.
  apply (bounds_of_translated s (sf.setPosition p s)
           (sf.x p - sf.x (sf.position s)) (sf.y p - sf.y (sf.position s)));
    cbn; try reflexivity; lra.
Qed.

(** ** The player *)

(** C7.  [ECE_Buzzy::update] moves the player horizontally only: whatever
    the keys, [dt] and [windowWidth], the updated player is the old one
    with a new x coordinate; the y coordinate, the scale, the origin, the
    texture rectangle and the speed are those of before. *)
Theorem buzzy_update_horizontal_only
    (leftPressed rightPressed : bool) (dt windowWidth : Q) (b : ECE_Buzzy.t) :
  let b' := ECE_Buzzy.update leftPressed rightPressed dt windowWidth b in
  b' = ECE_Buzzy.setPosition
         (sf.mkVector2f (sf.x (ECE_Buzzy.getPosition b'))
                        (sf.y (ECE_Buzzy.getPosition b))) b
  /\ sf.y (ECE_Buzzy.getPosition b') = sf.y (ECE_Buzzy.getPosition b)
  /\ sf.scale (ECE_Buzzy.sprite b') = sf.scale (ECE_Buzzy.sprite b)
  /\ sf.origin (ECE_Buzzy.sprite b') = sf.origin (ECE_Buzzy.sprite b)
  /\ sf.texRect (ECE_Buzzy.sprite b') = sf.texRect (ECE_Buzzy.sprite b)
  /\ ECE_Buzzy.m_speed b' = ECE_Buzzy.m_speed b.
Proof.
  cbv zeta. unfold ECE_Buzzy.update, ECE_Buzzy.setPosition, sf.setPosition.
  cbn. repeat split; reflexivity.
Qed.

(** C9.  The player stays inside the window horizontally: when the
    sprite's global width is at most [windowWidth], after
    [ECE_Buzzy::update] the x position lies between half the global width
    and [windowWidth] minus half the global width, whatever the keys and
    [dt]; the global width itself is not changed by the update. *)
Theorem buzzy_update_stays_in_window
    (leftPressed rightPressed : bool) (dt windowWidth : Q) (b : ECE_Buzzy.t) :
  sf.width (ECE_Buzzy.getGlobalBounds b) <= windowWidth ->
  let b' := ECE_Buzzy.update leftPressed rightPressed dt windowWidth b in
  let globalWidth := sf.width (ECE_Buzzy.getGlobalBounds b') in
  globalWidth == sf.width (ECE_Buzzy.getGlobalBounds b)
  /\ globalWidth / 2 <= sf.x (ECE_Buzzy.getPosition b')
  /\ sf.x (ECE_Buzzy.getPosition b') <= windowWidth - globalWidth / 2.
Proof.
  intros Hfit b' globalWidth.
  assert (Hw : globalWidth == sf.width (ECE_Buzzy.getGlobalBounds b)).
  { unfold globalWidth, b', ECE_Buzzy.update, ECE_Buzzy.getGlobalBounds.
    cbn [ECE_Buzzy.setPosition ECE_Buzzy.sprite].
    apply width_of_setPosition. }
  split; [exact Hw|].
  assert (Hx : sf.x (ECE_Buzzy.getPosition b')
               = std_clamp
                   (sf.x (ECE_Buzzy.getPosition b)
                    + (let dx := 0 in
                       let dx := if leftPressed
                                 then dx - ECE_Buzzy.m_speed b * dt else dx in
                       if rightPressed
                       then dx + ECE_Buzzy.m_speed b * dt else dx))
                   (sf.width (ECE_Buzzy.getGlobalBounds b) / 2)
                   (windowWidth - sf.width (ECE_Buzzy.getGlobalBounds b) / 2))
    by reflexivity.
  rewrite Hx. clear Hx. qhalf.
  match goal with
  | |- context [std_clamp ?v ?lo ?hi] =>
      destruct (std_clamp_bounds v lo hi) as [Hlo Hhi]; [lra|];
      set (c := std_clamp v lo hi) in *; clearbody c
  end.
  split; lra.
Qed.

Lemma buzzy_update_stays_in_window_witness :
  let b' := ECE_Buzzy.update false true 10 1920 demoBuzzy in
  let globalWidth := sf.width (ECE_Buzzy.getGlobalBounds b') in
  globalWidth == sf.width (ECE_Buzzy.getGlobalBounds demoBuzzy)
  /\ globalWidth / 2 <= sf.x (ECE_Buzzy.getPosition b')
  /\ sf.x (ECE_Buzzy.getPosition b') <= 1920 - globalWidth / 2.
Proof.
  apply (buzzy_update_stays_in_window false true 10 1920 demoBuzzy).
  vm_compute. discriminate.
Defined.

(** ** Player shots *)

Lemma handleEvents_appends (events : list sf.Event) :
  forall (w : sf.RenderWindow) (b : ECE_Buzzy.t)
         (shots : list ECE_LaserBlast.t) (tex : sf.Texture),
  exists n : nat,
    snd (handleEvents w b shots tex events)
    = shots ++ repeat (newPlayerShot b tex) n.
Proof.
  induction events as [|e rest IH]; intros w b shots tex.
  - exists 0%nat. cbn. now rewrite app_nil_r.
  - cbn [handleEvents]. destruct (negb (sf.isOpen w)).
    + exists 0%nat. cbn. now rewrite app_nil_r.
    + destruct e as [|[]|rw rh|];
        try (match goal with
             | |- context [handleEvents ?w' b shots tex rest] =>
                 destruct (IH w' b shots tex) as [n Hn]; exists n; exact Hn
             end).
      match goal with
      | |- context [handleEvents ?w' b ?shots' tex rest] =>
          destruct (IH w' b shots' tex) as [n Hn]
      end.
      exists (S n). rewrite Hn, <- app_assoc. reflexivity.
Qed.

Lemma updates_keep_velocity (dts : list Q) :
  forall l : ECE_LaserBlast.t,
    ECE_LaserBlast.getVelocity
      (fold_left (fun l d => ECE_LaserBlast.update d l) dts l)
    = ECE_LaserBlast.getVelocity l.
Proof.
  induction dts as [|d dts IH]; intros l; [reflexivity|].
  cbn [fold_left]. rewrite IH. reflexivity.
Qed.

(** C4, as the code has it.  Player shots move downward: the shots that
    [handleEvents] appends, one per Space press it handles, all carry the
    velocity (0, 400), whose y component is positive (toward the bottom of
    the screen); so, after any number of earlier updates, an [update(dt)]
    with [dt > 0] strictly increases the shot's y coordinate, by
    [400 * dt]. *)
Theorem player_shots_move_down
    (w : sf.RenderWindow) (b : ECE_Buzzy.t) (shots : list ECE_LaserBlast.t)
    (tex : sf.Texture) (events : list sf.Event) (dts : list Q) (dt : Q) :
  0 < dt ->
  let fired := newPlayerShot b tex in
  let shot := fold_left (fun l d => ECE_LaserBlast.update d l) dts fired in
  (exists n : nat,
      snd (handleEvents w b shots tex events) = shots ++ repeat fired n)
  /\ ECE_LaserBlast.getVelocity fired = sf.mkVector2f 0 400
  /\ sf.y (ECE_LaserBlast.getPosition (ECE_LaserBlast.update dt shot))
     = sf.y (ECE_LaserBlast.getPosition shot) + 400 * dt
  /\ sf.y (ECE_LaserBlast.getPosition shot)
     < sf.y (ECE_LaserBlast.getPosition (ECE_LaserBlast.update dt shot)).
Proof.
  intros Hdt fired shot.
  assert (Hv : ECE_LaserBlast.getVelocity shot = sf.mkVector2f 0 400)
    by (unfold shot; rewrite updates_keep_velocity; reflexivity).
  assert (Hy : sf.y (ECE_LaserBlast.getPosition (ECE_LaserBlast.update dt shot))
               = sf.y (ECE_LaserBlast.getPosition shot) + 400 * dt).
  { unfold ECE_LaserBlast.getVelocity in Hv.
    unfold ECE_LaserBlast.update, ECE_LaserBlast.getPosition. cbn.
    rewrite Hv. reflexivity. }
  split; [apply handleEvents_appends|].
  split; [reflexivity|].
  split; [exact Hy|].
  rewrite Hy. nra.
Qed.

Lemma player_shots_move_down_witness :
  let fired := newPlayerShot demoBuzzy demoTexture in
  let shot := fold_left (fun l d => ECE_LaserBlast.update d l) [1 # 60] fired in
  (exists n : nat,
      snd (handleEvents demoWindow demoBuzzy [] demoTexture
             [sf.KeyPressed sf.Space])
      = [] ++ repeat fired n)
  /\ ECE_LaserBlast.getVelocity fired = sf.mkVector2f 0 400
  /\ sf.y (ECE_LaserBlast.getPosition (ECE_LaserBlast.update (1 # 60) shot))
     = sf.y (ECE_LaserBlast.getPosition shot) + 400 * (1 # 60)
  /\ sf.y (ECE_LaserBlast.getPosition shot)
     < sf.y (ECE_LaserBlast.getPosition (ECE_LaserBlast.update (1 # 60) shot)).
Proof.
  apply (player_shots_move_down demoWindow demoBuzzy [] demoTexture
           [sf.KeyPressed sf.Space] [1 # 60] (1 # 60)).
  reflexivity.
Defined.

(** C4, as the claim words it, fails: the shot spawned for a Space press
    has a velocity whose y component is not negative, and an update with
    [dt = 1] does not decrease its y coordinate. *)
Lemma player_shots_move_up_counterexample :
  exists shot : ECE_LaserBlast.t,
    snd (handleEvents demoWindow demoBuzzy [] demoTexture
           [sf.KeyPressed sf.Space]) = [shot]
    /\ ~ sf.y (ECE_LaserBlast.getVelocity shot) < 0
    /\ ~ sf.y (ECE_LaserBlast.getPosition (ECE_LaserBlast.update 1 shot))
         < sf.y (ECE_LaserBlast.getPosition shot).
Proof.
  exists (newPlayerShot demoBuzzy demoTexture).
  split; [reflexivity|].
  split; vm_compute; discriminate.
Qed.

(** ** The swarm *)

Lemma Forall2_lookup {A B : Type} (R : A -> B -> Prop) (l : list A) (l' : list B) :
  Forall2 R l l' ->
  forall (i : nat) (a : A), nth_error l i = Some a ->
    exists b : B, nth_error l' i = Some b /\ R a b.
Proof.
  induction 1 as [|a0 b0 l l' Hab Hall IH]; intros [|i] a Hi; cbn in *;
    try discriminate.
  - injection Hi as <-. eauto.
  - eauto.
Qed.

Lemma Forall2_compose {A : Type} (R : A -> A -> Prop) :
  (forall a b c, R a b -> R b c -> R a c) ->
  forall l1 l2 l3, Forall2 R l1 l2 -> Forall2 R l2 l3 -> Forall2 R l1 l3.
Proof.
  intros Htrans l1 l2 l3 H12. revert l3.
  induction H12; intros l3 H23; inversion H23; subst; constructor; eauto.
Qed.

Lemma nth_error_moveAlive (dx dy : Q) (enemies : list ECE_Enemy.t) (i : nat)
    (e : ECE_Enemy.t) :
  nth_error enemies i = Some e ->
  nth_error (moveAlive dx dy enemies) i
  = Some (if ECE_Enemy.isAlive e then ECE_Enemy.move dx dy e else e).
Proof.
  intros Hi. unfold moveAlive. rewrite nth_error_map, Hi. reflexivity.
Qed.

Lemma swarmEdges_some (enemies : list ECE_Enemy.t) :
  forall a : Q * Q, exists a' : Q * Q, swarmEdges enemies (Some a) = Some a'.
Proof.
  induction enemies as [|e rest IH]; intros a; cbn [swarmEdges]; eauto.
  destruct (negb (ECE_Enemy.isAlive e)); [apply IH|].
  destruct a as [l r]. apply IH.
Qed.

Lemma swarmEdges_none_iff (enemies : list ECE_Enemy.t) :
  swarmEdges enemies None = None
  <-> forall e, In e enemies -> ECE_Enemy.isAlive e = false.
Proof.
  induction enemies as [|e rest IH]; cbn [swarmEdges].
  - split; [intros _ e []|reflexivity].
  - destruct (ECE_Enemy.isAlive e) eqn:Halive; cbn [negb].
    + split.
      * intros H.
        match type of H with
        | swarmEdges rest (Some ?a) = None =>
            destruct (swarmEdges_some rest a) as [a' Ha']
        end.
        congruence.
      * intros H. specialize (H e (or_introl eq_refl)). congruence.
    + rewrite IH. split.
      * intros H e' [<-|Hin]; auto.
      * intros H e' Hin. apply H. now right.
Qed.

Lemma swarmEdges_shift (c dy : Q) (enemies : list ECE_Enemy.t) :
  forall a a' : option (Q * Q),
    shiftedEdges c a a' ->
    shiftedEdges c (swarmEdges enemies a)
                   (swarmEdges (moveAlive c dy enemies) a').
Proof.
  induction enemies as [|e rest IH]; intros a a' Ha; [exact Ha|].
  cbn [moveAlive map swarmEdges]. fold (moveAlive c dy rest).
  destruct (ECE_Enemy.isAlive e) eqn:Halive.
  - assert (Hmoved : ECE_Enemy.isAlive (ECE_Enemy.move c dy e) = true)
      by exact Halive.
    rewrite Hmoved. cbn [negb]. apply IH.
    destruct (bounds_of_move c dy (ECE_Enemy.sprite e))
      as (Hl & _ & Hw & _).
    unfold ECE_Enemy.getGlobalBounds, ECE_Enemy.move.
    cbn [ECE_Enemy.sprite].
    set (gb' := sf.getGlobalBounds (sf.move c dy (ECE_Enemy.sprite e))) in *.
    set (gb := sf.getGlobalBounds (ECE_Enemy.sprite e)) in *.
    clearbody gb gb'.
    destruct a as [[l r]|], a' as [[l' r']|]; cbn [shiftedEdges] in Ha |- *;
      try contradiction.
    + destruct Ha as [Hal Har]. unfold std_min, std_max.
      qcases; split; lra.
    + split; lra.
  - rewrite Halive. cbn [negb]. apply IH, Ha.
Qed.

(** [swarmEdges] returns a lower bound of the left edges and an upper
    bound of the right edges of the alive enemies (and of the running
    pair), and the tightest ones. *)
Lemma swarmEdges_bounds (enemies : list ECE_Enemy.t) :
  forall (acc : option (Q * Q)) (l r : Q),
    swarmEdges enemies acc = Some (l, r) ->
    (forall e, In e enemies -> ECE_Enemy.isAlive e = true ->
       l <= sf.left (ECE_Enemy.getGlobalBounds e)
       /\ sf.left (ECE_Enemy.getGlobalBounds e)
          + sf.width (ECE_Enemy.getGlobalBounds e) <= r)
    /\ (forall lo hi,
          (forall e, In e enemies -> ECE_Enemy.isAlive e = true ->
             lo <= sf.left (ECE_Enemy.getGlobalBounds e)
             /\ sf.left (ECE_Enemy.getGlobalBounds e)
                + sf.width (ECE_Enemy.getGlobalBounds e) <= hi) ->
          match acc with
          | Some (l0, r0) => lo <= l0 /\ r0 <= hi
          | None => True
          end ->
          lo <= l /\ r <= hi)
    /\ match acc with
       | Some (l0, r0) => l <= l0 /\ r0 <= r
       | None => True
       end.
Proof.
  induction enemies as [|e rest IH]; intros acc l r Hedges;
    cbn [swarmEdges] in Hedges.
  - subst acc. split; [intros e []|].
    split; [intros lo hi _ Hlohi; exact Hlohi|]. split; lra.
  - destruct (ECE_Enemy.isAlive e) eqn:Ha; cbn [negb] in Hedges.
    + cbv zeta in Hedges. apply IH in Hedges as (Hin & Htight & Hacc).
      set (gb := ECE_Enemy.getGlobalBounds e) in *.
      assert (He : l <= sf.left gb /\ sf.left gb + sf.width gb <= r
                   /\ match acc with
                      | Some (l0, r0) => l <= l0 /\ r0 <= r
                      | None => True
                      end).
      { destruct acc as [[l0 r0]|]; cbn beta iota in Hacc.
        - destruct (std_min_spec l0 (sf.left gb)) as (H1 & H2 & _).
          destruct (std_max_spec r0 (sf.left gb + sf.width gb)) as (H3 & H4 & _).
          repeat split; lra.
        - repeat split; lra. }
      destruct He as (Hel & Her & Hacc').
      split; [|split; [|exact Hacc']].
      * intros e' [<-|Hin'] Ha'; [split; assumption|auto].
      * intros lo hi Hall Hlohi. apply Htight.
        -- intros e' Hin' Ha'. apply Hall; [now right|exact Ha'].
        -- destruct (Hall e (or_introl eq_refl) Ha) as [Hlo Hhi].
           fold gb in Hlo, Hhi.
           destruct acc as [[l0 r0]|].
           ++ destruct (std_min_spec l0 (sf.left gb)) as (_ & _ & [-> | ->]);
                destruct (std_max_spec r0 (sf.left gb + sf.width gb))
                  as (_ & _ & [-> | ->]);
                split; lra.
           ++ split; assumption.
    + apply IH in Hedges as (Hin & Htight & Hacc).
      split; [|split; [|exact Hacc]].
      * intros e' [<-|Hin'] Ha'; [congruence|auto].
      * intros lo hi Hall Hlohi. apply Htight; [|exact Hlohi].
        intros e' Hin' Ha'. apply Hall; [now right|exact Ha'].
Qed.

(** The edges [swarmEdges] returns are edges of alive enemies (or those
    of the running pair). *)
Lemma swarmEdges_attained (enemies : list ECE_Enemy.t) :
  forall (acc : option (Q * Q)) (l r : Q),
    swarmEdges enemies acc = Some (l, r) ->
    ((exists e, In e enemies /\ ECE_Enemy.isAlive e = true
                /\ sf.left (ECE_Enemy.getGlobalBounds e) = l)
     \/ exists r0, acc = Some (l, r0))
    /\ ((exists e, In e enemies /\ ECE_Enemy.isAlive e = true
                   /\ sf.left (ECE_Enemy.getGlobalBounds e)
                      + sf.width (ECE_Enemy.getGlobalBounds e) = r)
        \/ exists l0, acc = Some (l0, r)).
Proof.
  induction enemies as [|e rest IH]; intros acc l r Hedges;
    cbn [swarmEdges] in Hedges.
  - subst acc. split; right; eauto.
  - destruct (ECE_Enemy.isAlive e) eqn:Ha; cbn [negb] in Hedges.
    + cbv zeta in Hedges. apply IH in Hedges as [Hl Hr].
      set (gl := sf.left (ECE_Enemy.getGlobalBounds e)) in *.
      set (gr := gl + sf.width (ECE_Enemy.getGlobalBounds e)) in *.
      assert (Hhere : exists e', In e' (e :: rest)
                                 /\ ECE_Enemy.isAlive e' = true
                                 /\ sf.left (ECE_Enemy.getGlobalBounds e') = gl)
        by (exists e; auto using in_eq).
      assert (Hhere' : exists e', In e' (e :: rest)
                                  /\ ECE_Enemy.isAlive e' = true
                                  /\ sf.left (ECE_Enemy.getGlobalBounds e')
                                     + sf.width (ECE_Enemy.getGlobalBounds e')
                                     = gr)
        by (exists e; auto using in_eq).
      clearbody gl gr. split.
      * destruct Hl as [(e' & Hin & Ha' & He')|[r0 Hacc]].
        -- left. exists e'. auto using in_cons.
        -- destruct acc as [[l0 r1]|].
           ++ assert (Hl0 : std_min l0 gl = l) by congruence.
              destruct (std_min_spec l0 gl) as (_ & _ & [Hm|Hm]);
                rewrite Hm in Hl0; subst l; [right; eauto|left; exact Hhere].
           ++ assert (Hl0 : gl = l) by congruence. subst l. left. exact Hhere.
      * destruct Hr as [(e' & Hin & Ha' & He')|[l0 Hacc]].
        -- left. exists e'. auto using in_cons.
        -- destruct acc as [[l1 r0]|].
           ++ assert (Hr0 : std_max r0 gr = r) by congruence.
              destruct (std_max_spec r0 gr) as (_ & _ & [Hm|Hm]);
                rewrite Hm in Hr0; subst r; [right; eauto|left; exact Hhere'].
           ++ assert (Hr0 : gr = r) by congruence. subst r. left. exact Hhere'.
    + apply IH in Hedges as [Hl Hr]. split.
      * destruct Hl as [(e' & Hin & Ha' & He')|Hacc]; [left|right; exact Hacc].
        exists e'. auto using in_cons.
      * destruct Hr as [(e' & Hin & Ha' & He')|Hacc]; [left|right; exact Hacc].
        exists e'. auto using in_cons.
Qed.

Lemma int_mul_flips (dir : Z) :
  (- 2 ^ 31 < dir < 2 ^ 31)%Z -> int_mul dir (-1) = (- dir)%Z.
Proof.
  intros Hdir. unfold int_mul, wrap_int.
  rewrite Z.mod_small; lia.
Qed.

(** C3.  The swarm-movement rule of [updateEnemies], for a direction
    [dir] that [int] can negate.  With no alive enemy (an empty vector
    included) nothing changes.  Otherwise, with [minLeft] and [maxRight]
    the extreme edges of the alive enemies and
    [dx = enemySpeedX * dir * dt]: when the predicted edges stay inside
    [0, windowWidth], every alive enemy moves by [(dx, 0)] and [dir] is
    kept; when [minLeft + dx < 0] every alive enemy moves by
    [(-minLeft, stepUp)], which puts the swarm's left edge on 0, and
    [dir] is negated; when only [maxRight + dx > windowWidth] every alive
    enemy moves by [(windowWidth - maxRight, stepUp)], which puts the
    swarm's right edge on [windowWidth], and [dir] is negated.  Moving
    the alive enemies by [(cx, cy)] adds [(cx, cy)] to the position of
    each alive enemy and leaves the dead ones as they are.  The edges
    are the extreme ones: [minLeft] is the left edge of some alive enemy
    and no alive enemy's left edge is smaller; [maxRight] is the right
    edge of some alive enemy and no alive enemy's right edge is larger. *)
Theorem updateEnemies_rule
    (enemies : list ECE_Enemy.t) (dt windowWidth enemySpeedX : Q) (dir : Z)
    (stepUp : Q) :
  (- 2 ^ 31 < dir < 2 ^ 31)%Z ->
  let dx := enemySpeedX * to_float dir * dt in
  let result := updateEnemies enemies dt windowWidth enemySpeedX dir stepUp in
  ((forall e, In e enemies -> ECE_Enemy.isAlive e = false) ->
   result = (enemies, dir))
  /\ ((exists e, In e enemies /\ ECE_Enemy.isAlive e = true) ->
      exists minLeft maxRight,
        swarmEdges enemies None = Some (minLeft, maxRight))
  /\ (forall minLeft maxRight,
        swarmEdges enemies None = Some (minLeft, maxRight) ->
        (0 <= minLeft + dx -> maxRight + dx <= windowWidth ->
         result = (moveAlive dx 0 enemies, dir))
        /\ (minLeft + dx < 0 ->
            result = (moveAlive (- minLeft) stepUp enemies, (- dir)%Z)
            /\ exists l r,
                swarmEdges (fst result) None = Some (l, r) /\ l == 0)
        /\ (0 <= minLeft + dx -> windowWidth < maxRight + dx ->
            result = (moveAlive (windowWidth - maxRight) stepUp enemies,
                      (- dir)%Z)
            /\ exists l r,
                swarmEdges (fst result) None = Some (l, r)
                /\ r == windowWidth))
  /\ (forall cx cy i e,
        nth_error enemies i = Some e ->
        exists e',
          nth_error (moveAlive cx cy enemies) i = Some e'
          /\ ECE_Enemy.isAlive e' = ECE_Enemy.isAlive e
          /\ (ECE_Enemy.isAlive e = false -> e' = e)
          /\ (ECE_Enemy.isAlive e = true ->
              ECE_Enemy.getPosition e'
              = sf.mkVector2f (sf.x (ECE_Enemy.getPosition e) + cx)
                              (sf.y (ECE_Enemy.getPosition e) + cy)))
  /\ (forall minLeft maxRight,
        swarmEdges enemies None = Some (minLeft, maxRight) ->
        (forall e, In e enemies -> ECE_Enemy.isAlive e = true ->
           minLeft <= sf.left (ECE_Enemy.getGlobalBounds e)
           /\ sf.left (ECE_Enemy.getGlobalBounds e)
              + sf.width (ECE_Enemy.getGlobalBounds e) <= maxRight)
        /\ (exists e, In e enemies /\ ECE_Enemy.isAlive e = true
                      /\ sf.left (ECE_Enemy.getGlobalBounds e) = minLeft)
        /\ (exists e, In e enemies /\ ECE_Enemy.isAlive e = true
                      /\ sf.left (ECE_Enemy.getGlobalBounds e)
                         + sf.width (ECE_Enemy.getGlobalBounds e) = maxRight)).
Proof.
  intros Hdir dx result.
  split; [|split; [|split; [|split]]].
  - intros Hdead. unfold result, updateEnemies.
    destruct enemies as [|e0 rest]; [reflexivity|].
    apply swarmEdges_none_iff in Hdead. rewrite Hdead. reflexivity.
  - intros (e & Hin & Halive).
    destruct (swarmEdges enemies None) as [[l r]|] eqn:Hedges; eauto.
    rewrite swarmEdges_none_iff in Hedges.
    specialize (Hedges e Hin). congruence.
  - intros minLeft maxRight Hedges.
    assert (Hne : enemies <> []) by (intros ->; discriminate).
    assert (Hres : result
                   = if Qltb (minLeft + dx) 0 || Qltb windowWidth (maxRight + dx)
                     then (moveAlive (if Qltb (minLeft + dx) 0 then - minLeft
                                      else windowWidth - maxRight)
                                     stepUp enemies, int_mul dir (-1))
                     else (moveAlive dx 0 enemies, dir)).
    { unfold result, updateEnemies. destruct enemies; [congruence|].
      rewrite Hedges. reflexivity. }
    rewrite int_mul_flips in Hres by exact Hdir.
    assert (Hshift : forall c,
               shiftedEdges c (Some (minLeft, maxRight))
                 (swarmEdges (moveAlive c stepUp enemies) None)).
    { intros c. rewrite <- Hedges. apply swarmEdges_shift. exact I. }
    split; [|split].
    + intros Hl Hr. rewrite Hres.
      apply Qltb_ge in Hl. apply Qltb_ge in Hr. rewrite Hl, Hr. reflexivity.
    + intros Hl. apply Qltb_lt in Hl. rewrite Hl in Hres. cbn in Hres.
      split; [exact Hres|]. rewrite Hres. cbn [fst].
      specialize (Hshift (- minLeft)).
      destruct (swarmEdges (moveAlive (- minLeft) stepUp enemies) None)
        as [[l r]|]; cbn in Hshift; [|contradiction].
      exists l, r. split; [reflexivity|]. lra.
    + intros Hl Hr. apply Qltb_ge in Hl. apply Qltb_lt in Hr.
      rewrite Hl, Hr in Hres. cbn in Hres.
      split; [exact Hres|]. rewrite Hres. cbn [fst].
      specialize (Hshift (windowWidth - maxRight)).
      destruct (swarmEdges (moveAlive (windowWidth - maxRight) stepUp enemies)
                           None)
        as [[l r]|]; cbn in Hshift; [|contradiction].
      exists l, r. split; [reflexivity|]. lra.
  - intros cx cy i e Hi. rewrite (nth_error_moveAlive cx cy enemies i e Hi).
    eexists. split; [reflexivity|].
    destruct (ECE_Enemy.isAlive e) eqn:Halive.
    + repeat split; try reflexivity; try assumption. discriminate.
    + repeat split; try reflexivity; try assumption. discriminate.
  - intros minLeft maxRight Hedges.
    destruct (swarmEdges_bounds enemies None minLeft maxRight Hedges)
      as (Hbounds & _ & _).
    destruct (swarmEdges_attained enemies None minLeft maxRight Hedges)
      as [[Hl|[r0 Hl]] [Hr|[l0 Hr]]]; try discriminate.
    split; [exact Hbounds|]. split; assumption.
Qed.

Lemma updateEnemies_rule_witness :
  (- 2 ^ 31 < 1 < 2 ^ 31)%Z
  /\ (let enemies := enemies (initRound demoWindow demoTextures) in
      let dx := 300 * to_float 1 * (1 # 60) in
      let result := updateEnemies enemies (1 # 60) 1920 300 1 (-20) in
      ((forall e, In e enemies -> ECE_Enemy.isAlive e = false) ->
       result = (enemies, 1%Z))
      /\ ((exists e, In e enemies /\ ECE_Enemy.isAlive e = true) ->
          exists minLeft maxRight,
            swarmEdges enemies None = Some (minLeft, maxRight))
      /\ (forall minLeft maxRight,
            swarmEdges enemies None = Some (minLeft, maxRight) ->
            (0 <= minLeft + dx -> maxRight + dx <= 1920 ->
             result = (moveAlive dx 0 enemies, 1%Z))
            /\ (minLeft + dx < 0 ->
                result = (moveAlive (- minLeft) (-20) enemies, (- (1))%Z)
                /\ exists l r,
                    swarmEdges (fst result) None = Some (l, r) /\ l == 0)
            /\ (0 <= minLeft + dx -> 1920 < maxRight + dx ->
                result = (moveAlive (1920 - maxRight) (-20) enemies,
                          (- (1))%Z)
                /\ exists l r,
                    swarmEdges (fst result) None = Some (l, r)
                    /\ r == 1920))
      /\ (forall cx cy i e,
            nth_error enemies i = Some e ->
            exists e',
              nth_error (moveAlive cx cy enemies) i = Some e'
              /\ ECE_Enemy.isAlive e' = ECE_Enemy.isAlive e
              /\ (ECE_Enemy.isAlive e = false -> e' = e)
              /\ (ECE_Enemy.isAlive e = true ->
                  ECE_Enemy.getPosition e'
                  = sf.mkVector2f (sf.x (ECE_Enemy.getPosition e) + cx)
                                  (sf.y (ECE_Enemy.getPosition e) + cy)))
      /\ (forall minLeft maxRight,
            swarmEdges enemies None = Some (minLeft, maxRight) ->
            (forall e, In e enemies -> ECE_Enemy.isAlive e = true ->
               minLeft <= sf.left (ECE_Enemy.getGlobalBounds e)
               /\ sf.left (ECE_Enemy.getGlobalBounds e)
                  + sf.width (ECE_Enemy.getGlobalBounds e) <= maxRight)
            /\ (exists e, In e enemies /\ ECE_Enemy.isAlive e = true
                          /\ sf.left (ECE_Enemy.getGlobalBounds e) = minLeft)
            /\ (exists e, In e enemies /\ ECE_Enemy.isAlive e = true
                          /\ sf.left (ECE_Enemy.getGlobalBounds e)
                             + sf.width (ECE_Enemy.getGlobalBounds e)
                             = maxRight))).
Proof.
  split; [lia|].
  apply (updateEnemies_rule (enemies (initRound demoWindow demoTextures))
           (1 # 60) 1920 300 1 (-20)).
  lia.
Defined.

(** ** Enemies along a round *)

Lemma enemyLater_refl (step : Q) (e : ECE_Enemy.t) : enemyLater step e e.
Proof. repeat split; auto. intros _. apply Qle_refl. Qed.

Lemma enemyLater_trans (step : Q) (a b c : ECE_Enemy.t) :
  enemyLater step a b -> enemyLater step b c -> enemyLater step a c.
Proof.
  intros (Hd1 & Ha1 & Hy1) (Hd2 & Ha2 & Hy2). repeat split.
  - intros Hdead. specialize (Hd1 Hdead). subst b. auto.
  - auto.
  - intros Hstep. eapply Qle_trans; eauto.
Qed.

Lemma moveAlive_enemyLater (step cx cy : Q) (enemies : list ECE_Enemy.t) :
  (step <= 0 -> cy <= 0) ->
  Forall2 (enemyLater step) enemies (moveAlive cx cy enemies).
Proof.
  intros Hcy. induction enemies as [|e rest IH]; cbn; constructor; [|exact IH].
  destruct (ECE_Enemy.isAlive e) eqn:Halive; [|apply enemyLater_refl].
  split; [congruence|]. split; [intros _; exact Halive|].
  intros Hstep. specialize (Hcy Hstep).
  change (sf.y (ECE_Enemy.getPosition e) + cy <= sf.y (ECE_Enemy.getPosition e)).
  lra.
Qed.

Lemma Forall2_enemyLater_refl (step : Q) (enemies : list ECE_Enemy.t) :
  Forall2 (enemyLater step) enemies enemies.
Proof. induction enemies; constructor; auto using enemyLater_refl. Qed.

Lemma updateEnemies_enemyLater
    (enemies : list ECE_Enemy.t) (dt windowWidth enemySpeedX : Q) (dir : Z)
    (stepUp : Q) :
  Forall2 (enemyLater stepUp) enemies
    (fst (updateEnemies enemies dt windowWidth enemySpeedX dir stepUp)).
Proof.
  unfold updateEnemies.
  destruct enemies as [|e0 rest]; [constructor|].
  destruct (swarmEdges (e0 :: rest) None) as [[l r]|];
    [|apply Forall2_enemyLater_refl].
  match goal with |- context [if ?c then _ else _] => destruct c end;
    cbn [fst]; apply moveAlive_enemyLater; intros; lra.
Qed.

Lemma updateEnemies_bounce
    (enemies : list ECE_Enemy.t) (dt windowWidth enemySpeedX : Q) (dir : Z)
    (stepUp minLeft maxRight : Q) :
  swarmEdges enemies None = Some (minLeft, maxRight) ->
  minLeft + enemySpeedX * to_float dir * dt < 0
  \/ windowWidth < maxRight + enemySpeedX * to_float dir * dt ->
  exists correctionX,
    updateEnemies enemies dt windowWidth enemySpeedX dir stepUp
    = (moveAlive correctionX stepUp enemies, int_mul dir (-1)).
Proof.
  intros Hedges Hwall. unfold updateEnemies.
  destruct enemies as [|e0 rest]; [discriminate|].
  rewrite Hedges.
  assert (Hcond : Qltb (minLeft + enemySpeedX * to_float dir * dt) 0
                  || Qltb windowWidth
                          (maxRight + enemySpeedX * to_float dir * dt) = true).
  { apply Bool.orb_true_iff. rewrite !Qltb_lt. exact Hwall. }
  rewrite Hcond. eauto.
Qed.

Lemma sameOrKilled_enemyLater (step : Q) (e e' : ECE_Enemy.t) :
  sameOrKilled e e' -> enemyLater step e e'.
Proof.
  intros [->|[Halive ->]]; [apply enemyLater_refl|].
  repeat split; try congruence. intros _. apply Qle_refl.
Qed.

Lemma sameOrKilled_trans (a b c : ECE_Enemy.t) :
  sameOrKilled a b -> sameOrKilled b c -> sameOrKilled a c.
Proof.
  intros [->|[Ha ->]] [->|[Hb ->]]; unfold sameOrKilled; auto.
Qed.

Lemma Forall2_sameOrKilled_refl (enemies : list ECE_Enemy.t) :
  Forall2 sameOrKilled enemies enemies.
Proof. induction enemies; constructor; auto. now left. Qed.

Lemma hitEnemy_sameOrKilled (bounds : sf.FloatRect) (enemies : list ECE_Enemy.t) :
  forall enemies', hitEnemy bounds enemies = Some enemies' ->
                   Forall2 sameOrKilled enemies enemies'.
Proof.
  induction enemies as [|e rest IH]; intros enemies' Hhit; cbn in Hhit;
    [discriminate|].
  destruct (ECE_Enemy.isAlive e
            && sf.intersects bounds (ECE_Enemy.getGlobalBounds e)) eqn:Hc.
  - injection Hhit as <-. apply Bool.andb_true_iff in Hc as [Halive _].
    constructor; [now right|apply Forall2_sameOrKilled_refl].
  - destruct (hitEnemy bounds rest) as [rest'|]; [|discriminate].
    injection Hhit as <-. constructor; [now left|auto].
Qed.

Lemma checkPlayerShotCollisions_sameOrKilled (shots : list ECE_LaserBlast.t) :
  forall enemies,
    Forall2 sameOrKilled enemies
            (snd (checkPlayerShotCollisions shots enemies)).
Proof.
  induction shots as [|shot rest IH]; intros enemies; cbn.
  - apply Forall2_sameOrKilled_refl.
  - destruct (hitEnemy (ECE_LaserBlast.getGlobalBounds shot) enemies)
      as [enemies'|] eqn:Hhit.
    + eapply Forall2_compose; [apply sameOrKilled_trans| |apply IH].
      eapply hitEnemy_sameOrKilled; eauto.
    + specialize (IH enemies).
      destruct (checkPlayerShotCollisions rest enemies). exact IH.
Qed.

Lemma frameUpdate_enemies (tex : allTextures) (s : Round) (f : FrameInput) :
  exists shots windowWidth,
    enemies (frameUpdate tex s f)
    = snd (checkPlayerShotCollisions shots
             (fst (updateEnemies (enemies s) (dt f) windowWidth
                     (enemySpeedX s) (dir s) (stepUp s))))
    /\ stepUp (frameUpdate tex s f) = stepUp s.
Proof.
  unfold frameUpdate.
  destruct (handleEvents _ _ _ _ _) as [w1 shots1].
  destruct (updateShots _ _ _ _) as [shots2 eshots2].
  exists shots2, (to_float (sf.ux (sf.getSize w1))).
  destruct (updateEnemies _ _ _ _ _ _) as [es1 dir1].
  destruct (checkPlayerShotCollisions _ _) as [shots3 es2].
  split; reflexivity.
Qed.

Lemma frameUpdate_enemyLater (tex : allTextures) (s : Round) (f : FrameInput) :
  Forall2 (enemyLater (stepUp s)) (enemies s) (enemies (frameUpdate tex s f))
  /\ stepUp (frameUpdate tex s f) = stepUp s.
Proof.
  destruct (frameUpdate_enemies tex s f) as (shots & W & -> & Hstep).
  split; [|exact Hstep].
  eapply Forall2_compose;
    [apply enemyLater_trans | apply updateEnemies_enemyLater |].
  eapply Forall2_impl; [|apply checkPlayerShotCollisions_sameOrKilled].
  intros a b. apply sameOrKilled_enemyLater.
Qed.

(** The state a pass of the main loop ends in. *)
Lemma frameChecks_state (bg : sf.Sprite) (s : Round) :
  exists (s' : Round),
    (frameChecks bg s = LoseScreen s' \/ frameChecks bg s = WinScreen s'
     \/ frameChecks bg s
        = NextFrame s' (drawScene bg (buzzy s') (enemies s') (playerShots s')
                                  (enemyShots s')))
    /\ enemies s' = enemies s /\ stepUp s' = stepUp s
    /\ enemyShots s' = snd (checkEnemyShotCollisions (enemyShots s) (buzzy s)).
Proof.
  unfold frameChecks.
  destruct (checkEnemyShotCollisions (enemyShots s) (buzzy s)) as [hit shots'].
  match goal with
  | |- context [if ?c then LoseScreen ?x else _] =>
      exists x; destruct c; [auto|]
  end.
  cbn [enemies]. destruct (checkWin (enemies s)); auto 6.
Qed.

Lemma roundStates_enemyLater (tex : allTextures) (bg : sf.Sprite)
    (frames : list FrameInput) :
  forall s s', In s' (roundStates tex bg s frames) ->
    Forall2 (enemyLater (stepUp s)) (enemies s) (enemies s')
    /\ stepUp s' = stepUp s.
Proof.
  induction frames as [|f rest IH]; intros s s' Hin; cbn [roundStates] in Hin.
  - destruct (negb (sf.isOpen (window s))); destruct Hin.
  - destruct (negb (sf.isOpen (window s))); [destruct Hin|].
    unfold frame in Hin.
    destruct (frameUpdate_enemyLater tex s f) as [Hall Hstep].
    destruct (frameChecks_state bg (frameUpdate tex s f))
      as (s1 & Hres & Hes & Hst & _).
    rewrite <- Hes in Hall. rewrite <- Hst in Hstep.
    destruct Hres as [Hres|[Hres|Hres]]; rewrite Hres in Hin.
    + destruct Hin as [<-|[]]. auto.
    + destruct Hin as [<-|[]]. auto.
    + destruct Hin as [<-|Hin]; [auto|].
      destruct (IH s1 s' Hin) as [Hall' Hstep'].
      rewrite Hstep in Hall'. split; [|congruence].
      eapply Forall2_compose; [apply enemyLater_trans|exact Hall|exact Hall'].
Qed.

(** C5, as the code has it.  The enemy grid climbs: [playGame] runs the
    swarm with [stepUp = -20], so each time the swarm bounces off a window
    wall every alive enemy's y coordinate decreases by 20 (the grid steps
    upward, toward smaller y), and at the end of every pass of the main
    loop each enemy is at most as far down as it was: over the round the
    swarm's vertical position is non-increasing. *)
Theorem swarm_steps_upward
    (tex : allTextures) (bg : sf.Sprite) (s : Round) (frames : list FrameInput) :
  stepUp s = -20 ->
  (forall dt windowWidth minLeft maxRight,
      swarmEdges (enemies s) None = Some (minLeft, maxRight) ->
      minLeft + enemySpeedX s * to_float (dir s) * dt < 0
      \/ windowWidth < maxRight + enemySpeedX s * to_float (dir s) * dt ->
      forall i e,
        nth_error (enemies s) i = Some e ->
        ECE_Enemy.isAlive e = true ->
        exists e',
          nth_error (fst (updateEnemies (enemies s) dt windowWidth
                            (enemySpeedX s) (dir s) (stepUp s))) i = Some e'
          /\ sf.y (ECE_Enemy.getPosition e')
             = sf.y (ECE_Enemy.getPosition e) + -20
          /\ sf.y (ECE_Enemy.getPosition e') < sf.y (ECE_Enemy.getPosition e))
  /\ (forall s' i e,
        In s' (roundStates tex bg s frames) ->
        nth_error (enemies s) i = Some e ->
        exists e',
          nth_error (enemies s') i = Some e'
          /\ sf.y (ECE_Enemy.getPosition e') <= sf.y (ECE_Enemy.getPosition e)).
Proof.
  intros Hstep. split.
  - intros dt windowWidth minLeft maxRight Hedges Hwall i e Hi Halive.
    destruct (updateEnemies_bounce (enemies s) dt windowWidth (enemySpeedX s)
                (dir s) (stepUp s) minLeft maxRight Hedges Hwall)
      as [c Hres].
    rewrite Hres. cbn [fst].
    rewrite (nth_error_moveAlive c (stepUp s) (enemies s) i e Hi), Halive.
    eexists. split; [reflexivity|].
    rewrite Hstep.
    change (sf.y (ECE_Enemy.getPosition (ECE_Enemy.move c (-20) e)))
      with (sf.y (ECE_Enemy.getPosition e) + -20).
    split; [reflexivity|lra].
  - intros s' i e Hin Hi.
    destruct (roundStates_enemyLater tex bg frames s s' Hin) as [Hall _].
    destruct (Forall2_lookup _ _ _ Hall i e Hi) as (e' & Hi' & _ & _ & Hy).
    exists e'. split; [exact Hi'|]. apply Hy. rewrite Hstep. lra.
Qed.

Lemma swarm_steps_upward_witness :
  let s := initRound demoWindow demoTextures in
  stepUp s = -20
  /\ (forall dt windowWidth minLeft maxRight,
      swarmEdges (enemies s) None = Some (minLeft, maxRight) ->
      minLeft + enemySpeedX s * to_float (dir s) * dt < 0
      \/ windowWidth < maxRight + enemySpeedX s * to_float (dir s) * dt ->
      forall i e,
        nth_error (enemies s) i = Some e ->
        ECE_Enemy.isAlive e = true ->
        exists e',
          nth_error (fst (updateEnemies (enemies s) dt windowWidth
                            (enemySpeedX s) (dir s) (stepUp s))) i = Some e'
          /\ sf.y (ECE_Enemy.getPosition e')
             = sf.y (ECE_Enemy.getPosition e) + -20
          /\ sf.y (ECE_Enemy.getPosition e') < sf.y (ECE_Enemy.getPosition e))
  /\ (forall s' i e,
        In s' (roundStates demoTextures (sf.newSprite demoTexture) s [demoFrame]) ->
        nth_error (enemies s) i = Some e ->
        exists e',
          nth_error (enemies s') i = Some e'
          /\ sf.y (ECE_Enemy.getPosition e') <= sf.y (ECE_Enemy.getPosition e)).
Proof.
  intros s. split; [reflexivity|].
  apply (swarm_steps_upward demoTextures (sf.newSprite demoTexture) s [demoFrame]).
  reflexivity.
Defined.

(** C5, as the claim words it, fails: started from the initial state of a
    round, a pass with [dt = 10] bounces the swarm off the right wall (the
    direction flips to -1), and the first enemy, which is alive, ends with
    a smaller y coordinate than before instead of a larger one. *)
Lemma swarm_descends_counterexample :
  let s := initRound demoWindow demoTextures in
  let result := updateEnemies (enemies s) 10 1920 (enemySpeedX s) (dir s)
                              (stepUp s) in
  snd result = (-1)%Z
  /\ exists e e',
      nth_error (enemies s) 0 = Some e
      /\ nth_error (fst result) 0 = Some e'
      /\ ECE_Enemy.isAlive e = true
      /\ ~ sf.y (ECE_Enemy.getPosition e) < sf.y (ECE_Enemy.getPosition e')
      /\ ~ sf.y (ECE_Enemy.getPosition e) <= sf.y (ECE_Enemy.getPosition e').
Proof.
  cbv zeta. split; [vm_compute; reflexivity|].
  eexists. eexists.
  split; [vm_compute; reflexivity|].
  split; [vm_compute; reflexivity|].
  split; [reflexivity|].
  split; [vm_compute; discriminate|].
  vm_compute. intros H. apply H. reflexivity.
Qed.

(** ** Player shots against the swarm *)

Lemma hitEnemy_none_iff (bounds : sf.FloatRect) (enemies : list ECE_Enemy.t) :
  hitEnemy bounds enemies = None
  <-> forall e, In e enemies -> ECE_Enemy.isAlive e = true ->
                sf.intersects bounds (ECE_Enemy.getGlobalBounds e) = false.
Proof.
  induction enemies as [|e rest IH]; cbn [hitEnemy].
  - split; [intros _ e []|reflexivity].
  - destruct (ECE_Enemy.isAlive e
              && sf.intersects bounds (ECE_Enemy.getGlobalBounds e)) eqn:Hc.
    + split; [discriminate|]. intros H.
      apply Bool.andb_true_iff in Hc as [Ha Hi].
      rewrite (H e (or_introl eq_refl) Ha) in Hi. discriminate.
    + split.
      * intros Hnone e' [<-|Hin] Ha.
        -- rewrite Ha in Hc. exact Hc.
        -- apply IH; auto.
           destruct (hitEnemy bounds rest); [discriminate|reflexivity].
      * intros H.
        assert (Hrest : hitEnemy bounds rest = None)
          by (apply IH; intros e' Hin; apply H; now right).
        rewrite Hrest. reflexivity.
Qed.

Lemma hitEnemy_some (bounds : sf.FloatRect) (enemies : list ECE_Enemy.t) :
  forall enemies',
    hitEnemy bounds enemies = Some enemies' ->
    exists before e after,
      enemies = before ++ e :: after
      /\ enemies' = before ++ ECE_Enemy.kill e :: after
      /\ ECE_Enemy.isAlive e = true
      /\ sf.intersects bounds (ECE_Enemy.getGlobalBounds e) = true
      /\ (forall e0, In e0 before -> ECE_Enemy.isAlive e0 = true ->
            sf.intersects bounds (ECE_Enemy.getGlobalBounds e0) = false).
Proof.
  induction enemies as [|e rest IH]; intros enemies' Hhit;
    cbn [hitEnemy] in Hhit; [discriminate|].
  destruct (ECE_Enemy.isAlive e
            && sf.intersects bounds (ECE_Enemy.getGlobalBounds e)) eqn:Hc.
  - injection Hhit as <-. apply Bool.andb_true_iff in Hc as [Ha Hi].
    exists [], e, rest. repeat split; auto. intros e0 [].
  - destruct (hitEnemy bounds rest) as [rest'|]; [|discriminate].
    injection Hhit as <-.
    destruct (IH rest' eq_refl) as (before & e1 & after & -> & -> & Ha & Hi & Hb).
    exists (e :: before), e1, after. repeat split; auto.
    intros e0 [<-|Hin] Ha0; [|auto].
    rewrite Ha0 in Hc. exact Hc.
Qed.

Lemma alive_after_kill (before after : list ECE_Enemy.t) (e : ECE_Enemy.t) :
  ECE_Enemy.isAlive e = true ->
  length (filter ECE_Enemy.isAlive (before ++ e :: after))
  = S (length (filter ECE_Enemy.isAlive (before ++ ECE_Enemy.kill e :: after))).
Proof.
  intros Ha. rewrite !filter_app, !length_app. cbn [filter].
  rewrite Ha. cbn. lia.
Qed.

Lemma alive_survivor (enemies enemies' : list ECE_Enemy.t) :
  Forall2 sameOrKilled enemies enemies' ->
  forall e', In e' enemies' -> ECE_Enemy.isAlive e' = true -> In e' enemies.
Proof.
  induction 1 as [|e e1 l l' Hr Hall IH]; intros e' Hin Ha; [destruct Hin|].
  destruct Hin as [<-|Hin].
  - destruct Hr as [->|[_ ->]]; [now left|discriminate].
  - right. auto.
Qed.

Lemma checkPlayerShotCollisions_count (shots : list ECE_LaserBlast.t) :
  forall enemies,
    (length (fst (checkPlayerShotCollisions shots enemies)) <= length shots)%nat
    /\ (length (filter ECE_Enemy.isAlive enemies)
        = length (filter ECE_Enemy.isAlive
                    (snd (checkPlayerShotCollisions shots enemies)))
          + (length shots
             - length (fst (checkPlayerShotCollisions shots enemies))))%nat.
Proof.
  induction shots as [|shot rest IH]; intros enemies;
    cbn [checkPlayerShotCollisions].
  - cbn. lia.
  - destruct (hitEnemy (ECE_LaserBlast.getGlobalBounds shot) enemies)
      as [enemies'|] eqn:Hhit.
    + destruct (hitEnemy_some _ _ _ Hhit)
        as (before & e & after & -> & -> & Ha & _).
      rewrite (alive_after_kill before after e Ha).
      destruct (IH (before ++ ECE_Enemy.kill e :: after)) as [Hle Hcount].
      cbn [length]. lia.
    + destruct (IH enemies) as [Hle Hcount].
      destruct (checkPlayerShotCollisions rest enemies) as [kept enemies'].
      cbn [fst snd length] in *. lia.
Qed.

Lemma checkPlayerShotCollisions_keeps (shots : list ECE_LaserBlast.t) :
  forall enemies shot,
    In shot shots ->
    (forall e, In e enemies -> ECE_Enemy.isAlive e = true ->
       sf.intersects (ECE_LaserBlast.getGlobalBounds shot)
                     (ECE_Enemy.getGlobalBounds e) = false) ->
    In shot (fst (checkPlayerShotCollisions shots enemies)).
Proof.
  induction shots as [|shot0 rest IH]; intros enemies shot Hin Hclear;
    [destruct Hin|].
  cbn [checkPlayerShotCollisions].
  destruct (hitEnemy (ECE_LaserBlast.getGlobalBounds shot0) enemies)
    as [enemies'|] eqn:Hhit.
  - destruct Hin as [->|Hin].
    + apply hitEnemy_none_iff in Hclear. congruence.
    + apply IH; [exact Hin|]. intros e He Ha. apply Hclear; [|exact Ha].
      eapply alive_survivor; eauto. eapply hitEnemy_sameOrKilled; eauto.
  - specialize (IH enemies shot).
    destruct (checkPlayerShotCollisions rest enemies) as [kept enemies'].
    cbn [fst] in *. destruct Hin as [->|Hin]; [now left|right; auto].
Qed.

Lemma checkPlayerShotCollisions_sublist (shots : list ECE_LaserBlast.t) :
  forall enemies shot,
    In shot (fst (checkPlayerShotCollisions shots enemies)) -> In shot shots.
Proof.
  induction shots as [|shot0 rest IH]; intros enemies shot Hin;
    cbn [checkPlayerShotCollisions] in Hin; [exact Hin|].
  destruct (hitEnemy (ECE_LaserBlast.getGlobalBounds shot0) enemies)
    as [enemies'|].
  - right. eapply IH; eauto.
  - specialize (IH enemies shot).
    destruct (checkPlayerShotCollisions rest enemies) as [kept enemies'].
    cbn [fst] in *. destruct Hin as [->|Hin]; [now left|right; auto].
Qed.

(** C6.  [checkPlayerShotCollisions] resolves collisions by bounding-box
    intersection.  When a shot's turn comes, it destroys an enemy exactly
    when its global bounds intersect the global bounds of an enemy that is
    alive at that moment: then the first such enemy has its alive flag
    cleared, nothing else in the swarm changes and the shot is erased; and
    when no alive enemy intersects the shot, the shot is kept and the
    swarm is untouched.  Over the whole call every erased shot accounts
    for exactly one kill, an enemy is at most killed, only shots of the
    list are kept, and a shot that intersects no enemy alive at the start
    of the call remains in the list. *)
Theorem player_shot_collisions
    (shot : ECE_LaserBlast.t) (shots : list ECE_LaserBlast.t)
    (enemies : list ECE_Enemy.t) :
  let bounds := ECE_LaserBlast.getGlobalBounds shot in
  let result := checkPlayerShotCollisions shots enemies in
  ((exists e, In e enemies /\ ECE_Enemy.isAlive e = true
              /\ sf.intersects bounds (ECE_Enemy.getGlobalBounds e) = true) ->
   exists before e after,
     enemies = before ++ e :: after
     /\ ECE_Enemy.isAlive e = true
     /\ sf.intersects bounds (ECE_Enemy.getGlobalBounds e) = true
     /\ (forall e0, In e0 before -> ECE_Enemy.isAlive e0 = true ->
           sf.intersects bounds (ECE_Enemy.getGlobalBounds e0) = false)
     /\ ECE_Enemy.isAlive (ECE_Enemy.kill e) = false
     /\ checkPlayerShotCollisions (shot :: shots) enemies
        = checkPlayerShotCollisions shots (before ++ ECE_Enemy.kill e :: after))
  /\ ((forall e, In e enemies -> ECE_Enemy.isAlive e = true ->
         sf.intersects bounds (ECE_Enemy.getGlobalBounds e) = false) ->
      checkPlayerShotCollisions (shot :: shots) enemies
      = (shot :: fst result, snd result))
  /\ (length (filter ECE_Enemy.isAlive enemies)
      = length (filter ECE_Enemy.isAlive (snd result))
        + (length shots - length (fst result)))%nat
  /\ (length (fst result) <= length shots)%nat
  /\ Forall2 sameOrKilled enemies (snd result)
  /\ (forall kept, In kept (fst result) -> In kept shots)
  /\ (forall other,
        In other shots ->
        (forall e, In e enemies -> ECE_Enemy.isAlive e = true ->
           sf.intersects (ECE_LaserBlast.getGlobalBounds other)
                         (ECE_Enemy.getGlobalBounds e) = false) ->
        In other (fst result)).
Proof.
  intros bounds result.
  split; [|split; [|split; [|split; [|split; [|split]]]]].
  - intros (e & Hin & Ha & Hi).
    destruct (hitEnemy bounds enemies) as [enemies'|] eqn:Hhit.
    + destruct (hitEnemy_some _ _ _ Hhit)
        as (before & e1 & after & Hes & Hes' & Ha1 & Hi1 & Hb).
      exists before, e1, after. repeat split; auto.
      cbn [checkPlayerShotCollisions]. fold bounds. rewrite Hhit, Hes'.
      reflexivity.
    + rewrite hitEnemy_none_iff in Hhit.
      rewrite (Hhit e Hin Ha) in Hi. discriminate.
  - intros Hclear. apply hitEnemy_none_iff in Hclear.
    cbn [checkPlayerShotCollisions]. fold bounds. rewrite Hclear.
    unfold result. destruct (checkPlayerShotCollisions shots enemies).
    reflexivity.
  - apply checkPlayerShotCollisions_count.
  - apply checkPlayerShotCollisions_count.
  - apply checkPlayerShotCollisions_sameOrKilled.
  - intros kept. apply checkPlayerShotCollisions_sublist.
  - intros other. apply checkPlayerShotCollisions_keeps.
Qed.

(** ** Losing and winning *)

Lemma checkEnemyShotCollisions_hit (shots : list ECE_LaserBlast.t)
    (b : ECE_Buzzy.t) :
  fst (checkEnemyShotCollisions shots b) = true ->
  exists before shot after,
    shots = before ++ shot :: after
    /\ sf.intersects (ECE_Buzzy.getGlobalBounds b)
                     (ECE_LaserBlast.getGlobalBounds shot) = true
    /\ (forall shot0, In shot0 before ->
          sf.intersects (ECE_Buzzy.getGlobalBounds b)
                        (ECE_LaserBlast.getGlobalBounds shot0) = false)
    /\ snd (checkEnemyShotCollisions shots b) = before ++ after.
Proof.
  induction shots as [|shot rest IH]; cbn [checkEnemyShotCollisions];
    [discriminate|].
  destruct (sf.intersects (ECE_Buzzy.getGlobalBounds b)
                          (ECE_LaserBlast.getGlobalBounds shot)) eqn:Hi.
  - intros _. exists [], shot, rest. repeat split; auto. intros shot0 [].
  - destruct (checkEnemyShotCollisions rest b) as [hit rest'].
    cbn [fst snd] in *. intros Hhit.
    destruct (IH Hhit) as (before & shot1 & after & -> & Hi1 & Hb & ->).
    exists (shot :: before), shot1, after. repeat split; auto.
    intros shot0 [<-|Hin]; auto.
Qed.

Lemma checkEnemyShotCollisions_miss (shots : list ECE_LaserBlast.t)
    (b : ECE_Buzzy.t) :
  fst (checkEnemyShotCollisions shots b) = false ->
  (forall shot, In shot shots ->
     sf.intersects (ECE_Buzzy.getGlobalBounds b)
                   (ECE_LaserBlast.getGlobalBounds shot) = false)
  /\ snd (checkEnemyShotCollisions shots b) = shots.
Proof.
  induction shots as [|shot rest IH]; cbn [checkEnemyShotCollisions].
  - intros _. split; [intros shot []|reflexivity].
  - destruct (sf.intersects (ECE_Buzzy.getGlobalBounds b)
                            (ECE_LaserBlast.getGlobalBounds shot)) eqn:Hi;
      [discriminate|].
    destruct (checkEnemyShotCollisions rest b) as [hit rest'].
    cbn [fst snd] in *. intros Hhit. destruct (IH Hhit) as [Hall ->].
    split; [|reflexivity]. intros shot0 [<-|Hin]; auto.
Qed.

Lemma checkPlayerEnemyCollision_true_iff (b : ECE_Buzzy.t)
    (enemies : list ECE_Enemy.t) :
  checkPlayerEnemyCollision b enemies = true
  <-> exists e, In e enemies /\ ECE_Enemy.isAlive e = true
                /\ sf.intersects (ECE_Buzzy.getGlobalBounds b)
                                 (ECE_Enemy.getGlobalBounds e) = true.
Proof.
  induction enemies as [|e rest IH]; cbn [checkPlayerEnemyCollision].
  - split; [discriminate|intros (e & [] & _)].
  - destruct (ECE_Enemy.isAlive e
              && sf.intersects (ECE_Buzzy.getGlobalBounds b)
                               (ECE_Enemy.getGlobalBounds e)) eqn:Hc.
    + split; [intros _|reflexivity].
      apply Bool.andb_true_iff in Hc as [Ha Hi]. exists e. auto using in_eq.
    + rewrite IH. split.
      * intros (e' & Hin & Ha & Hi). exists e'. auto using in_cons.
      * intros (e' & [<-|Hin] & Ha & Hi); [|eauto].
        rewrite Ha, Hi in Hc. discriminate.
Qed.

Lemma checkWin_true_iff (enemies : list ECE_Enemy.t) :
  checkWin enemies = true
  <-> forall e, In e enemies -> ECE_Enemy.isAlive e = false.
Proof.
  induction enemies as [|e rest IH]; cbn [checkWin].
  - split; [intros _ e []|reflexivity].
  - destruct (ECE_Enemy.isAlive e) eqn:Ha.
    + split; [discriminate|]. intros H.
      specialize (H e (or_introl eq_refl)). congruence.
    + rewrite IH. split.
      * intros H e' [<-|Hin]; auto.
      * intros H e' Hin. apply H. now right.
Qed.

(** The three ways a pass can end, in terms of the three tests. *)
Lemma frameChecks_cases (bg : sf.Sprite) (s : Round) :
  let killedByShot := fst (checkEnemyShotCollisions (enemyShots s) (buzzy s)) in
  let collidedEnemy := checkPlayerEnemyCollision (buzzy s) (enemies s) in
  let s1 := mkRound (window s) (buzzy s) (playerShots s)
                    (snd (checkEnemyShotCollisions (enemyShots s) (buzzy s)))
                    (enemies s) (enemySpeedX s) (dir s) (stepUp s) in
  frameChecks bg s
  = if killedByShot || collidedEnemy then LoseScreen s1
    else if checkWin (enemies s) then WinScreen s1
         else NextFrame s1 (drawScene bg (buzzy s1) (enemies s1)
                                      (playerShots s1) (enemyShots s1)).
Proof.
  unfold frameChecks.
  destruct (checkEnemyShotCollisions (enemyShots s) (buzzy s)). reflexivity.
Qed.

(** C2.  The round is lost exactly when the player is hit or touched.
    With [s] the state after the updates of a pass of the main loop, the
    pass ends with the lose screen if and only if some enemy shot's global
    bounds intersect the player's or some alive enemy's global bounds
    intersect the player's.  In the first case the first such shot is
    erased from the list of enemy shots (and only that one); otherwise the
    list is left as it is.  From an open window, a pass that ends with the
    lose screen makes [playGame]'s loop return what the modal screen
    decides: [Lose] on a replay, [Quit] otherwise. *)
Theorem lose_condition
    (tex : allTextures) (endS winS bg : sf.Sprite) (s0 : Round)
    (f : FrameInput) (rest : list FrameInput) (endPolls : list (list sf.Event)) :
  let s := frameUpdate tex s0 f in
  let playerBounds := ECE_Buzzy.getGlobalBounds (buzzy s) in
  let hitByShot :=
    exists shot, In shot (enemyShots s)
                 /\ sf.intersects playerBounds
                      (ECE_LaserBlast.getGlobalBounds shot) = true in
  let touched :=
    exists e, In e (enemies s) /\ ECE_Enemy.isAlive e = true
              /\ sf.intersects playerBounds (ECE_Enemy.getGlobalBounds e) = true in
  ((exists s', frame tex bg s0 f = LoseScreen s') <-> hitByShot \/ touched)
  /\ (hitByShot ->
      exists before shot after,
        enemyShots s = before ++ shot :: after
        /\ sf.intersects playerBounds
             (ECE_LaserBlast.getGlobalBounds shot) = true
        /\ (forall shot0, In shot0 before ->
              sf.intersects playerBounds
                (ECE_LaserBlast.getGlobalBounds shot0) = false)
        /\ frame tex bg s0 f
           = LoseScreen (mkRound (window s) (buzzy s) (playerShots s)
                                 (before ++ after) (enemies s)
                                 (enemySpeedX s) (dir s) (stepUp s)))
  /\ (~ hitByShot -> touched ->
      frame tex bg s0 f = LoseScreen s)
  /\ (forall s',
        sf.isOpen (window s0) = true ->
        frame tex bg s0 f = LoseScreen s' ->
        mainLoop tex endS winS bg s0 (f :: rest) endPolls
        = match snd (endScreen (window s') endS endPolls) with
          | Some true => Some Lose
          | Some false => Some Quit
          | None => None
          end).
Proof.
  intros s playerBounds hitByShot touched. subst playerBounds.
  assert (Hshot : fst (checkEnemyShotCollisions (enemyShots s) (buzzy s)) = true
                  <-> hitByShot).
  { split.
    - intros H. destruct (checkEnemyShotCollisions_hit _ _ H)
        as (before & shot & after & Heq & Hi & _).
      exists shot. split; [|exact Hi]. rewrite Heq. apply in_elt.
    - intros (shot & Hin & Hi).
      destruct (fst (checkEnemyShotCollisions (enemyShots s) (buzzy s))) eqn:H;
        [reflexivity|].
      destruct (checkEnemyShotCollisions_miss _ _ H) as [Hall _].
      rewrite (Hall shot Hin) in Hi. discriminate. }
  assert (Htouch : checkPlayerEnemyCollision (buzzy s) (enemies s) = true
                   <-> touched)
    by apply checkPlayerEnemyCollision_true_iff.
  pose proof (frameChecks_cases bg s) as Hcases. cbv zeta in Hcases.
  change (frame tex bg s0 f) with (frameChecks bg s).
  split; [|split; [|split]].
  - rewrite <- Hshot, <- Htouch, <- Bool.orb_true_iff. rewrite Hcases.
    destruct (_ || _); [split; eauto|].
    split; [|discriminate]. intros [s' H].
    destruct (checkWin (enemies s)); discriminate.
  - intros Hhit. apply Hshot in Hhit.
    destruct (checkEnemyShotCollisions_hit _ _ Hhit)
      as (before & shot & after & Heq & Hi & Hb & Hsnd).
    exists before, shot, after. repeat split; auto.
    rewrite Hcases, Hhit, Hsnd. reflexivity.
  - intros Hmiss Htouched. apply Htouch in Htouched.
    rewrite Hcases, Htouched, Bool.orb_true_r.
    destruct (fst (checkEnemyShotCollisions (enemyShots s) (buzzy s))) eqn:H.
    + exfalso. apply Hmiss, Hshot. reflexivity.
    + destruct (checkEnemyShotCollisions_miss _ _ H) as [_ Hsnd].
      rewrite Hsnd. clear. subst s.
      destruct (frameUpdate tex s0 f); reflexivity.
  - intros s' Hopen Hlose. cbn [mainLoop]. rewrite Hopen. cbn [negb].
    change (frame tex bg s0 f) with (frameChecks bg s).
    rewrite Hlose. unfold replay.
    destruct (snd (endScreen (window s') endS endPolls)) as [[|]|]; reflexivity.
Qed.

Lemma lose_condition_witness :
  (exists s',
      frame demoTextures (sf.newSprite demoTexture) demoUnderFire demoTick
      = LoseScreen s')
  /\ mainLoop demoTextures (sf.newSprite demoTexture) (sf.newSprite demoTexture)
       (sf.newSprite demoTexture) demoUnderFire [demoTick]
       [[sf.KeyPressed sf.Enter]]
     = Some Lose.
Proof.
  pose proof (lose_condition demoTextures (sf.newSprite demoTexture)
                (sf.newSprite demoTexture) (sf.newSprite demoTexture)
                demoUnderFire demoTick [] [[sf.KeyPressed sf.Enter]])
    as (Hiff & _ & _ & Hloop).
  assert (Hlose : exists s',
             frame demoTextures (sf.newSprite demoTexture) demoUnderFire demoTick
             = LoseScreen s').
  { apply Hiff. left.
    exists (ECE_LaserBlast.update (1 # 60) demoIncoming).
    split; vm_compute; [left|]; reflexivity. }
  split; [exact Hlose|].
  destruct Hlose as [s' Hs']. rewrite (Hloop s' eq_refl Hs').
  assert (Hw : window s' = demoWindow).
  { assert (H : match frame demoTextures (sf.newSprite demoTexture)
                        demoUnderFire demoTick with
                | LoseScreen x => window x = demoWindow
                | _ => True
                end) by (vm_compute; reflexivity).
    rewrite Hs' in H. exact H. }
  rewrite Hw. reflexivity.
Defined.

(** C1.  The round is won exactly when every enemy has been destroyed.
    [checkWin] answers true if and only if no enemy of the vector has its
    alive flag set.  In a pass of the main loop [checkWin] is reached when
    the pass is not lost, and the pass ends with the win screen exactly
    when [checkWin] is reached and answers true; from an open window
    [playGame]'s loop then returns what the modal screen decides: [Win]
    when the player chooses to replay, [Quit] otherwise. *)
Theorem win_condition
    (tex : allTextures) (endS winS bg : sf.Sprite) (s0 : Round)
    (f : FrameInput) (rest : list FrameInput) (endPolls : list (list sf.Event)) :
  sf.isOpen (window s0) = true ->
  let s := frameUpdate tex s0 f in
  let reached :=
    fst (checkEnemyShotCollisions (enemyShots s) (buzzy s)) = false
    /\ checkPlayerEnemyCollision (buzzy s) (enemies s) = false in
  (forall enemies,
      checkWin enemies = true
      <-> forall e, In e enemies -> ECE_Enemy.isAlive e = false)
  /\ ((exists s', frame tex bg s0 f = WinScreen s')
      <-> reached /\ checkWin (enemies s) = true)
  /\ (reached -> checkWin (enemies s) = true ->
      exists s',
        frame tex bg s0 f = WinScreen s'
        /\ enemies s' = enemies s
        /\ mainLoop tex endS winS bg s0 (f :: rest) endPolls
           = match snd (endScreen (window s') winS endPolls) with
             | Some true => Some Win
             | Some false => Some Quit
             | None => None
             end).
Proof.
  intros Hopen s reached.
  pose proof (frameChecks_cases bg s) as Hcases. cbv zeta in Hcases.
  change (frame tex bg s0 f) with (frameChecks bg s).
  split; [exact checkWin_true_iff|]. split.
  - rewrite Hcases. unfold reached. split.
    + intros [s' H].
      destruct (fst (checkEnemyShotCollisions (enemyShots s) (buzzy s)));
        destruct (checkPlayerEnemyCollision (buzzy s) (enemies s));
        cbn [orb] in H; try discriminate.
      destruct (checkWin (enemies s)); [auto|discriminate].
    + intros [[-> ->] ->]. cbn [orb]. eauto.
  - intros [Hshot Htouch] Hwin.
    rewrite Hshot, Htouch, Hwin in Hcases. cbn [orb] in Hcases.
    eexists. split; [exact Hcases|]. split; [reflexivity|].
    cbn [mainLoop]. rewrite Hopen. cbn [negb].
    change (frame tex bg s0 f) with (frameChecks bg s).
    rewrite Hcases. unfold replay. cbn [window].
    destruct (snd (endScreen (window s) winS endPolls)) as [[|]|]; reflexivity.
Qed.

Lemma win_condition_witness :
  sf.isOpen (window demoLastStand) = true
  /\ mainLoop demoTextures (sf.newSprite demoTexture) (sf.newSprite demoTexture)
       (sf.newSprite demoTexture) demoLastStand [demoTick]
       [[sf.KeyPressed sf.Enter]]
     = Some Win.
Proof.
  split; [reflexivity|].
  destruct (win_condition demoTextures (sf.newSprite demoTexture)
              (sf.newSprite demoTexture) (sf.newSprite demoTexture)
              demoLastStand demoTick [] [[sf.KeyPressed sf.Enter]] eq_refl)
    as (_ & _ & Hwin).
  destruct Hwin as (s' & Hframe & _ & Hloop).
  - split; vm_compute; reflexivity.
  - vm_compute. reflexivity.
  - rewrite Hloop.
    assert (Hw : window s' = demoWindow).
    { assert (H : match frame demoTextures (sf.newSprite demoTexture)
                          demoLastStand demoTick with
                  | WinScreen x => window x = demoWindow
                  | _ => True
                  end) by (vm_compute; reflexivity).
      rewrite Hframe in H. exact H. }
    rewrite Hw. reflexivity.
Defined.

(** ** Loading a texture *)

(** C8 at a path with no loadable file: [loadTexture] does not signal
    the failure; it returns normally, with the empty texture.  When the
    file is loadable the loaded texture is returned; and whatever the disk
    and the path, the call never throws. *)
Theorem loadTexture_missing_file_returns :
  loadTexture (fun _ => None) "graphics/missing.png" = Returned sf.emptyTexture
  /\ (forall disk path img,
        disk path = Some img -> loadTexture disk path = Returned img)
  /\ (forall disk path what, loadTexture disk path <> Thrown what).
Proof.
  split; [reflexivity|]. split.
  - intros disk path img H. unfold loadTexture, loadFromFile. rewrite H.
    reflexivity.
  - intros disk path what. unfold loadTexture. discriminate.
Qed.

(** ** Dead enemies *)

Lemma pickShooter_alive (rnd : nat) (enemies : list ECE_Enemy.t)
    (shooter : ECE_Enemy.t) :
  pickShooter rnd enemies = Some shooter ->
  In shooter enemies /\ ECE_Enemy.isAlive shooter = true.
Proof.
  unfold pickShooter. intros H.
  assert (Hin : In shooter (filter ECE_Enemy.isAlive enemies)).
  { destruct (filter ECE_Enemy.isAlive enemies) eqn:Hf; [discriminate|].
    eapply nth_error_In; eauto. }
  apply filter_In in Hin. exact Hin.
Qed.

Lemma drawScene_enemies (bg : sf.Sprite) (b : ECE_Buzzy.t)
    (enemies : list ECE_Enemy.t) (pShots eShots : list ECE_LaserBlast.t)
    (e : ECE_Enemy.t) :
  In (DrawEnemy e) (drawScene bg b enemies pShots eShots)
  <-> In e enemies /\ ECE_Enemy.isAlive e = true.
Proof.
  unfold drawScene. rewrite <- filter_In. split.
  - intros [H|[H|H]]; try discriminate.
    cbn [app] in H. apply in_app_or in H as [H|H].
    + apply in_map_iff in H as (e' & Heq & Hin). congruence.
    + apply in_app_or in H as [H|H];
        apply in_map_iff in H as (l & Heq & _); discriminate.
  - intros H. right. right. cbn [app]. apply in_or_app. left.
    now apply in_map.
Qed.

(** C10.  Dead enemies stay dead and inert.  For an enemy [e] of the swarm
    whose alive flag is cleared: at the end of every pass of the main loop
    the swarm holds the very same [e] at the same place of the vector (the
    flag is still cleared and the sprite has not moved); [updateEnemies]
    leaves it as it is; the shooter picked by [spawnEnemyLaser] is an
    alive enemy of the swarm, hence never [e]; [checkPlayerShotCollisions]
    leaves it as it is, and a player shot that meets only dead enemies is
    not erased; and [drawScene] does not draw it. *)
Theorem dead_enemies_inert
    (tex : allTextures) (bg : sf.Sprite) (s : Round) (frames : list FrameInput)
    (i : nat) (e : ECE_Enemy.t) :
  nth_error (enemies s) i = Some e ->
  ECE_Enemy.isAlive e = false ->
  (forall s', In s' (roundStates tex bg s frames) ->
              nth_error (enemies s') i = Some e)
  /\ (forall dt windowWidth speed direction step,
        nth_error (fst (updateEnemies (enemies s) dt windowWidth speed
                          direction step)) i = Some e)
  /\ (forall rnd shooter shots laserTex,
        pickShooter rnd (enemies s) = Some shooter ->
        In shooter (enemies s)
        /\ ECE_Enemy.isAlive shooter = true
        /\ shooter <> e
        /\ spawnEnemyLaser rnd shots (enemies s) laserTex
           = shots ++ [newEnemyShot shooter laserTex])
  /\ (forall rnd shots laserTex,
        pickShooter rnd (enemies s) = None ->
        spawnEnemyLaser rnd shots (enemies s) laserTex = shots)
  /\ (forall shots,
        nth_error (snd (checkPlayerShotCollisions shots (enemies s))) i = Some e)
  /\ (forall shots shot,
        In shot shots ->
        (forall e', In e' (enemies s) ->
           sf.intersects (ECE_LaserBlast.getGlobalBounds shot)
                         (ECE_Enemy.getGlobalBounds e') = true ->
           ECE_Enemy.isAlive e' = false) ->
        In shot (fst (checkPlayerShotCollisions shots (enemies s))))
  /\ (forall background b pShots eShots,
        ~ In (DrawEnemy e) (drawScene background b (enemies s) pShots eShots)).
Proof.
  intros Hi Hdead.
  split; [|split; [|split; [|split; [|split; [|split]]]]].
  - intros s' Hin.
    destruct (roundStates_enemyLater tex bg frames s s' Hin) as [Hall _].
    destruct (Forall2_lookup _ _ _ Hall i e Hi) as (e' & Hi' & Hsame & _).
    rewrite Hi', (Hsame Hdead). reflexivity.
  - intros dt windowWidth speed direction step.
    pose proof (updateEnemies_enemyLater (enemies s) dt windowWidth speed
                  direction step) as Hall.
    destruct (Forall2_lookup _ _ _ Hall i e Hi) as (e' & Hi' & Hsame & _).
    rewrite Hi', (Hsame Hdead). reflexivity.
  - intros rnd shooter shots laserTex Hpick.
    destruct (pickShooter_alive _ _ _ Hpick) as [Hin Halive].
    repeat split; auto.
    + intros ->. congruence.
    + unfold spawnEnemyLaser. rewrite Hpick. reflexivity.
  - intros rnd shots laserTex Hpick. unfold spawnEnemyLaser.
    rewrite Hpick. reflexivity.
  - intros shots.
    pose proof (checkPlayerShotCollisions_sameOrKilled shots (enemies s))
      as Hall.
    destruct (Forall2_lookup _ _ _ Hall i e Hi) as (e' & Hi' & [->|[Ha _]]);
      [exact Hi'|congruence].
  - intros shots shot Hin Honly.
    apply checkPlayerShotCollisions_keeps; [exact Hin|].
    intros e' He' Ha.
    destruct (sf.intersects (ECE_LaserBlast.getGlobalBounds shot)
                            (ECE_Enemy.getGlobalBounds e')) eqn:Hmeet;
      [|reflexivity].
    specialize (Honly e' He' Hmeet). congruence.
  - intros background b pShots eShots Hdrawn.
    apply drawScene_enemies in Hdrawn as [_ Ha]. congruence.
Qed.

Lemma dead_enemies_inert_witness :
  let s := demoOneDead in
  let e := ECE_Enemy.kill demoEnemy in
  let bg := sf.newSprite demoTexture in
  nth_error (enemies s) 0 = Some e
  /\ ECE_Enemy.isAlive e = false
  /\ (forall s', In s' (roundStates demoTextures bg s [demoTick; demoTick]) ->
                 nth_error (enemies s') 0 = Some e)
  /\ (forall dt windowWidth speed direction step,
        nth_error (fst (updateEnemies (enemies s) dt windowWidth speed
                          direction step)) 0 = Some e)
  /\ (forall rnd shooter shots laserTex,
        pickShooter rnd (enemies s) = Some shooter ->
        In shooter (enemies s)
        /\ ECE_Enemy.isAlive shooter = true
        /\ shooter <> e
        /\ spawnEnemyLaser rnd shots (enemies s) laserTex
           = shots ++ [newEnemyShot shooter laserTex])
  /\ (forall rnd shots laserTex,
        pickShooter rnd (enemies s) = None ->
        spawnEnemyLaser rnd shots (enemies s) laserTex = shots)
  /\ (forall shots,
        nth_error (snd (checkPlayerShotCollisions shots (enemies s))) 0 = Some e)
  /\ (forall shots shot,
        In shot shots ->
        (forall e', In e' (enemies s) ->
           sf.intersects (ECE_LaserBlast.getGlobalBounds shot)
                         (ECE_Enemy.getGlobalBounds e') = true ->
           ECE_Enemy.isAlive e' = false) ->
        In shot (fst (checkPlayerShotCollisions shots (enemies s))))
  /\ (forall background b pShots eShots,
        ~ In (DrawEnemy e) (drawScene background b (enemies s) pShots eShots)).
Proof.
  intros s e bg.
  split; [reflexivity|]. split; [reflexivity|].
  apply (dead_enemies_inert demoTextures bg s [demoTick; demoTick] 0 e);
    reflexivity.
Defined.

Lemma player_shot_collisions_witness :
  (exists e, In e [demoEnemy; demoNeighbour]
             /\ ECE_Enemy.isAlive e = true
             /\ sf.intersects (ECE_LaserBlast.getGlobalBounds demoShot)
                              (ECE_Enemy.getGlobalBounds e) = true)
  /\ checkPlayerShotCollisions [demoShot; demoShot] [demoEnemy; demoNeighbour]
     = ([demoShot], [ECE_Enemy.kill demoEnemy; demoNeighbour]).
Proof.
  assert (Hhit : exists e, In e [demoEnemy; demoNeighbour]
             /\ ECE_Enemy.isAlive e = true
             /\ sf.intersects (ECE_LaserBlast.getGlobalBounds demoShot)
                              (ECE_Enemy.getGlobalBounds e) = true).
  { exists demoEnemy. split; [now left|]. split; vm_compute; reflexivity. }
  split; [exact Hhit|].
  destruct (player_shot_collisions demoShot [demoShot]
              [demoEnemy; demoNeighbour]) as (Hkill & Hkeep & _).
  destruct (Hkill Hhit) as (before & e & after & Heq & Ha & Hi & Hfirst & _ & ->).
  destruct before as [|e0 before].
  - injection Heq as <- <-.
    destruct (player_shot_collisions demoShot []
                [ECE_Enemy.kill demoEnemy; demoNeighbour]) as (_ & Hkeep' & _).
    apply Hkeep'.
    intros e' [<-|[<-|[]]] Ha'; [discriminate|vm_compute; reflexivity].
  - injection Heq as <- Heq. exfalso.
    assert (Hmiss : sf.intersects (ECE_LaserBlast.getGlobalBounds demoShot)
                      (ECE_Enemy.getGlobalBounds demoEnemy) = false)
      by (apply Hfirst; [now left|reflexivity]).
    vm_compute in Hmiss. discriminate.
Defined.

(** * Further properties of the code *)

(** ** Geometry of an unrotated sprite *)

Lemma inject_Z_nonneg (z : Z) : (0 <= z)%Z -> 0 <= inject_Z z.
Proof. intros H. unfold Qle. cbn. lia. Qed.

Lemma inject_Z_pos (z : Z) : (0 < z)%Z -> 0 < inject_Z z.
Proof. intros H. unfold Qlt. cbn. lia. Qed.

Lemma extent_low_high (a b : Q) :
  a <= b ->
  fst (sf.extent a [a; b; b]) == a /\ snd (sf.extent a [a; b; b]) == b.
Proof.
  intros Hab. unfold sf.extent. cbn [fold_left]. unfold sf.extentStep.
  qcases; split; lra.
Qed.

Lemma extent_high_low (a b : Q) :
  a <= b ->
  fst (sf.extent a [b; a; b]) == a /\ snd (sf.extent a [b; a; b]) == b.
Proof.
  intros Hab. unfold sf.extent. cbn [fold_left]. unfold sf.extentStep.
  qcases; split; lra.
Qed.

(** With a scale that is not negative the global bounds are the texture
    rectangle scaled about the origin and put at the position. *)
Lemma bounds_of_scaled (s : sf.Sprite) :
  0 <= sf.x (sf.scale s) -> 0 <= sf.y (sf.scale s) ->
  sf.left (sf.getGlobalBounds s)
    == sf.x (sf.position s) - sf.x (sf.origin s) * sf.x (sf.scale s)
  /\ sf.top (sf.getGlobalBounds s)
    == sf.y (sf.position s) - sf.y (sf.origin s) * sf.y (sf.scale s)
  /\ sf.width (sf.getGlobalBounds s)
    == sf.x (sf.scale s) * inject_Z (Z.abs (sf.ux (sf.texRect s)))
  /\ sf.height (sf.getGlobalBounds s)
    == sf.y (sf.scale s) * inject_Z (Z.abs (sf.uy (sf.texRect s))).
Proof.
  intros Hsx Hsy.
  pose proof (inject_Z_nonneg _ (Z.abs_nonneg (sf.ux (sf.texRect s)))) as Hw.
  pose proof (inject_Z_nonneg _ (Z.abs_nonneg (sf.uy (sf.texRect s)))) as Hh.
  pose proof (Qmult_le_0_compat _ _ Hsx Hw) as Hsw.
  pose proof (Qmult_le_0_compat _ _ Hsy Hh) as Hsh.
  unfold sf.getGlobalBounds, sf.transformRect, sf.getLocalBounds.
  cbn [sf.left sf.top sf.width sf.height].
  match goal with
  | |- context [sf.extent ?a [?a; ?b; ?b]] =>
      destruct (extent_low_high a b) as [Hxl Hxh]; [lra|]
  end.
  match goal with
  | |- context [sf.extent ?a [?b; ?a; ?b]] =>
      destruct (extent_high_low a b) as [Hyl Hyh]; [lra|]
  end.
  repeat split; lra.
Qed.

Lemma local_size_of_textured (s : sf.Sprite) :
  textured s ->
  sf.width (sf.getLocalBounds s) = inject_Z (sf.ux (sf.texRect s))
  /\ sf.height (sf.getLocalBounds s) = inject_Z (sf.uy (sf.texRect s))
  /\ 0 < inject_Z (sf.ux (sf.texRect s))
  /\ 0 < inject_Z (sf.uy (sf.texRect s)).
Proof.
  intros [Hw Hh]. unfold sf.getLocalBounds. cbn [sf.width sf.height].
  rewrite !Z.abs_eq by lia. auto using inject_Z_pos.
Qed.

(** A sprite whose origin is its centre sits around its position. *)
Lemma bounds_of_centred (s : sf.Sprite) :
  centred s ->
  0 <= sf.x (sf.scale s) -> 0 <= sf.y (sf.scale s) ->
  sf.left (sf.getGlobalBounds s)
    == sf.x (sf.position s) - sf.width (sf.getGlobalBounds s) / 2
  /\ sf.top (sf.getGlobalBounds s)
    == sf.y (sf.position s) - sf.height (sf.getGlobalBounds s) / 2.
Proof.
  intros Hc Hsx Hsy.
  destruct (bounds_of_scaled s Hsx Hsy) as (Hl & Ht & Hw & Hh).
  unfold centred in Hc. rewrite Hc in Hl, Ht.
  unfold sf.getLocalBounds in Hl, Ht. cbn [sf.x sf.y sf.width sf.height] in Hl, Ht.
  qhalf. split; lra.
Qed.

(** The common body of the two [scaleForWindow]s, on the sprite. *)
Lemma scaled_to_box (s : sf.Sprite) (targetW targetH : Q) :
  textured s -> 0 <= targetW -> 0 <= targetH ->
  let m := std_min (targetW / sf.width (sf.getLocalBounds s))
                   (targetH / sf.height (sf.getLocalBounds s)) in
  let s' := sf.setScale m m s in
  sf.width (sf.getGlobalBounds s') <= targetW
  /\ sf.height (sf.getGlobalBounds s') <= targetH
  /\ (sf.width (sf.getGlobalBounds s') == targetW
      \/ sf.height (sf.getGlobalBounds s') == targetH)
  /\ 0 <= m.
Proof.
  intros Htex HW HH. cbv zeta.
  destruct (local_size_of_textured s Htex) as (Hlw & Hlh & Hw & Hh).
  rewrite Hlw, Hlh.
  set (w := inject_Z (sf.ux (sf.texRect s))) in *.
  set (h := inject_Z (sf.uy (sf.texRect s))) in *.
  set (m := std_min (targetW / w) (targetH / h)).
  set (s' := sf.setScale m m s).
  assert (Ha : targetW / w * w == targetW) by (field; lra).
  assert (Hb : targetH / h * h == targetH) by (field; lra).
  assert (Ha0 : 0 <= targetW / w)
    by (apply Qle_shift_div_l; [exact Hw|lra]).
  assert (Hb0 : 0 <= targetH / h)
    by (apply Qle_shift_div_l; [exact Hh|lra]).
  destruct (std_min_spec (targetW / w) (targetH / h)) as (Hma & Hmb & Hm).
  fold m in Hma, Hmb, Hm.
  assert (Hm0 : 0 <= m) by (destruct Hm as [-> | ->]; assumption).
  destruct (bounds_of_scaled s' Hm0 Hm0) as (_ & _ & Hgw & Hgh).
  cbn [s' sf.setScale sf.scale sf.texRect sf.x sf.y] in Hgw, Hgh.
  destruct Htex as [Htw Hth].
  rewrite !Z.abs_eq in Hgw, Hgh by lia. fold w in Hgw. fold h in Hgh.
  set (a := targetW / w) in *. set (b := targetH / h) in *.
  clearbody a b m.
  assert (Hmw : m * w <= a * w) by nra.
  assert (Hmh : m * h <= b * h) by nra.
  repeat split; try lra.
  destruct Hm as [-> | ->]; [left|right]; lra.
Qed.

(** ** Backgrounds, boxes and bolts *)

(** X1.  [makeBackground] fills the window exactly: for a loaded texture
    the global bounds of the sprite it returns are the rectangle
    (0, 0, windowSize.x, windowSize.y). *)
Theorem makeBackground_fills_window (tex : sf.Texture) (windowSize : sf.Vector2u) :
  (0 < sf.ux (sf.texSize tex))%Z -> (0 < sf.uy (sf.texSize tex))%Z ->
  (0 <= sf.ux windowSize)%Z -> (0 <= sf.uy windowSize)%Z ->
  let gb := sf.getGlobalBounds (makeBackground tex windowSize) in
  sf.left gb == 0 /\ sf.top gb == 0
  /\ sf.width gb == to_float (sf.ux windowSize)
  /\ sf.height gb == to_float (sf.uy windowSize).
Proof.
  intros Htw Hth HW HH gb.
  pose proof (inject_Z_pos _ Htw) as Hw. pose proof (inject_Z_pos _ Hth) as Hh.
  pose proof (inject_Z_nonneg _ HW) as HW'.
  pose proof (inject_Z_nonneg _ HH) as HH'.
  assert (Hsx : 0 <= to_float (sf.ux windowSize) / to_float (sf.ux (sf.texSize tex)))
    by (apply Qle_shift_div_l; [exact Hw|unfold to_float; lra]).
  assert (Hsy : 0 <= to_float (sf.uy windowSize) / to_float (sf.uy (sf.texSize tex)))
    by (apply Qle_shift_div_l; [exact Hh|unfold to_float; lra]).
  destruct (bounds_of_scaled (makeBackground tex windowSize) Hsx Hsy)
    as (Hl & Ht & Hgw & Hgh).
  fold gb in Hl, Ht, Hgw, Hgh.
  cbn [makeBackground sf.setPosition sf.setScale sf.newSprite sf.position
       sf.origin sf.scale sf.texRect sf.x sf.y] in Hl, Ht, Hgw, Hgh.
  rewrite !Z.abs_eq in Hgw, Hgh by lia.
  unfold to_float in *.
  assert (Ha : inject_Z (sf.ux windowSize) / inject_Z (sf.ux (sf.texSize tex))
               * inject_Z (sf.ux (sf.texSize tex)) == inject_Z (sf.ux windowSize))
    by (field; lra).
  assert (Hb : inject_Z (sf.uy windowSize) / inject_Z (sf.uy (sf.texSize tex))
               * inject_Z (sf.uy (sf.texSize tex)) == inject_Z (sf.uy windowSize))
    by (field; lra).
  repeat split; lra.
Qed.

Lemma makeBackground_fills_window_witness :
  let gb := sf.getGlobalBounds
              (makeBackground demoTexture (sf.getSize demoWindow)) in
  sf.left gb == 0 /\ sf.top gb == 0
  /\ sf.width gb == to_float 1920 /\ sf.height gb == to_float 1080.
Proof.
  apply (makeBackground_fills_window demoTexture (sf.getSize demoWindow));
    vm_compute; congruence.
Defined.

(** X2.  [scaleForWindow] fits the sprite in its box, for the enemy and
    for the player alike: with a loaded texture, a window size and box
    fractions that are not negative, the scaled sprite's global width is
    at most [windowSize.x * boxFracW], its global height at most
    [windowSize.y * boxFracH], one of the two is reached, and the scale is
    the same on both axes. *)
Theorem scaleForWindow_fits
    (windowSize : sf.Vector2u) (boxFracW boxFracH : Q)
    (e : ECE_Enemy.t) (b : ECE_Buzzy.t) :
  textured (ECE_Enemy.sprite e) -> textured (ECE_Buzzy.sprite b) ->
  (0 <= sf.ux windowSize)%Z -> (0 <= sf.uy windowSize)%Z ->
  0 <= boxFracW -> 0 <= boxFracH ->
  let targetW := to_float (sf.ux windowSize) * boxFracW in
  let targetH := to_float (sf.uy windowSize) * boxFracH in
  let e' := ECE_Enemy.scaleForWindow windowSize boxFracW boxFracH e in
  let b' := ECE_Buzzy.scaleForWindow windowSize boxFracW boxFracH b in
  (sf.width (ECE_Enemy.getGlobalBounds e') <= targetW
   /\ sf.height (ECE_Enemy.getGlobalBounds e') <= targetH
   /\ (sf.width (ECE_Enemy.getGlobalBounds e') == targetW
       \/ sf.height (ECE_Enemy.getGlobalBounds e') == targetH)
   /\ sf.x (sf.scale (ECE_Enemy.sprite e')) = sf.y (sf.scale (ECE_Enemy.sprite e'))
   /\ 0 <= sf.x (sf.scale (ECE_Enemy.sprite e')))
  /\ (sf.width (ECE_Buzzy.getGlobalBounds b') <= targetW
      /\ sf.height (ECE_Buzzy.getGlobalBounds b') <= targetH
      /\ (sf.width (ECE_Buzzy.getGlobalBounds b') == targetW
          \/ sf.height (ECE_Buzzy.getGlobalBounds b') == targetH)
      /\ sf.x (sf.scale (ECE_Buzzy.sprite b')) = sf.y (sf.scale (ECE_Buzzy.sprite b'))
      /\ 0 <= sf.x (sf.scale (ECE_Buzzy.sprite b'))).
Proof.
  intros Hte Htb HW HH Hfw Hfh targetW targetH e' b'.
  assert (HtW : 0 <= targetW)
    by (apply Qmult_le_0_compat; [apply inject_Z_nonneg|]; assumption).
  assert (HtH : 0 <= targetH)
    by (apply Qmult_le_0_compat; [apply inject_Z_nonneg|]; assumption).
  split.
  - destruct (scaled_to_box (ECE_Enemy.sprite e) targetW targetH Hte HtW HtH)
      as (H1 & H2 & H3 & H4).
    repeat split; [exact H1|exact H2|exact H3|exact H4].
  - destruct (scaled_to_box (ECE_Buzzy.sprite b) targetW targetH Htb HtW HtH)
      as (H1 & H2 & H3 & H4).
    repeat split; [exact H1|exact H2|exact H3|exact H4].
Qed.

Lemma scaleForWindow_fits_witness :
  let e' := ECE_Enemy.scaleForWindow (sf.getSize demoWindow) (1 # 10) (1 # 10)
              (ECE_Enemy.new demoTexture) in
  let b' := ECE_Buzzy.scaleForWindow (sf.getSize demoWindow) (1 # 10) (1 # 10)
              (ECE_Buzzy.new demoTexture) in
  (sf.width (ECE_Enemy.getGlobalBounds e') <= to_float 1920 * (1 # 10)
   /\ sf.height (ECE_Enemy.getGlobalBounds e') <= to_float 1080 * (1 # 10)
   /\ (sf.width (ECE_Enemy.getGlobalBounds e') == to_float 1920 * (1 # 10)
       \/ sf.height (ECE_Enemy.getGlobalBounds e') == to_float 1080 * (1 # 10))
   /\ sf.x (sf.scale (ECE_Enemy.sprite e')) = sf.y (sf.scale (ECE_Enemy.sprite e'))
   /\ 0 <= sf.x (sf.scale (ECE_Enemy.sprite e')))
  /\ (sf.width (ECE_Buzzy.getGlobalBounds b') <= to_float 1920 * (1 # 10)
      /\ sf.height (ECE_Buzzy.getGlobalBounds b') <= to_float 1080 * (1 # 10)
      /\ (sf.width (ECE_Buzzy.getGlobalBounds b') == to_float 1920 * (1 # 10)
          \/ sf.height (ECE_Buzzy.getGlobalBounds b') == to_float 1080 * (1 # 10))
      /\ sf.x (sf.scale (ECE_Buzzy.sprite b')) = sf.y (sf.scale (ECE_Buzzy.sprite b'))
      /\ 0 <= sf.x (sf.scale (ECE_Buzzy.sprite b'))).
Proof.
  apply (scaleForWindow_fits (sf.getSize demoWindow) (1 # 10) (1 # 10)
           (ECE_Enemy.new demoTexture) (ECE_Buzzy.new demoTexture));
    try (split; reflexivity); vm_compute; congruence.
Defined.

(** X3.  A laser is a 6 x 18 bolt around its position: for a blast built
    from a loaded texture and then only moved, the global bounds are
    (x - 3, y - 9, 6, 18), so [isOffScreen] answers true exactly when the
    bolt is wholly above the window ([y + 9 < 0]) or wholly below it
    ([y - 9 > windowHeight]). *)
Theorem bolt_bounds
    (tex : sf.Texture) (fromPlayer : bool) (l : ECE_LaserBlast.t)
    (windowHeight : Q) :
  (0 < sf.ux (sf.texSize tex))%Z -> (0 < sf.uy (sf.texSize tex))%Z ->
  ECE_LaserBlast.sprite l
  = sf.setPosition (ECE_LaserBlast.getPosition l)
      (ECE_LaserBlast.sprite (ECE_LaserBlast.new tex fromPlayer)) ->
  let gb := ECE_LaserBlast.getGlobalBounds l in
  let p := ECE_LaserBlast.getPosition l in
  sf.left gb == sf.x p - 3 /\ sf.top gb == sf.y p - 9
  /\ sf.width gb == 6 /\ sf.height gb == 18
  /\ (ECE_LaserBlast.isOffScreen windowHeight l = true
      <-> sf.y p + 9 < 0 \/ windowHeight < sf.y p - 9).
Proof.
  intros Htw Hth Hs gb p.
  pose proof (inject_Z_pos _ Htw) as Hw. pose proof (inject_Z_pos _ Hth) as Hh.
  assert (Hsx : 0 <= 6 / inject_Z (sf.ux (sf.texSize tex)))
    by (apply Qle_shift_div_l; [exact Hw|lra]).
  assert (Hsy : 0 <= 18 / inject_Z (sf.uy (sf.texSize tex)))
    by (apply Qle_shift_div_l; [exact Hh|lra]).
  assert (Hbounds : sf.left gb == sf.x p - 3 /\ sf.top gb == sf.y p - 9
                    /\ sf.width gb == 6 /\ sf.height gb == 18).
  { unfold gb, ECE_LaserBlast.getGlobalBounds. rewrite Hs. fold p.
    match goal with
    | |- context [sf.getGlobalBounds ?s] =>
        destruct (bounds_of_scaled s) as (Hl & Ht & Hgw & Hgh);
        [cbn; rewrite Z.abs_eq by lia; exact Hsx
        |cbn; rewrite Z.abs_eq by lia; exact Hsy|];
        set (g := sf.getGlobalBounds s) in *; clearbody g
    end.
    cbn [ECE_LaserBlast.new ECE_LaserBlast.setScale ECE_LaserBlast.setOrigin
         ECE_LaserBlast.sprite ECE_LaserBlast.getLocalBounds sf.getLocalBounds
         sf.setPosition sf.setScale sf.setOrigin sf.newSprite sf.position
         sf.origin sf.scale sf.texRect sf.x sf.y sf.width sf.height]
      in Hl, Ht, Hgw, Hgh.
    rewrite !Z.abs_eq in Hl, Ht, Hgw, Hgh by lia.
    set (w := inject_Z (sf.ux (sf.texSize tex))) in *.
    set (h := inject_Z (sf.uy (sf.texSize tex))) in *.
    assert (Ha : 6 / w * w == 6) by (field; lra).
    assert (Hb : 18 / h * h == 18) by (field; lra).
    assert (Ha' : w / 2 * (6 / w) == 3) by (field; lra).
    assert (Hb' : h / 2 * (18 / h) == 9) by (field; lra).
    repeat split; lra. }
  destruct Hbounds as (Hl & Ht & Hgw & Hgh).
  repeat split; try assumption.
  - unfold ECE_LaserBlast.isOffScreen. fold gb. intros Hoff.
    apply Bool.orb_true_iff in Hoff as [Hoff|Hoff]; apply Qltb_lt in Hoff;
      [left|right]; lra.
  - unfold ECE_LaserBlast.isOffScreen. fold gb. intros Hoff.
    apply Bool.orb_true_iff. rewrite !Qltb_lt.
    destruct Hoff; [left|right]; lra.
Qed.

Lemma bolt_bounds_witness :
  let l := ECE_LaserBlast.update (1 # 2) demoShot in
  let gb := ECE_LaserBlast.getGlobalBounds l in
  let p := ECE_LaserBlast.getPosition l in
  sf.left gb == sf.x p - 3 /\ sf.top gb == sf.y p - 9
  /\ sf.width gb == 6 /\ sf.height gb == 18
  /\ (ECE_LaserBlast.isOffScreen 1080 l = true
      <-> sf.y p + 9 < 0 \/ 1080 < sf.y p - 9).
Proof.
  apply (bolt_bounds demoTexture true
           (ECE_LaserBlast.update (1 # 2) demoShot) 1080);
    reflexivity.
Defined.

Lemma update_clamped
    (leftPressed rightPressed : bool) (dt windowWidth : Q) (b : ECE_Buzzy.t) :
  sf.width (ECE_Buzzy.getGlobalBounds b) <= windowWidth ->
  let b' := ECE_Buzzy.update leftPressed rightPressed dt windowWidth b in
  sf.width (ECE_Buzzy.getGlobalBounds b') / 2 <= sf.x (ECE_Buzzy.getPosition b')
  /\ sf.x (ECE_Buzzy.getPosition b')
     <= windowWidth - sf.width (ECE_Buzzy.getGlobalBounds b') / 2.
Proof.
  intros Hfit b'.
  assert (Hw : sf.width (ECE_Buzzy.getGlobalBounds b')
               == sf.width (ECE_Buzzy.getGlobalBounds b))
    by apply width_of_setPosition.
  assert (Hx : sf.x (ECE_Buzzy.getPosition b')
               = std_clamp
                   (sf.x (ECE_Buzzy.getPosition b)
                    + (let dx := 0 in
                       let dx := if leftPressed
                                 then dx - ECE_Buzzy.m_speed b * dt else dx in
                       if rightPressed
                       then dx + ECE_Buzzy.m_speed b * dt else dx))
                   (sf.width (ECE_Buzzy.getGlobalBounds b) / 2)
                   (windowWidth - sf.width (ECE_Buzzy.getGlobalBounds b) / 2))
    by reflexivity.
  rewrite Hx. clear Hx. qhalf.
  match goal with
  | |- context [std_clamp ?v ?lo ?hi] =>
      destruct (std_clamp_bounds v lo hi) as [Hlo Hhi]; [lra|];
      set (c := std_clamp v lo hi) in *; clearbody c
  end.
  split; lra.
Qed.

(** A centred sprite whose position keeps half a width away from both
    sides of the window lies inside the window. *)
Lemma centred_inside (s : sf.Sprite) (windowWidth : Q) :
  centred s ->
  0 <= sf.x (sf.scale s) -> 0 <= sf.y (sf.scale s) ->
  sf.width (sf.getGlobalBounds s) / 2 <= sf.x (sf.position s) ->
  sf.x (sf.position s) <= windowWidth - sf.width (sf.getGlobalBounds s) / 2 ->
  0 <= sf.left (sf.getGlobalBounds s)
  /\ sf.left (sf.getGlobalBounds s) + sf.width (sf.getGlobalBounds s)
     <= windowWidth.
Proof.
  intros Hc Hsx Hsy Hlo Hhi.
  destruct (bounds_of_centred s Hc Hsx Hsy) as [Hl _].
  qhalf. split; lra.
Qed.

(** X4.  The whole player sprite stays inside the window horizontally:
    for a player whose origin is the centre of its texture and whose scale
    is not negative (as the constructor and [scaleForWindow] leave it),
    and whose global width is at most [windowWidth], after
    [ECE_Buzzy::update] the left edge of the global bounds is at least 0
    and the right edge at most [windowWidth]; the update keeps origin and
    scale, so this holds pass after pass. *)
Theorem buzzy_sprite_inside_window
    (leftPressed rightPressed : bool) (dt windowWidth : Q) (b : ECE_Buzzy.t) :
  centred (ECE_Buzzy.sprite b) ->
  0 <= sf.x (sf.scale (ECE_Buzzy.sprite b)) ->
  0 <= sf.y (sf.scale (ECE_Buzzy.sprite b)) ->
  sf.width (ECE_Buzzy.getGlobalBounds b) <= windowWidth ->
  let b' := ECE_Buzzy.update leftPressed rightPressed dt windowWidth b in
  let gb := ECE_Buzzy.getGlobalBounds b' in
  0 <= sf.left gb /\ sf.left gb + sf.width gb <= windowWidth
  /\ centred (ECE_Buzzy.sprite b')
  /\ sf.scale (ECE_Buzzy.sprite b') = sf.scale (ECE_Buzzy.sprite b).
Proof.
  intros Hc Hsx Hsy Hfit b' gb.
  assert (Hc' : centred (ECE_Buzzy.sprite b')) by exact Hc.
  destruct (update_clamped leftPressed rightPressed dt windowWidth b Hfit)
    as [Hlo Hhi].
  fold b' in Hlo, Hhi.
  destruct (centred_inside (ECE_Buzzy.sprite b') windowWidth Hc' Hsx Hsy Hlo Hhi)
    as [Hleft Hright].
  split; [exact Hleft|]. split; [exact Hright|]. split; [exact Hc'|reflexivity].
Qed.

Lemma buzzy_sprite_inside_window_witness :
  let b' := ECE_Buzzy.update true false 10 1920 demoBuzzy in
  let gb := ECE_Buzzy.getGlobalBounds b' in
  0 <= sf.left gb /\ sf.left gb + sf.width gb <= 1920
  /\ centred (ECE_Buzzy.sprite b')
  /\ sf.scale (ECE_Buzzy.sprite b') = sf.scale (ECE_Buzzy.sprite demoBuzzy).
Proof.
  apply (buzzy_sprite_inside_window true false 10 1920 demoBuzzy);
    try reflexivity; vm_compute; congruence.
Defined.

(** ** Modal screens and events *)

Lemma polled_isOpen (events : list sf.Event) :
  forall w, sf.isOpen (polled events w) = sf.isOpen w.
Proof.
  unfold polled. induction events as [|e rest IH]; intros w; [reflexivity|].
  cbn [fold_left]. rewrite IH. destruct e; reflexivity.
Qed.

Lemma polled_no_resize (events : list sf.Event) :
  forall w, existsb isResized events = false -> polled events w = w.
Proof.
  unfold polled. induction events as [|e rest IH]; intros w Hn; [reflexivity|].
  cbn [existsb] in Hn. apply Bool.orb_false_iff in Hn as [He Hn].
  cbn [fold_left]. rewrite IH by exact Hn.
  destruct e; try reflexivity. discriminate.
Qed.

Lemma polled_app (events more : list sf.Event) (w : sf.RenderWindow) :
  polled (events ++ more) w = polled more (polled events w).
Proof. unfold polled. apply fold_left_app. Qed.

Lemma polled_close (events : list sf.Event) :
  forall w, polled events (sf.close w) = sf.close (polled events w).
Proof.
  unfold polled. induction events as [|e rest IH]; intros w; [reflexivity|].
  cbn [fold_left]. rewrite <- IH. destruct e; reflexivity.
Qed.

Lemma throughFirst_no_resize (p : sf.Event -> bool) (events : list sf.Event) :
  existsb isResized events = false ->
  existsb isResized (throughFirst p events) = false.
Proof.
  induction events as [|e rest IH]; [reflexivity|]. cbn [existsb throughFirst].
  intros Hn. apply Bool.orb_false_iff in Hn as [He Hn].
  destruct (p e); cbn [existsb]; rewrite He; [reflexivity|]. cbn [orb]. auto.
Qed.

Lemma throughFirst_none (p : sf.Event -> bool) (events : list sf.Event) :
  find p events = None -> throughFirst p events = events.
Proof.
  induction events as [|e rest IH]; [reflexivity|]. cbn [find throughFirst].
  destruct (p e); [discriminate|]. intros H. now rewrite IH.
Qed.

Lemma throughFirst_app_none (p : sf.Event -> bool) (events more : list sf.Event) :
  find p events = None ->
  throughFirst p (events ++ more) = events ++ throughFirst p more.
Proof.
  induction events as [|e rest IH]; [reflexivity|]. cbn [find throughFirst app].
  destruct (p e); [discriminate|]. intros H. now rewrite IH.
Qed.

Lemma throughFirst_app_some (p : sf.Event -> bool) (events more : list sf.Event)
    (e : sf.Event) :
  find p events = Some e ->
  throughFirst p (events ++ more) = throughFirst p events.
Proof.
  induction events as [|e0 rest IH]; [discriminate|].
  cbn [find throughFirst app]. destruct (p e0); [reflexivity|].
  intros H. now rewrite IH.
Qed.

(** The inner polling loop stops at the first event that decides; the
    window it leaves has seen every event up to that one. *)
Lemma modalPoll_first (events : list sf.Event) :
  forall w,
    modalPoll w events
    = let seen := polled (throughFirst isDecisive events) w in
      match find isDecisive events with
      | None => (seen, None)
      | Some (sf.KeyPressed sf.Enter) => (seen, Some true)
      | Some _ => (sf.close seen, Some false)
      end.
Proof.
  cbv zeta. induction events as [|e rest IH]; intros w; [reflexivity|].
  cbn [modalPoll find throughFirst].
  destruct e as [|[]|rw rh|]; cbn [isDecisive]; try reflexivity;
    rewrite IH; reflexivity.
Qed.

Lemma find_app_none {A : Type} (p : A -> bool) (l l' : list A) :
  find p l = None -> find p (l ++ l') = find p l'.
Proof.
  induction l as [|a l IH]; [reflexivity|]. cbn. destruct (p a); [discriminate|auto].
Qed.

Lemma find_app_some {A : Type} (p : A -> bool) (l l' : list A) (a : A) :
  find p l = Some a -> find p (l ++ l') = Some a.
Proof.
  induction l as [|a0 l IH]; [discriminate|]. cbn. destruct (p a0); auto.
Qed.

Lemma modalScreen_concat (polls : list (list sf.Event)) :
  forall w, sf.isOpen w = true ->
            modalScreen w polls = modalPoll w (concat polls).
Proof.
  induction polls as [|events rest IH]; intros w Hopen; cbn [modalScreen concat].
  - rewrite Hopen. reflexivity.
  - rewrite Hopen. cbn [negb].
    rewrite (modalPoll_first (events ++ concat rest) w).
    rewrite (modalPoll_first events w). cbv zeta.
    destruct (find isDecisive events) as [e|] eqn:Hfind.
    + rewrite (find_app_some _ _ _ _ Hfind).
      rewrite (throughFirst_app_some _ _ _ _ Hfind).
      destruct e as [|[]|rw rh|]; reflexivity.
    + rewrite (find_app_none _ _ _ Hfind).
      rewrite (throughFirst_app_none _ _ _ Hfind), polled_app.
      rewrite (throughFirst_none _ _ Hfind).
      rewrite IH by (rewrite polled_isOpen; exact Hopen).
      apply modalPoll_first.
Qed.

Lemma modalScreen_closed (w : sf.RenderWindow) (polls : list (list sf.Event)) :
  sf.isOpen w = false -> modalScreen w polls = (w, Some false).
Proof. intros Hc. destruct polls; cbn [modalScreen]; rewrite Hc; reflexivity. Qed.

Lemma modalScreen_open (w : sf.RenderWindow) (polls : list (list sf.Event)) :
  sf.isOpen w = true ->
  modalScreen w polls
  = let seen := polled (throughFirst isDecisive (concat polls)) w in
    match find isDecisive (concat polls) with
    | None => (seen, None)
    | Some (sf.KeyPressed sf.Enter) => (seen, Some true)
    | Some _ => (sf.close seen, Some false)
    end.
Proof.
  intros Ho. rewrite modalScreen_concat by exact Ho. apply modalPoll_first.
Qed.

Lemma modalScreen_true (w w' : sf.RenderWindow) (polls : list (list sf.Event)) :
  modalScreen w polls = (w', Some true) ->
  w' = polled (throughFirst isDecisive (concat polls)) w
  /\ sf.isOpen w' = true.
Proof.
  destruct (sf.isOpen w) eqn:Ho.
  - rewrite (modalScreen_open w polls Ho). cbv zeta.
    destruct (find isDecisive (concat polls)) as [[|[]|rw rh|]|];
      intros H; inversion H; subst; split; try reflexivity;
      rewrite polled_isOpen; exact Ho.
  - rewrite modalScreen_closed by exact Ho. discriminate.
Qed.

(** X5.  The modal screens ([startScreen], [endScreen], [winScreen]).  On
    a closed window the screen answers false at once.  On an open window
    only the first Closed, Escape or Enter event counts, however the
    events are spread over the passes of the polling loop: Enter answers
    true and leaves the window open, Closed and Escape close the window
    and answer false; with no such event the screen is still waiting.
    The window has taken the size of the last Resized event polled up to
    the deciding event, and is otherwise untouched: with no Resized event
    in the queue it is the window the screen was given.  So an answer of
    true comes with an open window, and an answer of false with a closed
    one. *)
Theorem modal_screen_outcome (w : sf.RenderWindow) (polls : list (list sf.Event)) :
  let seen := polled (throughFirst isDecisive (concat polls)) w in
  (sf.isOpen w = false -> modalScreen w polls = (w, Some false))
  /\ (sf.isOpen w = true ->
      modalScreen w polls
      = match find isDecisive (concat polls) with
        | None => (seen, None)
        | Some (sf.KeyPressed sf.Enter) => (seen, Some true)
        | Some _ => (sf.close seen, Some false)
        end)
  /\ (sf.isOpen seen = sf.isOpen w
      /\ (existsb isResized (concat polls) = false -> seen = w))
  /\ (sf.isOpen w = true -> existsb isResized (concat polls) = false ->
      modalScreen w polls
      = match find isDecisive (concat polls) with
        | None => (w, None)
        | Some (sf.KeyPressed sf.Enter) => (w, Some true)
        | Some _ => (sf.close w, Some false)
        end)
  /\ (forall w', modalScreen w polls = (w', Some true) ->
                 w' = seen /\ sf.isOpen w' = true)
  /\ (forall w', modalScreen w polls = (w', Some false) -> sf.isOpen w' = false)
  /\ (forall w', modalScreen w polls = (w', None) ->
                 w' = seen /\ sf.isOpen w' = true).
Proof.
  intros seen.
  assert (Hseen : sf.isOpen seen = sf.isOpen w) by apply polled_isOpen.
  assert (Hsame : existsb isResized (concat polls) = false -> seen = w).
  { intros Hn. apply polled_no_resize, throughFirst_no_resize, Hn. }
  assert (Hopen : sf.isOpen w = true ->
                  modalScreen w polls
                  = match find isDecisive (concat polls) with
                    | None => (seen, None)
                    | Some (sf.KeyPressed sf.Enter) => (seen, Some true)
                    | Some _ => (sf.close seen, Some false)
                    end)
    by apply modalScreen_open.
  split; [apply modalScreen_closed|]. split; [exact Hopen|].
  split; [split; assumption|].
  split; [intros Ho Hn; rewrite (Hopen Ho), (Hsame Hn); reflexivity|].
  destruct (sf.isOpen w) eqn:Ho.
  - rewrite (Hopen eq_refl).
    destruct (find isDecisive (concat polls)) as [[|[]|rw rh|]|];
      (split; [|split]); intros w' H; inversion H; subst; auto.
  - rewrite (modalScreen_closed w polls Ho).
    (split; [|split]); intros w' H; inversion H; subst; auto.
Qed.

Lemma handleEvents_closed (w : sf.RenderWindow) (b : ECE_Buzzy.t)
    (shots : list ECE_LaserBlast.t) (tex : sf.Texture) (events : list sf.Event) :
  sf.isOpen w = false -> handleEvents w b shots tex events = (w, shots).
Proof.
  intros Hc. destruct events; cbn [handleEvents]; [|rewrite Hc]; reflexivity.
Qed.

Lemma handleEvents_quiet (events : list sf.Event) :
  forall (w : sf.RenderWindow) (b : ECE_Buzzy.t)
         (shots : list ECE_LaserBlast.t) (tex : sf.Texture),
    sf.isOpen w = true ->
    existsb isClosing events = false ->
    handleEvents w b shots tex events
    = (polled events w,
       shots ++ repeat (newPlayerShot b tex)
                       (length (filter isSpace events))).
Proof.
  induction events as [|e rest IH]; intros w b shots tex Ho Hq.
  - cbn. now rewrite app_nil_r.
  - cbn [existsb] in Hq. apply Bool.orb_false_iff in Hq as [He Hq].
    cbn [handleEvents]. rewrite Ho. cbn [negb].
    destruct e as [|[]|rw rh|]; try discriminate; cbn [filter isSpace];
      rewrite IH by assumption; try reflexivity.
    cbn [length repeat]. rewrite <- app_assoc. reflexivity.
Qed.

Lemma handleEvents_closing (pre : list sf.Event) (e : sf.Event)
    (post : list sf.Event) :
  forall (w : sf.RenderWindow) (b : ECE_Buzzy.t)
         (shots : list ECE_LaserBlast.t) (tex : sf.Texture),
    sf.isOpen w = true ->
    existsb isClosing pre = false ->
    isClosing e = true ->
    handleEvents w b shots tex (pre ++ e :: post)
    = (sf.close (polled pre w),
       shots ++ repeat (newPlayerShot b tex)
                       (length (filter isSpace pre))).
Proof.
  induction pre as [|e0 pre IH]; intros w b shots tex Ho Hq He.
  - cbn [app handleEvents]. rewrite Ho. cbn [negb].
    destruct e as [|[]|rw rh|]; try discriminate;
      rewrite handleEvents_closed by reflexivity; cbn; now rewrite app_nil_r.
  - cbn [existsb] in Hq. apply Bool.orb_false_iff in Hq as [He0 Hq].
    cbn [app handleEvents]. rewrite Ho. cbn [negb].
    destruct e0 as [|[]|rw rh|]; try discriminate; cbn [filter isSpace];
      rewrite IH by assumption; try reflexivity.
    cbn [length repeat]. rewrite <- app_assoc. reflexivity.
Qed.

(** X6.  [handleEvents] and the event queue.  On a closed window nothing
    happens.  On an open window with no Closed or Escape event in the
    queue the window stays open and one shot is appended per Space
    press.  With a Closed or Escape event the window is closed at the
    first one, and only the Space presses before it fire: the events after
    it are never seen.  The shots already in flight are never touched.
    The window has taken the size of the last Resized event polled and is
    otherwise untouched: with no Resized event among the events polled it
    is the window that was given (closed, when a closing event came). *)
Theorem handleEvents_outcome
    (w : sf.RenderWindow) (b : ECE_Buzzy.t) (shots : list ECE_LaserBlast.t)
    (tex : sf.Texture) :
  (forall events,
      sf.isOpen w = false -> handleEvents w b shots tex events = (w, shots))
  /\ (forall events,
        sf.isOpen w = true -> existsb isClosing events = false ->
        handleEvents w b shots tex events
        = (polled events w,
           shots ++ repeat (newPlayerShot b tex)
                           (length (filter isSpace events))))
  /\ (forall pre e post,
        sf.isOpen w = true -> existsb isClosing pre = false ->
        isClosing e = true ->
        handleEvents w b shots tex (pre ++ e :: post)
        = (sf.close (polled pre w),
           shots ++ repeat (newPlayerShot b tex)
                           (length (filter isSpace pre))))
  /\ (forall events,
        sf.isOpen (polled events w) = sf.isOpen w
        /\ (existsb isResized events = false -> polled events w = w))
  /\ (forall events,
        sf.isOpen w = true -> existsb isClosing events = false ->
        existsb isResized events = false ->
        handleEvents w b shots tex events
        = (w, shots ++ repeat (newPlayerShot b tex)
                              (length (filter isSpace events))))
  /\ (forall pre e post,
        sf.isOpen w = true -> existsb isClosing pre = false ->
        isClosing e = true -> existsb isResized pre = false ->
        handleEvents w b shots tex (pre ++ e :: post)
        = (sf.close w, shots ++ repeat (newPlayerShot b tex)
                                       (length (filter isSpace pre)))).
Proof.
  split; [|split; [|split; [|split; [|split]]]].
  - intros events. apply handleEvents_closed.
  - intros events. apply handleEvents_quiet.
  - intros pre e post. apply handleEvents_closing.
  - intros events. split; [apply polled_isOpen|apply polled_no_resize].
  - intros events Ho Hq Hn. rewrite handleEvents_quiet by assumption.
    rewrite polled_no_resize by exact Hn. reflexivity.
  - intros pre e post Ho Hq He Hn. rewrite handleEvents_closing by assumption.
    rewrite polled_no_resize by exact Hn. reflexivity.
Qed.

(** ** A pass of the main loop, field by field *)

Lemma frameUpdate_fields (tex : allTextures) (s : Round) (f : FrameInput) :
  let he := handleEvents (window s) (buzzy s) (playerShots s) (laserTex tex)
                         (events f) in
  let spawned :=
    if Qle_bool enemyShotsInterval (shotsElapsed f)
    then spawnEnemyLaser (rnd f) (enemyShots s) (enemies s) (laserTex tex)
    else enemyShots s in
  let width := to_float (sf.ux (sf.getSize (fst he))) in
  let height := to_float (sf.uy (sf.getSize (fst he))) in
  let ue := updateEnemies (enemies s) (dt f) width (enemySpeedX s) (dir s)
                          (stepUp s) in
  let cp := checkPlayerShotCollisions (updateShotList (snd he) (dt f) height)
                                      (fst ue) in
  frameUpdate tex s f
  = mkRound (fst he)
            (updateBuzzy (leftPressed f) (rightPressed f) (buzzy s) (dt f) width)
            (fst cp) (updateShotList spawned (dt f) height) (snd cp)
            (enemySpeedX s) (snd ue) (stepUp s).
Proof.
  cbv zeta. unfold frameUpdate, updateShots.
  destruct (handleEvents _ _ _ _ _) as [w1 shots1]. cbn [fst snd].
  destruct (updateEnemies _ _ _ _ _ _) as [es1 dir1]. cbn [fst snd].
  destruct (checkPlayerShotCollisions _ _) as [shots3 es2]. reflexivity.
Qed.

Lemma resultState_frame (tex : allTextures) (bg : sf.Sprite) (s : Round)
    (f : FrameInput) :
  let u := frameUpdate tex s f in
  resultState (frame tex bg s f)
  = mkRound (window u) (buzzy u) (playerShots u)
            (snd (checkEnemyShotCollisions (enemyShots u) (buzzy u)))
            (enemies u) (enemySpeedX u) (dir u) (stepUp u).
Proof.
  cbv zeta. unfold frame. rewrite frameChecks_cases.
  destruct (_ || _); [reflexivity|].
  destruct (checkWin _); reflexivity.
Qed.

(** A relation that every pass respects holds between the start of the
    round and each of its later states. *)
Lemma roundStates_related (tex : allTextures) (bg : sf.Sprite)
    (R : Round -> Round -> Prop) :
  (forall a b c, R a b -> R b c -> R a c) ->
  (forall s f, R s (resultState (frame tex bg s f))) ->
  forall frames s s', In s' (roundStates tex bg s frames) -> R s s'.
Proof.
  intros Htrans Hstep. induction frames as [|f rest IH]; intros s s' Hin;
    cbn [roundStates] in Hin.
  - destruct (negb (sf.isOpen (window s))); destruct Hin.
  - destruct (negb (sf.isOpen (window s))); [destruct Hin|].
    pose proof (Hstep s f) as Hone.
    destruct (frame tex bg s f) as [s1|s1|s1 drawn]; cbn [resultState] in Hone.
    + destruct Hin as [<-|[]]. exact Hone.
    + destruct Hin as [<-|[]]. exact Hone.
    + destruct Hin as [<-|Hin]; [exact Hone|]. eauto.
Qed.

Lemma handleEvents_closes (events : list sf.Event) :
  forall (w : sf.RenderWindow) (b : ECE_Buzzy.t)
         (shots : list ECE_LaserBlast.t) (tex : sf.Texture),
    existsb isClosing events = true ->
    sf.isOpen (fst (handleEvents w b shots tex events)) = false.
Proof.
  induction events as [|e rest IH]; intros w b shots tex Hc; [discriminate|].
  cbn [handleEvents]. destruct (sf.isOpen w) eqn:Ho; cbn [negb fst]; [|exact Ho].
  cbn [existsb] in Hc.
  destruct (isClosing e) eqn:He.
  - destruct e as [|[]|rw rh|]; try discriminate;
      rewrite handleEvents_closed by reflexivity; reflexivity.
  - cbn [orb] in Hc. apply IH. exact Hc.
Qed.

Lemma mainLoop_closed (tex : allTextures) (endS winS bg : sf.Sprite) (s : Round)
    (frames : list FrameInput) (endPolls : list (list sf.Event)) :
  sf.isOpen (window s) = false ->
  mainLoop tex endS winS bg s frames endPolls = Some Quit.
Proof. intros Hc. destruct frames; cbn [mainLoop]; rewrite Hc; reflexivity. Qed.

(** X7.  Closing the window ends the round with [Quit].  When the events
    of a pass hold a Closed or an Escape event, the pass is still carried
    out, but whatever it leads to (the lose screen, the win screen or a
    further pass) [playGame]'s loop returns [Quit]: the modal screen
    answers false on a closed window and the loop condition fails. *)
Theorem closing_the_window_quits
    (tex : allTextures) (endS winS bg : sf.Sprite) (s : Round) (f : FrameInput)
    (rest : list FrameInput) (endPolls : list (list sf.Event)) :
  sf.isOpen (window s) = true ->
  existsb isClosing (events f) = true ->
  mainLoop tex endS winS bg s (f :: rest) endPolls = Some Quit.
Proof.
  intros Ho Hc. cbn [mainLoop]. rewrite Ho. cbn [negb].
  pose proof (resultState_frame tex bg s f) as Hstate. cbv zeta in Hstate.
  assert (Hw : sf.isOpen (window (resultState (frame tex bg s f))) = false).
  { rewrite Hstate. cbn [window].
    pose proof (frameUpdate_fields tex s f) as Hf. cbv zeta in Hf.
    rewrite Hf. cbn [window]. apply handleEvents_closes. exact Hc. }
  destruct (frame tex bg s f) as [s1|s1|s1 drawn]; cbn [resultState] in Hw.
  - unfold endScreen.
    rewrite (modalScreen_closed (window s1) endPolls Hw). reflexivity.
  - unfold endScreen.
    rewrite (modalScreen_closed (window s1) endPolls Hw). reflexivity.
  - apply mainLoop_closed. exact Hw.
Qed.

Lemma closing_the_window_quits_witness :
  sf.isOpen (window (initRound demoWindow demoTextures)) = true
  /\ mainLoop demoTextures (sf.newSprite demoTexture) (sf.newSprite demoTexture)
       (sf.newSprite demoTexture) (initRound demoWindow demoTextures)
       [mkFrameInput [sf.KeyPressed sf.Space; sf.Closed; sf.KeyPressed sf.Space]
                     0 0 (1 # 60) false false; demoTick]
       [[sf.KeyPressed sf.Enter]]
     = Some Quit.
Proof.
  split; [reflexivity|].
  apply closing_the_window_quits; reflexivity.
Defined.

(** ** What a round keeps *)

Lemma updateEnemies_dir
    (enemies : list ECE_Enemy.t) (dt windowWidth enemySpeedX : Q) (dir : Z)
    (stepUp : Q) :
  snd (updateEnemies enemies dt windowWidth enemySpeedX dir stepUp) = dir
  \/ snd (updateEnemies enemies dt windowWidth enemySpeedX dir stepUp)
     = int_mul dir (-1).
Proof.
  unfold updateEnemies. destruct enemies as [|e0 rest]; [now left|].
  destruct (swarmEdges (e0 :: rest) None) as [[l r]|]; [|now left].
  match goal with |- context [if ?c then _ else _] => destruct c end; auto.
Qed.

(** X8.  The settings of a round.  At the end of every pass of the main
    loop the swarm's speed and vertical step are those the round started
    with, and a direction that was +1 or -1 is still +1 or -1: [dir] only
    ever flips between the two. *)
Theorem round_keeps_settings
    (tex : allTextures) (bg : sf.Sprite) (s : Round) (frames : list FrameInput)
    (s' : Round) :
  In s' (roundStates tex bg s frames) ->
  enemySpeedX s' = enemySpeedX s
  /\ stepUp s' = stepUp s
  /\ ((dir s = 1 \/ dir s = -1)%Z -> (dir s' = 1 \/ dir s' = -1)%Z).
Proof.
  apply (roundStates_related tex bg
           (fun a b => enemySpeedX b = enemySpeedX a
                       /\ stepUp b = stepUp a
                       /\ ((dir a = 1 \/ dir a = -1)%Z ->
                           (dir b = 1 \/ dir b = -1)%Z))).
  - intros a b c (H1 & H2 & H4) (H1' & H2' & H4').
    repeat split; try congruence. auto.
  - intros a f. pose proof (resultState_frame tex bg a f) as Hs.
    cbv zeta in Hs. rewrite Hs. cbn [enemySpeedX stepUp dir].
    pose proof (frameUpdate_fields tex a f) as Hf. cbv zeta in Hf.
    rewrite Hf. cbn [enemySpeedX stepUp dir].
    split; [reflexivity|]. split; [reflexivity|].
    intros Hdir.
    match goal with
    | |- context [snd (updateEnemies ?es ?d ?w ?v ?dr ?st)] =>
        destruct (updateEnemies_dir es d w v dr st) as [-> | ->]
    end; [exact Hdir|].
    destruct Hdir as [-> | ->]; [right|left]; reflexivity.
Qed.

Lemma round_keeps_settings_witness :
  let s := initRound demoWindow demoTextures in
  let s' := resultState (frame demoTextures (sf.newSprite demoTexture) s
                               demoFrame) in
  In s' (roundStates demoTextures (sf.newSprite demoTexture) s
           [demoFrame; demoTick])
  /\ enemySpeedX s' = enemySpeedX s
  /\ stepUp s' = stepUp s
  /\ ((dir s = 1 \/ dir s = -1)%Z -> (dir s' = 1 \/ dir s' = -1)%Z).
Proof.
  intros s s'.
  assert (Hin : In s' (roundStates demoTextures (sf.newSprite demoTexture) s
                         [demoFrame; demoTick]))
    by (vm_compute; left; reflexivity).
  split; [exact Hin|].
  apply (round_keeps_settings demoTextures (sf.newSprite demoTexture) s
           [demoFrame; demoTick] s' Hin).
Defined.

Lemma alive_count_later (step : Q) (l l' : list ECE_Enemy.t) :
  Forall2 (enemyLater step) l l' ->
  (length (filter ECE_Enemy.isAlive l') <= length (filter ECE_Enemy.isAlive l))%nat.
Proof.
  induction 1 as [|e e' l l' (_ & Hal & _) Hall IH]; [constructor|].
  cbn [filter]. destruct (ECE_Enemy.isAlive e') eqn:Ha'.
  - rewrite (Hal eq_refl). cbn [length]. lia.
  - destruct (ECE_Enemy.isAlive e); cbn [length]; lia.
Qed.

(** X9.  The swarm never grows.  At the end of every pass the vector of
    enemies has the length it had at the start of the round (enemies are
    flagged, never erased), the number of alive enemies is at most what it
    was, and an enemy that is alive was alive all along. *)
Theorem swarm_never_grows
    (tex : allTextures) (bg : sf.Sprite) (s : Round) (frames : list FrameInput)
    (s' : Round) :
  In s' (roundStates tex bg s frames) ->
  length (enemies s') = length (enemies s)
  /\ (length (filter ECE_Enemy.isAlive (enemies s'))
      <= length (filter ECE_Enemy.isAlive (enemies s)))%nat
  /\ (forall i e, nth_error (enemies s) i = Some e ->
        exists e', nth_error (enemies s') i = Some e'
                   /\ (ECE_Enemy.isAlive e' = true -> ECE_Enemy.isAlive e = true)).
Proof.
  intros Hin.
  destruct (roundStates_enemyLater tex bg frames s s' Hin) as [Hall _].
  split; [symmetry; eapply Forall2_length; eauto|].
  split; [eapply alive_count_later; eauto|].
  intros i e Hi.
  destruct (Forall2_lookup _ _ _ Hall i e Hi) as (e' & Hi' & _ & Ha & _).
  eauto.
Qed.

Lemma swarm_never_grows_witness :
  let s := demoLastStand in
  let s' := resultState (frame demoTextures (sf.newSprite demoTexture) s
                               demoTick) in
  In s' (roundStates demoTextures (sf.newSprite demoTexture) s [demoTick])
  /\ length (enemies s') = length (enemies s)
  /\ (length (filter ECE_Enemy.isAlive (enemies s'))
      <= length (filter ECE_Enemy.isAlive (enemies s)))%nat
  /\ (forall i e, nth_error (enemies s) i = Some e ->
        exists e', nth_error (enemies s') i = Some e'
                   /\ (ECE_Enemy.isAlive e' = true -> ECE_Enemy.isAlive e = true)).
Proof.
  intros s s'.
  assert (Hin : In s' (roundStates demoTextures (sf.newSprite demoTexture) s
                         [demoTick]))
    by (vm_compute; left; reflexivity).
  split; [exact Hin|].
  apply (swarm_never_grows demoTextures (sf.newSprite demoTexture) s
           [demoTick] s' Hin).
Defined.

(** X10.  The player through a round.  At the end of every pass the
    player's sprite is the one the round started with, moved along x only:
    same height on the screen, same scale, origin and texture, same
    speed, hence the same global width.  And if the player was set up
    with a centred origin and a scale that is not negative, then at the
    end of every pass in which the window, at the size it has in that
    pass, is at least as wide as the sprite, the whole sprite is inside
    the window horizontally. *)
Theorem player_through_round
    (tex : allTextures) (bg : sf.Sprite) (s : Round) (frames : list FrameInput)
    (s' : Round) :
  In s' (roundStates tex bg s frames) ->
  ECE_Buzzy.sprite (buzzy s')
  = sf.setPosition
      (sf.mkVector2f (sf.x (ECE_Buzzy.getPosition (buzzy s')))
                     (sf.y (ECE_Buzzy.getPosition (buzzy s))))
      (ECE_Buzzy.sprite (buzzy s))
  /\ ECE_Buzzy.m_speed (buzzy s') = ECE_Buzzy.m_speed (buzzy s)
  /\ sf.width (ECE_Buzzy.getGlobalBounds (buzzy s'))
     == sf.width (ECE_Buzzy.getGlobalBounds (buzzy s))
  /\ (centred (ECE_Buzzy.sprite (buzzy s)) ->
      0 <= sf.x (sf.scale (ECE_Buzzy.sprite (buzzy s))) ->
      0 <= sf.y (sf.scale (ECE_Buzzy.sprite (buzzy s))) ->
      sf.width (ECE_Buzzy.getGlobalBounds (buzzy s))
      <= to_float (sf.ux (sf.getSize (window s'))) ->
      0 <= sf.left (ECE_Buzzy.getGlobalBounds (buzzy s'))
      /\ sf.left (ECE_Buzzy.getGlobalBounds (buzzy s'))
         + sf.width (ECE_Buzzy.getGlobalBounds (buzzy s'))
         <= to_float (sf.ux (sf.getSize (window s')))).
Proof.
  intros Hin.
  assert (H : (ECE_Buzzy.sprite (buzzy s')
               = sf.setPosition
                   (sf.mkVector2f (sf.x (ECE_Buzzy.getPosition (buzzy s')))
                                  (sf.y (ECE_Buzzy.getPosition (buzzy s))))
                   (ECE_Buzzy.sprite (buzzy s))
               /\ ECE_Buzzy.m_speed (buzzy s') = ECE_Buzzy.m_speed (buzzy s))
              /\ (centred (ECE_Buzzy.sprite (buzzy s)) ->
                  0 <= sf.x (sf.scale (ECE_Buzzy.sprite (buzzy s))) ->
                  0 <= sf.y (sf.scale (ECE_Buzzy.sprite (buzzy s))) ->
                  sf.width (ECE_Buzzy.getGlobalBounds (buzzy s))
                  <= to_float (sf.ux (sf.getSize (window s'))) ->
                  0 <= sf.left (ECE_Buzzy.getGlobalBounds (buzzy s'))
                  /\ sf.left (ECE_Buzzy.getGlobalBounds (buzzy s'))
                     + sf.width (ECE_Buzzy.getGlobalBounds (buzzy s'))
                     <= to_float (sf.ux (sf.getSize (window s'))))).
  { revert Hin.
    apply (roundStates_related tex bg
             (fun a b =>
                (ECE_Buzzy.sprite (buzzy b)
                 = sf.setPosition
                     (sf.mkVector2f (sf.x (ECE_Buzzy.getPosition (buzzy b)))
                                    (sf.y (ECE_Buzzy.getPosition (buzzy a))))
                     (ECE_Buzzy.sprite (buzzy a))
                 /\ ECE_Buzzy.m_speed (buzzy b) = ECE_Buzzy.m_speed (buzzy a))
                /\ (centred (ECE_Buzzy.sprite (buzzy a)) ->
                    0 <= sf.x (sf.scale (ECE_Buzzy.sprite (buzzy a))) ->
                    0 <= sf.y (sf.scale (ECE_Buzzy.sprite (buzzy a))) ->
                    sf.width (ECE_Buzzy.getGlobalBounds (buzzy a))
                    <= to_float (sf.ux (sf.getSize (window b))) ->
                    0 <= sf.left (ECE_Buzzy.getGlobalBounds (buzzy b))
                    /\ sf.left (ECE_Buzzy.getGlobalBounds (buzzy b))
                       + sf.width (ECE_Buzzy.getGlobalBounds (buzzy b))
                       <= to_float (sf.ux (sf.getSize (window b)))))).
    - intros a b c [(Hs1 & Hm1) Hfit1] [(Hs2 & Hm2) Hfit2].
      assert (Hy : sf.y (ECE_Buzzy.getPosition (buzzy b))
                   = sf.y (ECE_Buzzy.getPosition (buzzy a)))
        by (unfold ECE_Buzzy.getPosition, sf.getPosition; rewrite Hs1;
            reflexivity).
      split; [split; [|congruence]|].
      + rewrite Hs2, Hs1, Hy. reflexivity.
      + intros Hc Hsx Hsy Hw.
        assert (Hwb : sf.width (ECE_Buzzy.getGlobalBounds (buzzy b))
                      == sf.width (ECE_Buzzy.getGlobalBounds (buzzy a)))
          by (unfold ECE_Buzzy.getGlobalBounds; rewrite Hs1;
              apply width_of_setPosition).
        apply Hfit2; rewrite ?Hs1; try assumption.
        rewrite Hwb. exact Hw.
    - intros a f. pose proof (resultState_frame tex bg a f) as Hs.
      cbv zeta in Hs. rewrite Hs. cbn [buzzy window].
      pose proof (frameUpdate_fields tex a f) as Hf. cbv zeta in Hf.
      rewrite Hf. cbn [buzzy window].
      split; [split; reflexivity|].
      intros Hc Hsx Hsy Hfit. unfold updateBuzzy.
      match goal with
      | |- context [ECE_Buzzy.update ?l ?r ?d ?W (buzzy a)] =>
          destruct (update_clamped l r d W (buzzy a) Hfit) as [Hlo Hhi];
          apply (centred_inside
                   (ECE_Buzzy.sprite (ECE_Buzzy.update l r d W (buzzy a)))
                   W Hc Hsx Hsy Hlo Hhi)
      end. }
  destruct H as [(H1 & H2) H3].
  split; [exact H1|]. split; [exact H2|]. split; [|exact H3].
  unfold ECE_Buzzy.getGlobalBounds. rewrite H1. apply width_of_setPosition.
Qed.

(** A pass in which the window is resized to 800 x 600 while the player
    runs to the right. *)
Lemma player_through_round_witness :
  let s := initRound demoWindow demoTextures in
  let f := mkFrameInput [sf.Resized 800 600] 0 0 10 false true in
  let s' := resultState (frame demoTextures (sf.newSprite demoTexture) s f) in
  (In s' (roundStates demoTextures (sf.newSprite demoTexture) s [f])
   /\ sf.getSize (window s') = sf.mkVector2u 800 600
   /\ centred (ECE_Buzzy.sprite (buzzy s))
   /\ 0 <= sf.x (sf.scale (ECE_Buzzy.sprite (buzzy s)))
   /\ 0 <= sf.y (sf.scale (ECE_Buzzy.sprite (buzzy s)))
   /\ sf.width (ECE_Buzzy.getGlobalBounds (buzzy s))
      <= to_float (sf.ux (sf.getSize (window s'))))
  /\ ECE_Buzzy.sprite (buzzy s')
     = sf.setPosition
         (sf.mkVector2f (sf.x (ECE_Buzzy.getPosition (buzzy s')))
                        (sf.y (ECE_Buzzy.getPosition (buzzy s))))
         (ECE_Buzzy.sprite (buzzy s))
  /\ ECE_Buzzy.m_speed (buzzy s') = ECE_Buzzy.m_speed (buzzy s)
  /\ sf.width (ECE_Buzzy.getGlobalBounds (buzzy s'))
     == sf.width (ECE_Buzzy.getGlobalBounds (buzzy s))
  /\ 0 <= sf.left (ECE_Buzzy.getGlobalBounds (buzzy s'))
  /\ sf.left (ECE_Buzzy.getGlobalBounds (buzzy s'))
     + sf.width (ECE_Buzzy.getGlobalBounds (buzzy s'))
     <= to_float (sf.ux (sf.getSize (window s'))).
Proof.
  intros s f s'.
  assert (Hin : In s' (roundStates demoTextures (sf.newSprite demoTexture) s [f]))
    by (vm_compute; left; reflexivity).
  assert (Hsize : sf.getSize (window s') = sf.mkVector2u 800 600)
    by (vm_compute; reflexivity).
  assert (Hc : centred (ECE_Buzzy.sprite (buzzy s))) by reflexivity.
  assert (Hsx : 0 <= sf.x (sf.scale (ECE_Buzzy.sprite (buzzy s))))
    by (apply Qle_bool_iff; vm_compute; reflexivity).
  assert (Hsy : 0 <= sf.y (sf.scale (ECE_Buzzy.sprite (buzzy s))))
    by (apply Qle_bool_iff; vm_compute; reflexivity).
  assert (Hw : sf.width (ECE_Buzzy.getGlobalBounds (buzzy s))
               <= to_float (sf.ux (sf.getSize (window s'))))
    by (apply Qle_bool_iff; vm_compute; reflexivity).
  split; [exact (conj Hin (conj Hsize (conj Hc (conj Hsx (conj Hsy Hw)))))|].
  destruct (player_through_round demoTextures (sf.newSprite demoTexture) s
              [f] s' Hin) as (H1 & H2 & H3 & H4).
  split; [exact H1|]. split; [exact H2|]. split; [exact H3|].
  exact (H4 Hc Hsx Hsy Hw).
Defined.

(** ** Shots in flight *)

Lemma inFlight_update (tex : sf.Texture) (fromPlayer : bool) (vy dt : Q)
    (l : ECE_LaserBlast.t) :
  inFlight tex fromPlayer vy l ->
  inFlight tex fromPlayer vy (ECE_LaserBlast.update dt l).
Proof.
  intros (Hs & Hv & Hf). unfold inFlight.
  split; [|split; assumption].
  unfold ECE_LaserBlast.update, ECE_LaserBlast.move, ECE_LaserBlast.getPosition.
  cbn [ECE_LaserBlast.sprite]. rewrite Hs. reflexivity.
Qed.

Lemma updateShotList_In (shots : list ECE_LaserBlast.t) (dt windowHeight : Q)
    (l' : ECE_LaserBlast.t) :
  In l' (updateShotList shots dt windowHeight)
  <-> exists l, In l shots /\ l' = ECE_LaserBlast.update dt l
                /\ ECE_LaserBlast.isOffScreen windowHeight l' = false.
Proof.
  induction shots as [|l0 rest IH]; cbn [updateShotList].
  - split; [intros []|intros (l & [] & _)].
  - destruct (ECE_LaserBlast.isOffScreen windowHeight
                (ECE_LaserBlast.update dt l0)) eqn:Hoff.
    + rewrite IH. split.
      * intros (l & Hin & Heq & Hon). exists l. auto using in_cons.
      * intros (l & [<-|Hin] & Heq & Hon); [subst; congruence|eauto].
    + cbn [In]. rewrite IH. split.
      * intros [<-|(l & Hin & Heq & Hon)];
          [exists l0; auto using in_eq|exists l; auto using in_cons].
      * intros (l & [<-|Hin] & Heq & Hon); [left; auto|right; eauto].
Qed.

Lemma checkEnemyShotCollisions_sublist (shots : list ECE_LaserBlast.t)
    (b : ECE_Buzzy.t) (l : ECE_LaserBlast.t) :
  In l (snd (checkEnemyShotCollisions shots b)) -> In l shots.
Proof.
  destruct (fst (checkEnemyShotCollisions shots b)) eqn:Hhit.
  - destruct (checkEnemyShotCollisions_hit _ _ Hhit)
      as (before & shot & after & -> & _ & _ & ->).
    intros Hin. apply in_app_or in Hin as [Hin|Hin]; apply in_or_app;
      [left|right; right]; assumption.
  - destruct (checkEnemyShotCollisions_miss _ _ Hhit) as [_ ->]. auto.
Qed.

(** X11.  Shots in flight.  If at the start every player shot is a blast
    of the laser texture flying at (0, 400) and every enemy shot one
    flying at (0, -300), each only moved since it was built, then the
    same holds at the end of every pass of the main loop: the loop only
    adds shots of these two kinds, moves them, and erases some. *)
Theorem shots_stay_in_flight
    (tex : allTextures) (bg : sf.Sprite) (s : Round) (frames : list FrameInput)
    (s' : Round) :
  In s' (roundStates tex bg s frames) ->
  Forall (inFlight (laserTex tex) true 400) (playerShots s) ->
  Forall (inFlight (laserTex tex) false (-300)) (enemyShots s) ->
  Forall (inFlight (laserTex tex) true 400) (playerShots s')
  /\ Forall (inFlight (laserTex tex) false (-300)) (enemyShots s').
Proof.
  intros Hin Hp He.
  cut ((Forall (inFlight (laserTex tex) true 400) (playerShots s)
        /\ Forall (inFlight (laserTex tex) false (-300)) (enemyShots s)) ->
       (Forall (inFlight (laserTex tex) true 400) (playerShots s')
        /\ Forall (inFlight (laserTex tex) false (-300)) (enemyShots s'))).
  { intros H. apply H. split; assumption. }
  revert Hin.
  apply (roundStates_related tex bg
           (fun a b =>
              (Forall (inFlight (laserTex tex) true 400) (playerShots a)
               /\ Forall (inFlight (laserTex tex) false (-300)) (enemyShots a)) ->
              (Forall (inFlight (laserTex tex) true 400) (playerShots b)
               /\ Forall (inFlight (laserTex tex) false (-300)) (enemyShots b)))).
  - auto.
  - intros a f [Hpa Hea]. pose proof (resultState_frame tex bg a f) as Hs.
    cbv zeta in Hs. rewrite Hs. cbn [playerShots enemyShots].
    pose proof (frameUpdate_fields tex a f) as Hf. cbv zeta in Hf.
    rewrite Hf. cbn [playerShots enemyShots buzzy].
    split.
    + apply Forall_forall. intros l Hl.
      apply checkPlayerShotCollisions_sublist in Hl.
      apply updateShotList_In in Hl as (l0 & Hl0 & -> & _).
      apply inFlight_update.
      destruct (handleEvents_appends (events f) (window a) (buzzy a)
                  (playerShots a) (laserTex tex)) as [n Hn].
      rewrite Hn in Hl0. apply in_app_or in Hl0 as [Hl0|Hl0].
      * rewrite Forall_forall in Hpa. auto.
      * apply repeat_spec in Hl0. subst l0. repeat split.
    + apply Forall_forall. intros l Hl.
      apply checkEnemyShotCollisions_sublist in Hl.
      apply updateShotList_In in Hl as (l0 & Hl0 & -> & _).
      apply inFlight_update.
      rewrite Forall_forall in Hea.
      destruct (Qle_bool enemyShotsInterval (shotsElapsed f)); [|auto].
      unfold spawnEnemyLaser in Hl0.
      destruct (pickShooter (rnd f) (enemies a)) as [shooter|]; [|auto].
      apply in_app_or in Hl0 as [Hl0|[<-|[]]]; [auto|]. repeat split.
Qed.

Lemma shots_stay_in_flight_witness :
  let s := initRound demoWindow demoTextures in
  let f := mkFrameInput [sf.KeyPressed sf.Space] 1 5 (1 # 60) false false in
  let s' := resultState (frame demoTextures (sf.newSprite demoTexture) s f) in
  (In s' (roundStates demoTextures (sf.newSprite demoTexture) s [f])
   /\ length (playerShots s') = 1%nat /\ length (enemyShots s') = 1%nat)
  /\ Forall (inFlight (laserTex demoTextures) true 400) (playerShots s')
  /\ Forall (inFlight (laserTex demoTextures) false (-300)) (enemyShots s').
Proof.
  intros s f s'.
  assert (Hin : In s' (roundStates demoTextures (sf.newSprite demoTexture) s [f]))
    by (vm_compute; left; reflexivity).
  split; [split; [exact Hin|split; vm_compute; reflexivity]|].
  apply (shots_stay_in_flight demoTextures (sf.newSprite demoTexture) s [f] s' Hin);
    constructor.
Defined.

(** ** Enemy fire *)

Lemma pickShooter_some_iff (rnd : nat) (enemies : list ECE_Enemy.t) :
  (exists shooter, pickShooter rnd enemies = Some shooter)
  <-> exists e, In e enemies /\ ECE_Enemy.isAlive e = true.
Proof.
  split.
  - intros [shooter H]. exists shooter. eapply pickShooter_alive; eauto.
  - intros (e & Hin & Ha). unfold pickShooter.
    assert (Hf : In e (filter ECE_Enemy.isAlive enemies))
      by (apply filter_In; auto).
    destruct (filter ECE_Enemy.isAlive enemies) as [|e0 alive] eqn:Heq;
      [destruct Hf|].
    destruct (nth_error (e0 :: alive) (rnd mod length (e0 :: alive)))
      as [shooter|] eqn:Hn; [eauto|].
    apply nth_error_None in Hn.
    pose proof (Nat.mod_upper_bound rnd (length (e0 :: alive))) as Hlt.
    cbn [length] in *. lia.
Qed.

(** X12.  [spawnEnemyLaser] fires from an alive enemy, upward.  Whatever
    [std::rand()] returns the index is in range: when at least one enemy
    is alive exactly one shot is appended, built for an enemy of the swarm
    that is alive; when none is alive the list is left as it is.  The new
    shot starts at the shooter's x, [height / 2 + 10] below the shooter's
    position, is not a player shot, and flies at (0, -300): each update
    with [dt > 0] strictly decreases its y coordinate. *)
Theorem spawnEnemyLaser_outcome
    (rnd : nat) (shots : list ECE_LaserBlast.t) (enemies : list ECE_Enemy.t)
    (tex : sf.Texture) :
  ((exists e, In e enemies /\ ECE_Enemy.isAlive e = true) ->
   exists shooter,
     In shooter enemies /\ ECE_Enemy.isAlive shooter = true
     /\ spawnEnemyLaser rnd shots enemies tex
        = shots ++ [newEnemyShot shooter tex])
  /\ ((forall e, In e enemies -> ECE_Enemy.isAlive e = false) ->
      spawnEnemyLaser rnd shots enemies tex = shots)
  /\ (forall shooter dt,
        let shot := newEnemyShot shooter tex in
        ECE_LaserBlast.fromPlayer shot = false
        /\ ECE_LaserBlast.getVelocity shot = sf.mkVector2f 0 (-300)
        /\ ECE_LaserBlast.getPosition shot
           = sf.mkVector2f
               (sf.x (ECE_Enemy.getPosition shooter))
               (sf.y (ECE_Enemy.getPosition shooter)
                + sf.height (ECE_Enemy.getGlobalBounds shooter) * (1 # 2) + 10)
        /\ (0 < dt ->
            sf.y (ECE_LaserBlast.getPosition (ECE_LaserBlast.update dt shot))
            < sf.y (ECE_LaserBlast.getPosition shot))).
Proof.
  split; [|split].
  - intros Halive. apply (pickShooter_some_iff rnd) in Halive as [shooter Hp].
    destruct (pickShooter_alive _ _ _ Hp) as [Hin Ha].
    exists shooter. repeat split; auto.
    unfold spawnEnemyLaser. rewrite Hp. reflexivity.
  - intros Hdead. unfold spawnEnemyLaser.
    destruct (pickShooter rnd enemies) as [shooter|] eqn:Hp; [|reflexivity].
    destruct (pickShooter_alive _ _ _ Hp) as [Hin Ha].
    rewrite (Hdead shooter Hin) in Ha. discriminate.
  - intros shooter dt shot. repeat split.
    intros Hdt.
    change (sf.y (ECE_LaserBlast.getPosition (ECE_LaserBlast.update dt shot)))
      with (sf.y (ECE_LaserBlast.getPosition shot) + -300 * dt).
    nra.
Qed.

Lemma spawnEnemyLaser_outcome_witness :
  (exists e, In e (enemies demoOneDead) /\ ECE_Enemy.isAlive e = true)
  /\ exists shooter,
      In shooter (enemies demoOneDead) /\ ECE_Enemy.isAlive shooter = true
      /\ spawnEnemyLaser 7 [] (enemies demoOneDead) demoTexture
         = [] ++ [newEnemyShot shooter demoTexture].
Proof.
  assert (H : exists e, In e (enemies demoOneDead) /\ ECE_Enemy.isAlive e = true).
  { exists demoNeighbour. split; [right; left|]; reflexivity. }
  split; [exact H|].
  apply (proj1 (spawnEnemyLaser_outcome 7 [] (enemies demoOneDead) demoTexture) H).
Defined.

(** X13.  [updateShots] advances every shot of both lists by its velocity
    times [dt] and erases exactly those that are off screen afterwards:
    each list becomes its updated shots filtered by "not off screen", in
    the same order, so no shot left in either list is off screen and the
    two lists are handled independently of each other. *)
Theorem updateShots_outcome
    (playerShots enemyShots : list ECE_LaserBlast.t) (dt windowHeight : Q) :
  let onScreen l := negb (ECE_LaserBlast.isOffScreen windowHeight l) in
  updateShots playerShots enemyShots dt windowHeight
  = (filter onScreen (map (ECE_LaserBlast.update dt) playerShots),
     filter onScreen (map (ECE_LaserBlast.update dt) enemyShots))
  /\ Forall (fun l => ECE_LaserBlast.isOffScreen windowHeight l = false)
            (fst (updateShots playerShots enemyShots dt windowHeight))
  /\ Forall (fun l => ECE_LaserBlast.isOffScreen windowHeight l = false)
            (snd (updateShots playerShots enemyShots dt windowHeight))
  /\ (forall l,
        ECE_LaserBlast.getPosition (ECE_LaserBlast.update dt l)
        = sf.mkVector2f
            (sf.x (ECE_LaserBlast.getPosition l)
             + sf.x (ECE_LaserBlast.getVelocity l) * dt)
            (sf.y (ECE_LaserBlast.getPosition l)
             + sf.y (ECE_LaserBlast.getVelocity l) * dt)).
Proof.
  intros onScreen.
  assert (Heq : forall shots,
             updateShotList shots dt windowHeight
             = filter onScreen (map (ECE_LaserBlast.update dt) shots)).
  { induction shots as [|l rest IH]; [reflexivity|].
    cbn [updateShotList map filter]. unfold onScreen at 1.
    destruct (ECE_LaserBlast.isOffScreen windowHeight
                (ECE_LaserBlast.update dt l)); cbn [negb]; now rewrite IH. }
  assert (Hon : forall shots,
             Forall (fun l => ECE_LaserBlast.isOffScreen windowHeight l = false)
                    (updateShotList shots dt windowHeight)).
  { intros shots. apply Forall_forall. intros l Hl.
    apply updateShotList_In in Hl as (l0 & _ & _ & Hoff). exact Hoff. }
  unfold updateShots. cbn [fst snd]. rewrite <- !Heq.
  repeat split; auto.
Qed.

(** ** The start of a round *)

(** X14.  [createEnemies] lays out a grid of 4 rows and 8 columns, row by
    row: the vector has 32 enemies, and the enemy of row [r] and column
    [c] is at place [8 * r + c], alive, at position
    [(120 + 120 c, 0.65 * windowSize.y + 120 r)], and wears the first
    texture on even rows and the second on odd rows. *)
Theorem createEnemies_layout
    (enemyTex1 enemyTex2 : sf.Texture) (windowSize : sf.Vector2u) (r c : nat) :
  (r < 4)%nat -> (c < 8)%nat ->
  length (createEnemies enemyTex1 enemyTex2 windowSize) = 32%nat
  /\ exists e,
      nth_error (createEnemies enemyTex1 enemyTex2 windowSize) (8 * r + c)
      = Some e
      /\ ECE_Enemy.isAlive e = true
      /\ ECE_Enemy.getPosition e
         = sf.mkVector2f
             (120 + inject_Z (Z.of_nat c) * 120)
             (to_float (sf.uy windowSize) * (65 # 100)
              + inject_Z (Z.of_nat r) * 120)
      /\ sf.texRect (ECE_Enemy.sprite e)
         = sf.texSize (if Nat.even r then enemyTex1 else enemyTex2).
Proof.
  intros Hr Hc. split; [reflexivity|].
  assert (Hrs : (r = 0 \/ r = 1 \/ r = 2 \/ r = 3)%nat) by lia.
  assert (Hcs : (c = 0 \/ c = 1 \/ c = 2 \/ c = 3 \/ c = 4 \/ c = 5 \/ c = 6
                 \/ c = 7)%nat) by lia.
  destruct Hrs as [-> | [-> | [-> | ->]]];
    destruct Hcs as [-> | [-> | [-> | [-> | [-> | [-> | [-> | ->]]]]]]];
    eexists; (split; [reflexivity|]); repeat split.
Qed.

Lemma createEnemies_layout_witness :
  (2 < 4)%nat /\ (5 < 8)%nat
  /\ length (createEnemies demoTexture demoTexture (sf.getSize demoWindow))
     = 32%nat
  /\ exists e,
      nth_error (createEnemies demoTexture demoTexture (sf.getSize demoWindow))
                (8 * 2 + 5)
      = Some e
      /\ ECE_Enemy.isAlive e = true
      /\ ECE_Enemy.getPosition e
         = sf.mkVector2f
             (120 + inject_Z (Z.of_nat 5) * 120)
             (to_float (sf.uy (sf.getSize demoWindow)) * (65 # 100)
              + inject_Z (Z.of_nat 2) * 120)
      /\ sf.texRect (ECE_Enemy.sprite e)
         = sf.texSize (if Nat.even 2 then demoTexture else demoTexture).
Proof.
  split; [lia|]. split; [lia|].
  apply (createEnemies_layout demoTexture demoTexture (sf.getSize demoWindow) 2 5);
    lia.
Defined.

(** X15.  The state [playGame] starts a round from.  For a loaded player
    texture and a window size that is not negative: the player stands at
    [(windowSize.x / 2, windowSize.y / 4)] with its origin at its centre, a
    scale that is not negative and a width of at most a tenth of the
    window, so it fits the window; there is no shot in flight; the swarm
    is the full grid, all alive, so the round is not won yet; and the
    swarm heads right ([dir = +1]) at 300 with a vertical step of -20. *)
Theorem round_starts_well (w : sf.RenderWindow) (tex : allTextures) :
  (0 < sf.ux (sf.texSize (buzzyTex tex)))%Z ->
  (0 < sf.uy (sf.texSize (buzzyTex tex)))%Z ->
  (0 <= sf.ux (sf.getSize w))%Z -> (0 <= sf.uy (sf.getSize w))%Z ->
  let s := initRound w tex in
  playerFits s
  /\ sf.width (ECE_Buzzy.getGlobalBounds (buzzy s))
     <= to_float (sf.ux (sf.getSize w)) * (1 # 10)
  /\ ECE_Buzzy.getPosition (buzzy s)
     = sf.mkVector2f (to_float (sf.ux (sf.getSize w)) / 2)
                     (to_float (sf.uy (sf.getSize w)) * (25 # 100))
  /\ playerShots s = [] /\ enemyShots s = []
  /\ length (enemies s) = 32%nat
  /\ forallb ECE_Enemy.isAlive (enemies s) = true
  /\ checkWin (enemies s) = false
  /\ window s = w
  /\ (enemySpeedX s = 300 /\ dir s = 1%Z /\ stepUp s = -20).
Proof.
  intros Htw Hth HW HH s.
  pose proof (inject_Z_nonneg _ HW) as HW'.
  pose proof (inject_Z_nonneg _ HH) as HH'.
  assert (Htex : textured (ECE_Buzzy.sprite (ECE_Buzzy.new (buzzyTex tex))))
    by (split; assumption).
  assert (HtW : 0 <= to_float (sf.ux (sf.getSize w)) * (1 # 10))
    by (unfold to_float; lra).
  assert (HtH : 0 <= to_float (sf.uy (sf.getSize w)) * (1 # 10))
    by (unfold to_float; lra).
  destruct (scaled_to_box (ECE_Buzzy.sprite (ECE_Buzzy.new (buzzyTex tex)))
              _ _ Htex HtW HtH) as (Hw & _ & _ & Hm).
  cbv zeta in Hw, Hm.
  assert (Hwidth : sf.width (ECE_Buzzy.getGlobalBounds (buzzy s))
                   <= to_float (sf.ux (sf.getSize w)) * (1 # 10)).
  { unfold s, initRound. cbn [buzzy]. unfold ECE_Buzzy.getGlobalBounds.
    cbn [ECE_Buzzy.setPosition ECE_Buzzy.sprite].
    rewrite width_of_setPosition. exact Hw. }
  split; [|split; [exact Hwidth|]].
  - split; [reflexivity|]. split; [exact Hm|]. split; [exact Hm|].
    cbn [window s initRound]. unfold to_float in *. lra.
  - repeat split; reflexivity.
Qed.

Lemma round_starts_well_witness :
  let s := initRound demoWindow demoTextures in
  playerFits s
  /\ sf.width (ECE_Buzzy.getGlobalBounds (buzzy s))
     <= to_float (sf.ux (sf.getSize demoWindow)) * (1 # 10)
  /\ ECE_Buzzy.getPosition (buzzy s)
     = sf.mkVector2f (to_float (sf.ux (sf.getSize demoWindow)) / 2)
                     (to_float (sf.uy (sf.getSize demoWindow)) * (25 # 100))
  /\ playerShots s = [] /\ enemyShots s = []
  /\ length (enemies s) = 32%nat
  /\ forallb ECE_Enemy.isAlive (enemies s) = true
  /\ checkWin (enemies s) = false
  /\ window s = demoWindow
  /\ (enemySpeedX s = 300 /\ dir s = 1%Z /\ stepUp s = -20).
Proof.
  apply (round_starts_well demoWindow demoTextures); vm_compute; congruence.
Defined.

(** ** The swarm and the window *)

Lemma moveAlive_In (cx cy : Q) (enemies : list ECE_Enemy.t) (e' : ECE_Enemy.t) :
  In e' (moveAlive cx cy enemies) -> ECE_Enemy.isAlive e' = true ->
  exists e, In e enemies /\ ECE_Enemy.isAlive e = true
            /\ e' = ECE_Enemy.move cx cy e.
Proof.
  unfold moveAlive. intros Hin Ha.
  apply in_map_iff in Hin as (e & Heq & Hin).
  destruct (ECE_Enemy.isAlive e) eqn:Hae; subst e'; eauto. congruence.
Qed.

(** X16.  [updateEnemies] keeps the swarm inside the window: if every
    alive enemy's global bounds lie between 0 and [windowWidth]
    horizontally before the call, they still do after it, whatever [dt],
    the speed, the direction and the vertical step. *)
Theorem swarm_stays_in_window
    (enemies : list ECE_Enemy.t) (dt windowWidth enemySpeedX : Q) (dir : Z)
    (stepUp : Q) :
  (forall e, In e enemies -> ECE_Enemy.isAlive e = true ->
     0 <= sf.left (ECE_Enemy.getGlobalBounds e)
     /\ sf.left (ECE_Enemy.getGlobalBounds e)
        + sf.width (ECE_Enemy.getGlobalBounds e) <= windowWidth) ->
  forall e',
    In e' (fst (updateEnemies enemies dt windowWidth enemySpeedX dir stepUp)) ->
    ECE_Enemy.isAlive e' = true ->
    0 <= sf.left (ECE_Enemy.getGlobalBounds e')
    /\ sf.left (ECE_Enemy.getGlobalBounds e')
       + sf.width (ECE_Enemy.getGlobalBounds e') <= windowWidth.
Proof.
  intros Hinside e'. unfold updateEnemies.
  destruct enemies as [|e0 rest] eqn:Hes; [intros []|]. rewrite <- Hes in *.
  destruct (swarmEdges enemies None) as [[l r]|] eqn:Hedges;
    [|cbn [fst]; apply Hinside].
  destruct (swarmEdges_bounds enemies None l r Hedges) as (Hb & Htight & _).
  destruct (Htight 0 windowWidth Hinside I) as [Hl0 HrW].
  set (dx := enemySpeedX * to_float dir * dt).
  assert (Hmoved : forall cx cy,
             0 <= l + cx -> r + cx <= windowWidth ->
             In e' (moveAlive cx cy enemies) -> ECE_Enemy.isAlive e' = true ->
             0 <= sf.left (ECE_Enemy.getGlobalBounds e')
             /\ sf.left (ECE_Enemy.getGlobalBounds e')
                + sf.width (ECE_Enemy.getGlobalBounds e') <= windowWidth).
  { intros cx cy Hlc Hrc Hin Ha.
    destruct (moveAlive_In cx cy enemies e' Hin Ha) as (e & Hine & Hae & ->).
    destruct (Hb e Hine Hae) as [Hle Hre].
    destruct (bounds_of_move cx cy (ECE_Enemy.sprite e)) as (Hml & _ & Hmw & _).
    unfold ECE_Enemy.getGlobalBounds in *. cbn [ECE_Enemy.move ECE_Enemy.sprite].
    split; lra. }
  destruct (Qltb (l + dx) 0) eqn:Hleft; cbn [orb fst].
  - apply Qltb_lt in Hleft. apply Hmoved; lra.
  - apply Qltb_ge in Hleft.
    destruct (Qltb windowWidth (r + dx)) eqn:Hright; cbn [fst].
    + apply Qltb_lt in Hright. apply Hmoved; lra.
    + apply Qltb_ge in Hright. apply Hmoved; lra.
Qed.

Lemma swarm_stays_in_window_witness :
  let swarm := enemies (initRound demoWindow demoTextures) in
  (forall e, In e swarm -> ECE_Enemy.isAlive e = true ->
     0 <= sf.left (ECE_Enemy.getGlobalBounds e)
     /\ sf.left (ECE_Enemy.getGlobalBounds e)
        + sf.width (ECE_Enemy.getGlobalBounds e) <= 1920)
  /\ forall e',
      In e' (fst (updateEnemies swarm 10 1920 300 1 (-20))) ->
      ECE_Enemy.isAlive e' = true ->
      0 <= sf.left (ECE_Enemy.getGlobalBounds e')
      /\ sf.left (ECE_Enemy.getGlobalBounds e')
         + sf.width (ECE_Enemy.getGlobalBounds e') <= 1920.
Proof.
  intros swarm.
  assert (Hinside : forall e, In e swarm -> ECE_Enemy.isAlive e = true ->
             0 <= sf.left (ECE_Enemy.getGlobalBounds e)
             /\ sf.left (ECE_Enemy.getGlobalBounds e)
                + sf.width (ECE_Enemy.getGlobalBounds e) <= 1920).
  { intros e Hin _.
    assert (Hall : forallb
                     (fun e => Qle_bool 0 (sf.left (ECE_Enemy.getGlobalBounds e))
                               && Qle_bool
                                    (sf.left (ECE_Enemy.getGlobalBounds e)
                                     + sf.width (ECE_Enemy.getGlobalBounds e))
                                    1920)
                     swarm = true)
      by (vm_compute; reflexivity).
    rewrite forallb_forall in Hall. specialize (Hall e Hin).
    apply Bool.andb_true_iff in Hall as [Hl Hr].
    apply Qle_bool_iff in Hl. apply Qle_bool_iff in Hr. split; assumption. }
  split; [exact Hinside|].
  apply (swarm_stays_in_window swarm 10 1920 300 1 (-20) Hinside).
Defined.

(** ** Keys *)

(** X17.  Opposite keys cancel.  With both arrow keys held, or neither,
    [ECE_Buzzy::update] leaves a player that is inside the clamp interval
    where it is, whatever [dt] and the speed: the two displacements add up
    to nothing. *)
Theorem buzzy_opposite_keys_cancel
    (pressed : bool) (dt windowWidth : Q) (b : ECE_Buzzy.t) :
  sf.width (ECE_Buzzy.getGlobalBounds b) / 2 <= sf.x (ECE_Buzzy.getPosition b) ->
  sf.x (ECE_Buzzy.getPosition b)
  <= windowWidth - sf.width (ECE_Buzzy.getGlobalBounds b) / 2 ->
  sf.x (ECE_Buzzy.getPosition (ECE_Buzzy.update pressed pressed dt windowWidth b))
  == sf.x (ECE_Buzzy.getPosition b).
Proof.
  intros Hlo Hhi.
  change (sf.x (ECE_Buzzy.getPosition
                  (ECE_Buzzy.update pressed pressed dt windowWidth b)))
    with (std_clamp
            (sf.x (ECE_Buzzy.getPosition b)
             + (let dx := 0 in
                let dx := if pressed then dx - ECE_Buzzy.m_speed b * dt else dx in
                if pressed then dx + ECE_Buzzy.m_speed b * dt else dx))
            (sf.width (ECE_Buzzy.getGlobalBounds b) / 2)
            (windowWidth - sf.width (ECE_Buzzy.getGlobalBounds b) / 2)).
  cbv zeta. unfold std_clamp. destruct pressed; qcases; lra.
Qed.

Lemma buzzy_opposite_keys_cancel_witness :
  sf.x (ECE_Buzzy.getPosition (ECE_Buzzy.update true true 10 1920 demoBuzzy))
  == sf.x (ECE_Buzzy.getPosition demoBuzzy).
Proof.
  apply (buzzy_opposite_keys_cancel true 10 1920 demoBuzzy);
    vm_compute; congruence.
Defined.

(** ** What an outcome of the loop means *)

Lemma frame_WinScreen (tex : allTextures) (bg : sf.Sprite) (s s' : Round)
    (f : FrameInput) :
  frame tex bg s f = WinScreen s' ->
  forall e, In e (enemies s') -> ECE_Enemy.isAlive e = false.
Proof.
  unfold frame. rewrite frameChecks_cases. intros H.
  destruct (_ || _); [discriminate|].
  destruct (checkWin (enemies (frameUpdate tex s f))) eqn:Hwin; [|discriminate].
  injection H as <-. cbn [enemies]. apply checkWin_true_iff. exact Hwin.
Qed.

Lemma frame_LoseScreen (tex : allTextures) (bg : sf.Sprite) (s s' : Round)
    (f : FrameInput) :
  frame tex bg s f = LoseScreen s' ->
  let u := frameUpdate tex s f in
  (exists shot, In shot (enemyShots u)
                /\ sf.intersects (ECE_Buzzy.getGlobalBounds (buzzy u))
                     (ECE_LaserBlast.getGlobalBounds shot) = true)
  \/ (exists e, In e (enemies u) /\ ECE_Enemy.isAlive e = true
                /\ sf.intersects (ECE_Buzzy.getGlobalBounds (buzzy u))
                     (ECE_Enemy.getGlobalBounds e) = true).
Proof.
  unfold frame. rewrite frameChecks_cases. intros H. cbv zeta.
  set (u := frameUpdate tex s f) in *.
  destruct (fst (checkEnemyShotCollisions (enemyShots u) (buzzy u))) eqn:Hshot.
  - left. destruct (checkEnemyShotCollisions_hit _ _ Hshot)
      as (before & shot & after & Heq & Hi & _).
    exists shot. split; [rewrite Heq; apply in_elt|exact Hi].
  - cbn [orb] in H.
    destruct (checkPlayerEnemyCollision (buzzy u) (enemies u)) eqn:Htouch.
    + right. apply checkPlayerEnemyCollision_true_iff. exact Htouch.
    + destruct (checkWin (enemies u)); discriminate.
Qed.

Lemma replay_some (outcome result : GameOutcome) (again : option bool) :
  replay outcome again = Some result ->
  result <> Quit -> result = outcome /\ again = Some true.
Proof.
  unfold replay. destruct again as [[|]|]; cbn; intros H Hq;
    [injection H as <-; auto|injection H as <-; congruence|discriminate].
Qed.

Lemma passes_mainLoop (tex : allTextures) (endS winS bg : sf.Sprite)
    (endPolls : list (list sf.Event)) (pre more : list FrameInput) :
  forall s s0,
    passes tex bg s pre = Some s0 ->
    mainLoop tex endS winS bg s (pre ++ more) endPolls
    = mainLoop tex endS winS bg s0 more endPolls.
Proof.
  induction pre as [|f pre IH]; intros s s0 Hp; cbn [passes] in Hp.
  - injection Hp as <-. reflexivity.
  - cbn [app mainLoop]. destruct (negb (sf.isOpen (window s))); [discriminate|].
    destruct (frame tex bg s f) as [s1|s1|s1 drawn]; try discriminate. auto.
Qed.

Lemma passes_roundStates (tex : allTextures) (bg : sf.Sprite)
    (pre more : list FrameInput) :
  forall s s0,
    passes tex bg s pre = Some s0 ->
    roundStates tex bg s (pre ++ more)
    = roundStates tex bg s pre ++ roundStates tex bg s0 more
    /\ length (roundStates tex bg s pre) = length pre.
Proof.
  induction pre as [|f pre IH]; intros s s0 Hp; cbn [passes] in Hp.
  - injection Hp as <-. cbn [app roundStates].
    destruct (negb (sf.isOpen (window s))); split; reflexivity.
  - cbn [app roundStates]. destruct (negb (sf.isOpen (window s))); [discriminate|].
    destruct (frame tex bg s f) as [s1|s1|s1 drawn]; try discriminate.
    destruct (IH s1 s0 Hp) as [-> Hlen]. cbn [app length]. auto.
Qed.

(** The pass that ends a round: the loop went through the passes [pre],
    each ending with [drawScene] on an open window, reached [s0] with the
    window still open, and the next pass [f] gave [result]. *)
Lemma mainLoop_ending (tex : allTextures) (endS winS bg : sf.Sprite)
    (endPolls : list (list sf.Event)) (outcome : GameOutcome)
    (frames : list FrameInput) :
  outcome <> Quit ->
  forall s,
    mainLoop tex endS winS bg s frames endPolls = Some outcome ->
    exists pre f rest s0 s',
      frames = pre ++ f :: rest
      /\ passes tex bg s pre = Some s0
      /\ sf.isOpen (window s0) = true
      /\ frame tex bg s0 f
         = match outcome with Win => WinScreen s' | _ => LoseScreen s' end
      /\ snd (endScreen (window s')
                (match outcome with Win => winS | _ => endS end) endPolls)
         = Some true.
Proof.
  intros Hq. induction frames as [|f rest IH]; intros s Hres;
    cbn [mainLoop] in Hres.
  - destruct (negb (sf.isOpen (window s))); [|discriminate].
    injection Hres as <-. congruence.
  - destruct (sf.isOpen (window s)) eqn:Ho; cbn [negb] in Hres;
      [|injection Hres as <-; congruence].
    destruct (frame tex bg s f) as [s1|s1|s1 drawn] eqn:Hframe.
    + apply replay_some in Hres as [-> Hagain]; [|exact Hq].
      exists [], f, rest, s, s1. repeat split; auto.
    + apply replay_some in Hres as [-> Hagain]; [|exact Hq].
      exists [], f, rest, s, s1. repeat split; auto.
    + destruct (IH s1 Hres) as (pre & f0 & rest0 & s0 & s' & -> & Hp & H).
      exists (f :: pre), f0, rest0, s0, s'. split; [reflexivity|].
      split; [|exact H]. cbn [passes]. rewrite Ho, Hframe. exact Hp.
Qed.

(** X18.  [Win] is returned exactly for a won round.  [playGame]'s loop
    returns [Win] if and only if the frames of the round split into passes
    that each ended with [drawScene] on an open window, followed by a
    pass, entered with the window open, that ended with the win screen,
    on which the player chose to replay.  At the end of that pass, which
    is the last state of the round, no enemy of the swarm is alive and
    the window is still open. *)
Theorem win_is_earned
    (tex : allTextures) (endS winS bg : sf.Sprite) (frames : list FrameInput)
    (endPolls : list (list sf.Event)) (s : Round) :
  (mainLoop tex endS winS bg s frames endPolls = Some Win
   <-> exists pre f rest s0 s',
         frames = pre ++ f :: rest
         /\ passes tex bg s pre = Some s0
         /\ sf.isOpen (window s0) = true
         /\ frame tex bg s0 f = WinScreen s'
         /\ snd (endScreen (window s') winS endPolls) = Some true)
  /\ (forall pre f rest s0 s',
        frames = pre ++ f :: rest ->
        passes tex bg s pre = Some s0 ->
        sf.isOpen (window s0) = true ->
        frame tex bg s0 f = WinScreen s' ->
        snd (endScreen (window s') winS endPolls) = Some true ->
        (forall e, In e (enemies s') -> ECE_Enemy.isAlive e = false)
        /\ sf.isOpen (window s') = true
        /\ roundStates tex bg s frames = roundStates tex bg s pre ++ [s']
        /\ length (roundStates tex bg s pre) = length pre).
Proof.
  split.
  - split.
    + intros Hwin.
      destruct (mainLoop_ending tex endS winS bg endPolls Win frames
                  ltac:(discriminate) s Hwin)
        as (pre & f & rest & s0 & s' & H).
      exists pre, f, rest, s0, s'. exact H.
    + intros (pre & f & rest & s0 & s' & -> & Hp & Ho & Hframe & Hagain).
      rewrite (passes_mainLoop tex endS winS bg endPolls pre (f :: rest) s s0 Hp).
      cbn [mainLoop]. rewrite Ho. cbn [negb]. rewrite Hframe, Hagain.
      reflexivity.
  - intros pre f rest s0 s' -> Hp Ho Hframe Hagain.
    split; [eapply frame_WinScreen; eauto|]. split.
    + unfold endScreen in Hagain.
      destruct (modalScreen (window s') endPolls) as [w' r] eqn:Hm.
      cbn [snd] in Hagain. subst r.
      destruct (modalScreen_true _ _ _ Hm) as [Hw' Ho'].
      rewrite Hw', polled_isOpen in Ho'. exact Ho'.
    + destruct (passes_roundStates tex bg pre (f :: rest) s s0 Hp) as [-> Hlen].
      split; [|exact Hlen]. cbn [roundStates]. rewrite Ho. cbn [negb].
      rewrite Hframe. reflexivity.
Qed.

Lemma win_is_earned_witness :
  let bg := sf.newSprite demoTexture in
  let frames := [mkFrameInput [sf.Resized 1600 900] 0 0 0 false false;
                 demoTick; demoTick] in
  let endPolls := [[sf.OtherEvent]; [sf.KeyPressed sf.Enter]] in
  mainLoop demoTextures bg bg bg demoLastStand frames endPolls = Some Win
  /\ exists pre f rest s0 s',
      frames = pre ++ f :: rest
      /\ passes demoTextures bg demoLastStand pre = Some s0
      /\ sf.isOpen (window s0) = true
      /\ frame demoTextures bg s0 f = WinScreen s'
      /\ snd (endScreen (window s') bg endPolls) = Some true.
Proof.
  intros bg frames endPolls.
  assert (Hwin : mainLoop demoTextures bg bg bg demoLastStand frames endPolls
                 = Some Win)
    by (vm_compute; reflexivity).
  split; [exact Hwin|].
  apply (proj1 (proj1 (win_is_earned demoTextures bg bg bg frames endPolls
                         demoLastStand)) Hwin).
Defined.

(** X19.  [Lose] is returned exactly for a lost round.  [playGame]'s loop
    returns [Lose] if and only if the frames of the round split into
    passes that each ended with [drawScene] on an open window, followed by
    a pass, entered with the window open, that ended with the lose
    screen, on which the player chose to replay.  After the updates of
    that pass an enemy shot or an alive enemy intersected the player; the
    state the pass leaves is the last state of the round, and its window
    is still open. *)
Theorem lose_is_deserved
    (tex : allTextures) (endS winS bg : sf.Sprite) (frames : list FrameInput)
    (endPolls : list (list sf.Event)) (s : Round) :
  (mainLoop tex endS winS bg s frames endPolls = Some Lose
   <-> exists pre f rest s0 s',
         frames = pre ++ f :: rest
         /\ passes tex bg s pre = Some s0
         /\ sf.isOpen (window s0) = true
         /\ frame tex bg s0 f = LoseScreen s'
         /\ snd (endScreen (window s') endS endPolls) = Some true)
  /\ (forall pre f rest s0 s',
        frames = pre ++ f :: rest ->
        passes tex bg s pre = Some s0 ->
        sf.isOpen (window s0) = true ->
        frame tex bg s0 f = LoseScreen s' ->
        snd (endScreen (window s') endS endPolls) = Some true ->
        (let u := frameUpdate tex s0 f in
         (exists shot, In shot (enemyShots u)
                       /\ sf.intersects (ECE_Buzzy.getGlobalBounds (buzzy u))
                            (ECE_LaserBlast.getGlobalBounds shot) = true)
         \/ (exists e, In e (enemies u) /\ ECE_Enemy.isAlive e = true
                       /\ sf.intersects (ECE_Buzzy.getGlobalBounds (buzzy u))
                            (ECE_Enemy.getGlobalBounds e) = true))
        /\ sf.isOpen (window s') = true
        /\ roundStates tex bg s frames = roundStates tex bg s pre ++ [s']
        /\ length (roundStates tex bg s pre) = length pre).
Proof.
  split.
  - split.
    + intros Hlose.
      destruct (mainLoop_ending tex endS winS bg endPolls Lose frames
                  ltac:(discriminate) s Hlose)
        as (pre & f & rest & s0 & s' & H).
      exists pre, f, rest, s0, s'. exact H.
    + intros (pre & f & rest & s0 & s' & -> & Hp & Ho & Hframe & Hagain).
      rewrite (passes_mainLoop tex endS winS bg endPolls pre (f :: rest) s s0 Hp).
      cbn [mainLoop]. rewrite Ho. cbn [negb]. rewrite Hframe, Hagain.
      reflexivity.
  - intros pre f rest s0 s' -> Hp Ho Hframe Hagain.
    split; [eapply frame_LoseScreen; eauto|]. split.
    + unfold endScreen in Hagain.
      destruct (modalScreen (window s') endPolls) as [w' r] eqn:Hm.
      cbn [snd] in Hagain. subst r.
      destruct (modalScreen_true _ _ _ Hm) as [Hw' Ho'].
      rewrite Hw', polled_isOpen in Ho'. exact Ho'.
    + destruct (passes_roundStates tex bg pre (f :: rest) s s0 Hp) as [-> Hlen].
      split; [|exact Hlen]. cbn [roundStates]. rewrite Ho. cbn [negb].
      rewrite Hframe. reflexivity.
Qed.

Lemma lose_is_deserved_witness :
  let bg := sf.newSprite demoTexture in
  let frames := [mkFrameInput [] 0 0 0 false false; demoTick; demoTick] in
  let endPolls := [[sf.KeyPressed sf.Enter]] in
  mainLoop demoTextures bg bg bg demoUnderFire frames endPolls = Some Lose
  /\ exists pre f rest s0 s',
      frames = pre ++ f :: rest
      /\ passes demoTextures bg demoUnderFire pre = Some s0
      /\ sf.isOpen (window s0) = true
      /\ frame demoTextures bg s0 f = LoseScreen s'
      /\ snd (endScreen (window s') bg endPolls) = Some true.
Proof.
  intros bg frames endPolls.
  assert (Hlose : mainLoop demoTextures bg bg bg demoUnderFire frames endPolls
                  = Some Lose)
    by (vm_compute; reflexivity).
  split; [exact Hlose|].
  apply (proj1 (proj1 (lose_is_deserved demoTextures bg bg bg frames endPolls
                         demoUnderFire)) Hlose).
Defined.

(** ** The screens and the queue on sample input *)

Lemma modal_screen_outcome_witness :
  sf.isOpen demoWindow = true
  /\ modalScreen demoWindow
       [[sf.OtherEvent]; [sf.Resized 800 600];
        [sf.KeyPressed sf.Space; sf.KeyPressed sf.Enter];
        [sf.Resized 640 480; sf.Closed]]
     = (sf.mkWindow true (sf.mkVector2u 800 600), Some true).
Proof.
  split; [reflexivity|].
  destruct (modal_screen_outcome demoWindow
              [[sf.OtherEvent]; [sf.Resized 800 600];
               [sf.KeyPressed sf.Space; sf.KeyPressed sf.Enter];
               [sf.Resized 640 480; sf.Closed]]) as (_ & Hopen & _).
  rewrite (Hopen eq_refl). reflexivity.
Defined.

Lemma handleEvents_outcome_witness :
  (sf.isOpen demoWindow = true
   /\ existsb isClosing [sf.KeyPressed sf.Space; sf.OtherEvent] = false
   /\ isClosing (sf.KeyPressed sf.Escape) = true
   /\ existsb isResized [sf.KeyPressed sf.Space; sf.OtherEvent] = false)
  /\ handleEvents demoWindow demoBuzzy [demoShot] demoTexture
       ([sf.KeyPressed sf.Space; sf.OtherEvent]
        ++ sf.KeyPressed sf.Escape
           :: [sf.KeyPressed sf.Space; sf.Resized 800 600; sf.Closed])
     = (sf.close demoWindow,
        [demoShot] ++ repeat (newPlayerShot demoBuzzy demoTexture) 1).
Proof.
  split; [repeat split|].
  destruct (handleEvents_outcome demoWindow demoBuzzy [demoShot] demoTexture)
    as (_ & _ & _ & _ & _ & Hclose).
  apply (Hclose [sf.KeyPressed sf.Space; sf.OtherEvent]
                (sf.KeyPressed sf.Escape)
                [sf.KeyPressed sf.Space; sf.Resized 800 600; sf.Closed]);
    reflexivity.
Defined.
